(** * AbhiScript: segment normalisation, speaker resolution and the
      transcription life cycle

    A shallow embedding of
      - [backend/src/services/transcriptionService.ts]
      - [backend/src/services/speakerIdentificationService.ts]
      - the routes of the transcriptions that call the two services
    and the properties of the segment normaliser, of the speaker-name
    overlay, of the orchestrator's status transitions, of the prompt of the
    resolver and of the answers of the routes.

    Conventions of the model.
    - A JavaScript number is an exact rational ([Q]): rounding, NaN and the
      infinities are outside the model.  A number is falsy when it is zero.
    - A JavaScript string is a [string] of 8-bit code units.  A string is
      falsy when it is empty.
    - An optional property ([undefined] or [null]) is an [option].
    - A JavaScript value that this code only passes on or tests for
      truthiness, without looking into it, is kept opaque.
    - The object a JSON text of string members denotes is a
      [gmap string string] of its own properties; what a plain object
      inherits from [Object.prototype], and what [JSON.parse] makes of any
      other text, is not decided here but taken from the JavaScript engine,
      which is part of the world the code runs in.
    - The database is a pair of tables keyed by recording id; an [update]
      of a missing row and a [create] of an existing one throw.
    - An [async] method is a computation over the database and the log
      that returns a value or throws; the calls that leave the process
      (file system, transcription provider, audio probe, language model)
      take their results from an environment. *)

From Stdlib Require Import QArith Qround Ascii Lqa.
From stdpp Require Import gmap strings list fin_maps pretty.

(** ** JavaScript values *)

Module JS.

(** Truthiness of a string: every string but the empty one. *)
Definition truthy_string (s : string) : bool :=
  match s with
  | EmptyString => false
  | String _ _ => true
  end.

(** Truthiness of [string | undefined]. *)
Definition truthy (o : option string) : bool :=
  match o with
  | Some s => truthy_string s
  | None => false
  end.

(** Truthiness of a number. *)
Definition truthy_num (q : Q) : bool := negb (Qeq_bool q 0).

(** [a || b] on strings. *)
Definition or_string (a b : string) : string :=
  if truthy_string a then a else b.

(** [a || b] on numbers. *)
Definition or_num (a b : Q) : Q :=
  if truthy_num a then a else b.

(** [a || b] where [a] may be undefined. *)
Definition or_opt_num (a : option Q) (b : Q) : Q :=
  match a with
  | Some q => or_num q b
  | None => b
  end.

Definition or_opt_string (a : option string) (b : string) : string :=
  match a with
  | Some s => or_string s b
  | None => b
  end.

(** White space as [String.prototype.trim] sees it, among the code units
    below 256: TAB, LF, VT, FF, CR, SPACE and NBSP. *)
Definition is_space (c : ascii) : bool :=
  let n := nat_of_ascii c in
  ((9 <=? n)%nat && (n <=? 13)%nat) || (n =? 32)%nat || (n =? 160)%nat.

Fixpoint trim_start (s : string) : string :=
  match s with
  | EmptyString => EmptyString
  | String c s' => if is_space c then trim_start s' else s
  end.

(** [trim_end] drops the white space that ends the string. *)
Fixpoint trim_end (s : string) : string :=
  match s with
  | EmptyString => EmptyString
  | String c s' =>
      match trim_end s' with
      | EmptyString => if is_space c then EmptyString else String c EmptyString
      | r => String c r
      end
  end.

Definition trim (s : string) : string := trim_end (trim_start s).

(** The last code unit of a string. *)
Fixpoint last_char (s : string) : option ascii :=
  match s with
  | EmptyString => None
  | String c EmptyString => Some c
  | String _ s' => last_char s'
  end.

(** [s.match(/[.!?]$/)] as a boolean: the string ends in a full stop, an
    exclamation mark or a question mark. *)
Definition ends_sentence (s : string) : bool :=
  match last_char s with
  | Some c => (c =? ".")%char || (c =? "!")%char || (c =? "?")%char
  | None => false
  end.

(** A value as this code sees it: a string of the model, or any other value
    (a number, an object, a function, a string with a code unit above 255),
    of which the code observes the truthiness and nothing else.  The label
    tells such values apart. *)
Inductive value :=
  | Str (s : string)
  | Opaque (label : string) (isTruthy : bool).

Definition truthy_value (v : value) : bool :=
  match v with
  | Str s => truthy_string s
  | Opaque _ b => b
  end.

End JS.

(** ** The normaliser's data *)

(** A segment [{start, end, text, speaker?}] of [TranscriptionResult]. *)
Record Segment := mkSegment {
  seg_start : Q;
  seg_end : Q;
  seg_text : string;
  seg_speaker : option string
}.

(** An utterance of the provider: times in milliseconds. *)
Record Utterance := mkUtterance {
  utt_start : Q;
  utt_end : Q;
  utt_text : string;
  utt_speaker : option string
}.

(** A word of the provider: times in milliseconds. *)
Record Word := mkWord {
  word_start : Q;
  word_end : Q;
  word_text : string;
  word_speaker : option string
}.

Inductive TranscriptStatus := StatusCompleted | StatusError.

(** The provider's response, as far as the service reads it. *)
Record ProviderTranscript := mkProviderTranscript {
  pt_status : TranscriptStatus;
  pt_error : option string;
  pt_text : option string;
  pt_language_code : option string;
  pt_audio_duration : option Q;
  pt_utterances : option (list Utterance);
  pt_words : option (list Word)
}.

(** [`Speaker ${id}`] when the id is truthy, [undefined] otherwise. *)
Definition speakerTag (id : option string) : option string :=
  match id with
  | Some s => if JS.truthy_string s then Some ("Speaker " +:+ s)%string else None
  | None => None
  end.

Definition ms_to_s (q : Q) : Q := (q / 1000)%Q.

(** The callback of [transcript.utterances.map]. *)
Definition utteranceToSegment (u : Utterance) : Segment :=
  {| seg_start := ms_to_s (utt_start u);
     seg_end := ms_to_s (utt_end u);
     seg_text := JS.or_string (utt_text u) ""%string;
     seg_speaker := speakerTag (utt_speaker u) |}.

(** The variables of the word loop. *)
Record LoopState := mkLoopState {
  segments : list Segment;
  currentSegment : string;
  segmentStart : Q;
  currentSpeaker : option string
}.

Definition loopInit : LoopState :=
  {| segments := []; currentSegment := ""%string; segmentStart := 0%Q;
     currentSpeaker := None |}.

(** The end-of-segment test of the loop body at index [i]. *)
Definition closesSegment (n i : nat) (speakerChanged : bool) (word : Word) : bool :=
  speakerChanged
  || JS.ends_sentence (word_text word)
  || ((0 <? i)%nat && (i mod 50 =? 0)%nat)
  || (i =? n - 1)%nat.

(** One iteration of [for (let i = 0; i < transcript.words.length; i++)]. *)
Definition loopBody (words : list Word) (st : LoopState) (i : nat) : LoopState :=
  match words !! i with
  | None => st
  | Some word =>
      let segmentStart0 :=
        if (i =? 0)%nat then ms_to_s (word_start word) else segmentStart st in
      let currentSpeaker0 :=
        if (i =? 0)%nat then speakerTag (word_speaker word) else currentSpeaker st in
      let wordSpeaker := speakerTag (word_speaker word) in
      let speakerChanged := negb (bool_decide (wordSpeaker = currentSpeaker0)) in
      let currentSegment0 := currentSegment st +:+ (word_text word +:+ " "%string) in
      if closesSegment (length words) i speakerChanged word then
        let segment :=
          {| seg_start := segmentStart0;
             seg_end := ms_to_s (word_end word);
             seg_text := JS.trim currentSegment0;
             seg_speaker :=
               if JS.truthy currentSpeaker0 then currentSpeaker0 else None |} in
        let segments0 := segments st ++ [segment] in
        if speakerChanged then
          {| segments := segments0;
             currentSegment := word_text word +:+ " "%string;
             segmentStart := ms_to_s (word_start word);
             currentSpeaker := wordSpeaker |}
        else if (i <? length words - 1)%nat then
          {| segments := segments0;
             currentSegment := ""%string;
             segmentStart :=
               JS.or_opt_num (ms_to_s <$> (word_start <$> words !! (i + 1)%nat)) 0;
             currentSpeaker :=
               speakerTag (words !! (i + 1)%nat ≫= word_speaker) |}
        else
          {| segments := segments0;
             currentSegment := ""%string;
             segmentStart := segmentStart0;
             currentSpeaker := currentSpeaker0 |}
      else
        {| segments := segments st;
           currentSegment := currentSegment0;
           segmentStart := segmentStart0;
           currentSpeaker := currentSpeaker0 |}
  end.

(** The loop run over the indices [0 .. k-1]. *)
Definition loopUpTo (words : list Word) (k : nat) : LoopState :=
  foldl (loopBody words) loopInit (seq 0 k).

(** The word branch of the normaliser. *)
Definition groupWords (words : list Word) : list Segment :=
  segments (loopUpTo words (length words)).

(** The last resort: one segment for the whole text. *)
Definition wholeTextSegment (t : ProviderTranscript) : Segment :=
  {| seg_start := 0;
     seg_end := JS.or_opt_num (pt_audio_duration t) 0;
     seg_text := JS.or_opt_string (pt_text t) ""%string;
     seg_speaker := None |}.

Definition parseAssemblyAISegmentsWithSpeakers (t : ProviderTranscript)
  : list Segment :=
  match pt_utterances t with
  | Some utterances => utteranceToSegment <$> utterances
  | None =>
      match pt_words t with
      | Some words => groupWords words
      | None => [wholeTextSegment t]
      end
  end.

(** ** JSON text of a speaker mapping

    The printer and the reader of the values the [speakerNames] column is
    typed to hold: flat objects from strings to strings.  The order in
    which the properties are listed is the order of [map_to_list]; every
    order denotes the same object.  The reader accepts a text only when it
    is the JSON text of such an object; every other text, well formed or
    not, is left to the engine (see [JSON_parse] below). *)

Module JSON.

Definition dquote : ascii := ascii_of_nat 34.
Definition backslash : ascii := ascii_of_nat 92.

Definition hex_digit (n : nat) : ascii :=
  if (n <? 10)%nat then ascii_of_nat (48 + n) else ascii_of_nat (87 + n).

(** The escape of one code unit inside a string literal. *)
Definition quote_char (c : ascii) : string :=
  let n := nat_of_ascii c in
  if (n =? 34)%nat then String backslash (String dquote EmptyString)
  else if (n =? 92)%nat then String backslash (String backslash EmptyString)
  else if (n =? 8)%nat then String backslash "b"
  else if (n =? 12)%nat then String backslash "f"
  else if (n =? 10)%nat then String backslash "n"
  else if (n =? 13)%nat then String backslash "r"
  else if (n =? 9)%nat then String backslash "t"
  else if (n <? 32)%nat then
    String backslash
      (String "u" (String "0" (String "0"
        (String (hex_digit (n / 16)) (String (hex_digit (n mod 16)) EmptyString)))))
  else String c EmptyString.

Fixpoint quote_body (s : string) : string :=
  match s with
  | EmptyString => EmptyString
  | String c s' => quote_char c +:+ quote_body s'
  end.

Definition quote (s : string) : string :=
  String dquote (quote_body s +:+ String dquote EmptyString).

Definition member (kv : string * string) : string :=
  quote kv.1 +:+ String ":" (quote kv.2).

Fixpoint members (l : list (string * string)) : string :=
  match l with
  | [] => EmptyString
  | [kv] => member kv
  | kv :: l' => member kv +:+ String "," (members l')
  end.

Definition stringify (m : gmap string string) : string :=
  String "{" (members (map_to_list m) +:+ String "}" EmptyString).

(** White space between the tokens of a JSON text. *)
Definition is_ws (c : ascii) : bool :=
  let n := nat_of_ascii c in
  (n =? 32)%nat || (n =? 9)%nat || (n =? 10)%nat || (n =? 13)%nat.

Fixpoint skip_ws (s : string) : string :=
  match s with
  | EmptyString => EmptyString
  | String c s' => if is_ws c then skip_ws s' else s
  end.

Definition unhex (c : ascii) : option nat :=
  let n := nat_of_ascii c in
  if (48 <=? n)%nat && (n <=? 57)%nat then Some (n - 48)
  else if (97 <=? n)%nat && (n <=? 102)%nat then Some (n - 87)
  else if (65 <=? n)%nat && (n <=? 70)%nat then Some (n - 55)
  else None.

(** The code unit of [\uXXXX]; those above 255 are outside the model. *)
Definition unhex4 (h1 h2 h3 h4 : ascii) : option ascii :=
  a ← unhex h1; b ← unhex h2; c ← unhex h3; d ← unhex h4;
  let n := ((a * 16 + b) * 16 + c) * 16 + d in
  if (n <? 256)%nat then Some (ascii_of_nat n) else None.

Definition unescape (e : ascii) : option ascii :=
  let n := nat_of_ascii e in
  if (n =? 34)%nat then Some dquote
  else if (n =? 92)%nat then Some backslash
  else if (n =? 47)%nat then Some "/"%char
  else if (n =? 98)%nat then Some (ascii_of_nat 8)
  else if (n =? 102)%nat then Some (ascii_of_nat 12)
  else if (n =? 110)%nat then Some (ascii_of_nat 10)
  else if (n =? 114)%nat then Some (ascii_of_nat 13)
  else if (n =? 116)%nat then Some (ascii_of_nat 9)
  else None.

Definition prepend (c : ascii) (r : option (string * string))
  : option (string * string) :=
  match r with
  | Some (s, rest) => Some (String c s, rest)
  | None => None
  end.

(** The characters of a string literal after its opening quote: the
    decoded string and the text after the closing quote. *)
Fixpoint parse_chars (s : string) : option (string * string) :=
  match s with
  | EmptyString => None
  | String c s1 =>
      if (nat_of_ascii c =? 34)%nat then Some (EmptyString, s1)
      else if (nat_of_ascii c =? 92)%nat then
        match s1 with
        | EmptyString => None
        | String e s2 =>
            if (nat_of_ascii e =? 117)%nat then
              match s2 with
              | String h1 (String h2 (String h3 (String h4 s3))) =>
                  match unhex4 h1 h2 h3 h4 with
                  | Some c' => prepend c' (parse_chars s3)
                  | None => None
                  end
              | _ => None
              end
            else
              match unescape e with
              | Some c' => prepend c' (parse_chars s2)
              | None => None
              end
        end
      else if (nat_of_ascii c <? 32)%nat then None
      else prepend c (parse_chars s1)
  end.

Definition parse_string (s : string) : option (string * string) :=
  match s with
  | String c s' => if (nat_of_ascii c =? 34)%nat then parse_chars s' else None
  | EmptyString => None
  end.

(** The members of an object, from the first key on; a later duplicate of
    a key overrides an earlier one. *)
Fixpoint parse_members (fuel : nat) (acc : gmap string string) (s : string)
  : option (gmap string string * string) :=
  match fuel with
  | O => None
  | S fuel' =>
      match parse_string s with
      | None => None
      | Some (k, s1) =>
          match skip_ws s1 with
          | String c1 s2 =>
              if (nat_of_ascii c1 =? 58)%nat then
                match parse_string (skip_ws s2) with
                | None => None
                | Some (v, s3) =>
                    match skip_ws s3 with
                    | String c2 s4 =>
                        if (nat_of_ascii c2 =? 44)%nat then
                          parse_members fuel' (<[k:=v]> acc) (skip_ws s4)
                        else if (nat_of_ascii c2 =? 125)%nat then
                          Some (<[k:=v]> acc, s4)
                        else None
                    | EmptyString => None
                    end
                end
              else None
          | EmptyString => None
          end
      end
  end.

Definition at_end (s : string) : bool :=
  match skip_ws s with
  | EmptyString => true
  | String _ _ => false
  end.

(** The object that a text denotes, when the text is the JSON text of an
    object whose members are all strings of the model. *)
Definition read_mapping (s : string) : option (gmap string string) :=
  match skip_ws s with
  | String c s1 =>
      if (nat_of_ascii c =? 123)%nat then
        match skip_ws s1 with
        | String c' s2 =>
            if (nat_of_ascii c' =? 125)%nat then
              if at_end s2 then Some ∅ else None
            else
              match parse_members (String.length s) ∅ (String c' s2) with
              | Some (m, s3) => if at_end s3 then Some m else None
              | None => None
              end
        | EmptyString => None
        end
      else None
  | EmptyString => None
  end.

(** A value that [JSON.parse] returns and the model does not look into, by
    what this code observes of it: its truthiness, its [JSON.stringify]
    text, and the value of [v[key]] for a key, own or inherited ([None] is
    [undefined]). *)
Record other := mkOther {
  other_truthy : bool;
  other_text : string;
  other_get : string → option JS.value
}.

(** A value that [JSON.parse] returns: an object of string members that the
    model reads itself, or any other value. *)
Inductive value :=
  | Mapping (m : gmap string string)
  | Other (o : other).

(** Truthiness: an object is truthy, also the empty one. *)
Definition truthy (v : value) : bool :=
  match v with
  | Mapping _ => true
  | Other o => other_truthy o
  end.

End JSON.

(** ** The database and the log *)

(** A row of [recordings]; [duration] is nullable. *)
Record Recording := mkRecording {
  rec_filename : string;
  rec_originalFilename : string;
  rec_duration : option Q;
  rec_status : string
}.

(** A row of [transcripts], keyed by its unique [recordingId].  The
    [content] column holds the JSON text of a segment array: the model keeps
    the array that text denotes.  The generated columns ([id], [createdAt],
    [updatedAt]) are left out. *)
Record Transcript := mkTranscript {
  tr_content : list Segment;
  tr_rawTranscript : string;
  tr_speakerCount : Z;
  tr_confidenceScore : option Q;
  tr_language : option string;
  tr_speakerNames : option string;
  tr_speakerIdentified : bool
}.

Record Db := mkDb {
  recordings : gmap string Recording;
  transcripts : gmap string Transcript
}.

Inductive Level := Info | Warn | Error.

(** What a run leaves behind besides the database: the lines handed to the
    logger (level and message, without the attached objects; a numeral in a
    template is left as its placeholder) and the chat-completion requests
    sent to the language model, each marked with the recording it is for. *)
Inductive Event :=
  | Log (level : Level) (message : string)
  | ChatCompletion (recordingId : string).

(** A thrown [Error] with its message. *)
Inductive Exception := Throw (message : string).

Definition message (e : Exception) : string :=
  match e with Throw m => m end.

(** The JavaScript engine, as far as the model leaves it open: what
    [JSON.parse] does with a text that is not the text of an object of
    string members (the [SyntaxError] it throws, or the value), and what
    [o[key]] is for a plain object [o] that has no property [key] of its
    own, which is what [o] inherits from [Object.prototype] ([None] is
    [undefined]).  Nothing is assumed of either. *)
Record Engine := mkEngine {
  engine_parse : string → Exception + JSON.other;
  engine_inherited : string → option JS.value
}.

(** [JSON.parse(text)] *)
Definition JSON_parse (engine : Engine) (text : string) : Exception + JSON.value :=
  match JSON.read_mapping text with
  | Some m => inr (JSON.Mapping m)
  | None =>
      match engine_parse engine text with
      | inr o => inr (JSON.Other o)
      | inl e => inl e
      end
  end.

(** [JSON.stringify(v)] of a value that [JSON.parse] returned. *)
Definition JSON_stringify (v : JSON.value) : string :=
  match v with
  | JSON.Mapping m => JSON.stringify m
  | JSON.Other o => JSON.other_text o
  end.

(** [v[key]] for a truthy value that [JSON.parse] returned: an own property
    first, then an inherited one. *)
Definition getProperty (engine : Engine) (v : JSON.value) (key : string)
  : option JS.value :=
  match v with
  | JSON.Mapping m =>
      match m !! key with
      | Some s => Some (JS.Str s)
      | None => engine_inherited engine key
      end
  | JSON.Other o => JSON.other_get o key
  end.

(** The world a computation runs in: the database, the log, and the engine,
    which no computation changes. *)
Record World := mkWorld {
  db : Db;
  trace : list Event;
  engine : Engine
}.

(** ** Computations that read and write the world and may throw *)

Definition M (A : Type) : Type := World → (Exception + A) * World.

Definition ret {A} (a : A) : M A := λ w, (inr a, w).

Definition throw {A} (e : Exception) : M A := λ w, (inl e, w).

Definition bind {A B} (m : M A) (k : A → M B) : M B :=
  λ w, match m w with
       | (inr a, w') => k a w'
       | (inl e, w') => (inl e, w')
       end.

(** [try { m } catch (e) { h e }] *)
Definition try_catch {A} (m : M A) (h : Exception → M A) : M A :=
  λ w, match m w with
       | (inr a, w') => (inr a, w')
       | (inl e, w') => h e w'
       end.

Declare Scope m_scope.
Delimit Scope m_scope with M.
Notation "'let*' x ':=' m 'in' k" := (bind m (λ x, k))
  (at level 10, x binder, m at level 100, k at level 200) : m_scope.
Notation "'do' m 'then' k" := (bind m (λ _, k))
  (at level 10, m at level 100, k at level 200) : m_scope.

Definition emit (e : Event) : M unit :=
  λ w, (inr tt, {| db := db w; trace := trace w ++ [e]; engine := engine w |}).

Definition logger (l : Level) (msg : string) : M unit := emit (Log l msg).

Definition getDb : M Db := λ w, (inr (db w), w).

Definition putDb (d : Db) : M unit :=
  λ w, (inr tt, {| db := d; trace := trace w; engine := engine w |}).

Definition getEngine : M Engine := λ w, (inr (engine w), w).

(** Lifting of a call that may throw. *)
Definition liftE {A} (r : Exception + A) : M A :=
  match r with
  | inr a => ret a
  | inl e => throw e
  end.

(** *** Prisma *)

Module prisma.

Definition not_found : Exception :=
  Throw "An operation failed because it depends on one or more records that were required but not found.".

Definition unique_constraint : Exception :=
  Throw "Unique constraint failed on the fields: (`recording_id`)".

Definition foreign_key : Exception :=
  Throw "Foreign key constraint failed on the field: `recording_id`".

(** [prisma.recording.update({ where: { id }, data })] *)
Definition recording_update (id : string) (f : Recording → Recording) : M unit :=
  (let* d := getDb in
   match recordings d !! id with
   | Some r =>
       putDb {| recordings := <[id := f r]> (recordings d);
                transcripts := transcripts d |}
   | None => throw not_found
   end)%M.

(** [prisma.transcript.create({ data })] *)
Definition transcript_create (recordingId : string) (t : Transcript) : M unit :=
  (let* d := getDb in
   match transcripts d !! recordingId with
   | Some _ => throw unique_constraint
   | None =>
       match recordings d !! recordingId with
       | None => throw foreign_key
       | Some _ =>
           putDb {| recordings := recordings d;
                    transcripts := <[recordingId := t]> (transcripts d) |}
       end
   end)%M.

(** [prisma.transcript.update({ where: { recordingId }, data })] *)
Definition transcript_update (recordingId : string) (f : Transcript → Transcript)
  : M unit :=
  (let* d := getDb in
   match transcripts d !! recordingId with
   | Some t =>
       putDb {| recordings := recordings d;
                transcripts := <[recordingId := f t]> (transcripts d) |}
   | None => throw not_found
   end)%M.

(** [prisma.transcript.findUnique({ where: { recordingId } })] *)
Definition transcript_findUnique (recordingId : string) : M (option Transcript) :=
  (let* d := getDb in ret (transcripts d !! recordingId))%M.

(** The same with [include: { recording: true }]. *)
Definition transcript_findUnique_include (recordingId : string)
  : M (option (Transcript * option Recording)) :=
  (let* d := getDb in
   ret ((λ t, (t, recordings d !! recordingId)) <$> transcripts d !! recordingId))%M.

End prisma.

(** ** The outside world of one run

    The results of the calls that leave the process: what they return is
    not decided by this code. *)
Record Env := mkEnv {
  (** [fs.statSync(filePath).size], or the error it throws *)
  env_statSync : string → Exception + Q;
  (** [assemblyai.transcripts.transcribe], or the error it throws *)
  env_transcribe : string → Exception + ProviderTranscript;
  (** [ffmpeg.ffprobe]: [None] for [err], else [metadata?.format?.duration] *)
  env_ffprobe : string → option (option Q);
  (** whether the constructor could build the speaker identification service *)
  env_speakerIdentificationService : bool;
  (** [response.choices[0]?.message?.content] of the chat completion for a
      transcript, or the error the request throws *)
  env_chat : list Segment → string → Exception + option string
}.

(** ** speakerIdentificationService.ts *)

(** A segment as [applySpeakerNamesToSegments] returns it: the speaker is
    whatever the lookup gave. *)
Record NamedSegment := mkNamedSegment {
  ns_start : Q;
  ns_end : Q;
  ns_text : string;
  ns_speaker : option JS.value
}.

(** A segment returned as it is. *)
Definition sameSegment (segment : Segment) : NamedSegment :=
  {| ns_start := seg_start segment;
     ns_end := seg_end segment;
     ns_text := seg_text segment;
     ns_speaker := JS.Str <$> seg_speaker segment |}.

Module SpeakerIdentificationService.

(** [data: { speakerNames: JSON.stringify(speakerMapping),
    speakerIdentified: true, updatedAt }] *)
Definition setSpeakerNames (speakerMapping : JSON.value) (t : Transcript)
  : Transcript :=
  {| tr_content := tr_content t;
     tr_rawTranscript := tr_rawTranscript t;
     tr_speakerCount := tr_speakerCount t;
     tr_confidenceScore := tr_confidenceScore t;
     tr_language := tr_language t;
     tr_speakerNames := Some (JSON_stringify speakerMapping);
     tr_speakerIdentified := true |}.

(** [storeSpeakerMapping] *)
Definition storeSpeakerMapping (recordingId : string)
    (speakerMapping : JSON.value) : M unit :=
  try_catch
    (do prisma.transcript_update recordingId (setSpeakerNames speakerMapping) then
     logger Info ("Speaker mapping stored for recording " +:+ recordingId))%M
    (λ error,
       do logger Error
            ("Failed to store speaker mapping for recording " +:+ recordingId +:+ ":") then
       throw error)%M.

(** [getSpeakerMapping]: [None] is [null]. *)
Definition getSpeakerMapping (recordingId : string) : M (option JSON.value) :=
  try_catch
    (let* transcript := prisma.transcript_findUnique recordingId in
     match transcript ≫= tr_speakerNames with
     | Some speakerNames =>
         if JS.truthy_string speakerNames then
           let* engine := getEngine in
           let* mapping := liftE (JSON_parse engine speakerNames) in
           ret (Some mapping)
         else ret None
     | None => ret None
     end)%M
    (λ error,
       do logger Error
            ("Failed to get speaker mapping for recording " +:+ recordingId +:+ ":") then
       ret None)%M.

(** [!speakerMapping] is false: there is a value and it is truthy. *)
Definition usable (speakerMapping : option JSON.value) : option JSON.value :=
  match speakerMapping with
  | Some v => if JSON.truthy v then Some v else None
  | None => None
  end.

(** [speakerMapping[segment.speaker || ''] || segment.speaker] *)
Definition mappedSpeaker (engine : Engine) (speakerMapping : JSON.value)
    (speaker : option string) : option JS.value :=
  match getProperty engine speakerMapping (JS.or_opt_string speaker "") with
  | Some name => if JS.truthy_value name then Some name else JS.Str <$> speaker
  | None => JS.Str <$> speaker
  end.

(** [applySpeakerNamesToSegments] *)
Definition applySpeakerNamesToSegments (recordingId : string)
    (segs : list Segment) : M (list NamedSegment) :=
  (let* speakerMapping := getSpeakerMapping recordingId in
   match usable speakerMapping with
   | None => ret (sameSegment <$> segs)
   | Some speakerMapping =>
       let* engine := getEngine in
       ret ((λ segment,
               {| ns_start := seg_start segment;
                  ns_end := seg_end segment;
                  ns_text := seg_text segment;
                  ns_speaker :=
                    mappedSpeaker engine speakerMapping (seg_speaker segment) |})
            <$> segs)
   end)%M.

(** [identifySpeakers].  The prompt is a function of the segments and of
    the raw transcript, and so is the reply taken from the environment. *)
Definition identifySpeakers (env : Env) (recordingId : string)
    (segs : list Segment) (rawTranscript : string) : M JSON.value :=
  try_catch
    (do logger Info ("Starting speaker identification for recording " +:+ recordingId) then
     do emit (ChatCompletion recordingId) then
     let* result := liftE (env_chat env segs rawTranscript) in
     match result with
     | Some text =>
         if JS.truthy_string text then
           let* engine := getEngine in
           let* speakerMapping := liftE (JSON_parse engine text) in
           do storeSpeakerMapping recordingId speakerMapping then
           do logger Info
                ("Speaker identification completed for recording " +:+ recordingId +:+ ":") then
           ret speakerMapping
         else throw (Throw "No response from GPT-4.1")
     | None => throw (Throw "No response from GPT-4.1")
     end)%M
    (λ error,
       do logger Error
            ("Speaker identification failed for recording " +:+ recordingId +:+ ":") then
       throw error)%M.

End SpeakerIdentificationService.

(** ** transcriptionService.ts *)

Record TranscriptionResult := mkTranscriptionResult {
  res_text : string;
  res_segments : list Segment;
  res_language : string;
  res_duration : Q;
  res_speakerCount : option Z
}.

(** A segment as [getTranscription] returns it. *)
Record ViewSegment := mkViewSegment {
  vs_start : Q;
  vs_end : Q;
  vs_text : string;
  vs_speaker : option string;
  vs_speakerName : option JS.value
}.

(** The object [getTranscription] returns. *)
Record TranscriptionView := mkTranscriptionView {
  tv_recordingId : string;
  tv_text : string;
  tv_segments : list ViewSegment;
  tv_language : option string;
  tv_speakerCount : Z;
  tv_speakerNames : option JSON.value;
  tv_speakerIdentified : bool;
  tv_confidenceScore : option Q;
  tv_recording : Recording
}.

Module TranscriptionService.

(** [new Set(segments.map(s => s.speaker).filter(Boolean))] *)
Definition speakerSet (segs : list Segment) : gset string :=
  list_to_set
    (omap (λ s, match seg_speaker s with
                | Some t => if JS.truthy_string t then Some t else None
                | None => None
                end) segs).

(** [data: { status }] *)
Definition setStatus (status : string) (r : Recording) : Recording :=
  {| rec_filename := rec_filename r;
     rec_originalFilename := rec_originalFilename r;
     rec_duration := rec_duration r;
     rec_status := status |}.

(** [data: { duration }] *)
Definition setDuration (duration : Q) (r : Recording) : Recording :=
  {| rec_filename := rec_filename r;
     rec_originalFilename := rec_originalFilename r;
     rec_duration := Some duration;
     rec_status := rec_status r |}.

(** [updateRecordingStatus] *)
Definition updateRecordingStatus (recordingId status : string) : M unit :=
  try_catch
    (do prisma.recording_update recordingId (setStatus status) then
     logger Info ("Updated recording " +:+ recordingId +:+ " status to " +:+ status))%M
    (λ error,
       do logger Error
            ("Failed to update recording status for " +:+ recordingId +:+ ":") then
       throw error)%M.

(** [getAudioDuration]: a failed probe resolves to 0. *)
Definition getAudioDuration (env : Env) (filePath : string) : M Q :=
  match env_ffprobe env filePath with
  | None => (do logger Error "Error getting audio duration:" then ret 0%Q)%M
  | Some duration => ret (JS.or_opt_num duration 0)
  end.

(** The logger calls of [parseAssemblyAISegmentsWithSpeakers]. *)
Definition parseLog (t : ProviderTranscript) : M unit :=
  (do logger Info "Parsing AssemblyAI segments:" then
   match pt_utterances t with
   | Some _ =>
       do logger Info "Using utterances for segments" then
       logger Info "Created ${segments.length} segments from utterances, first segment:"
   | None => ret tt
   end)%M.

(** [`${transcript.error}`] *)
Definition template (o : option string) : string :=
  match o with
  | Some s => s
  | None => "undefined"
  end.

(** [transcribeDirectly] *)
Definition transcribeDirectly (env : Env) (filePath : string)
  : M TranscriptionResult :=
  try_catch
    (do logger Info "Sending file to AssemblyAI API..." then
     let* transcript := liftE (env_transcribe env filePath) in
     match pt_status transcript with
     | StatusError =>
         throw (Throw ("AssemblyAI transcription failed: "
                       +:+ template (pt_error transcript)))
     | StatusCompleted =>
         let* duration := getAudioDuration env filePath in
         do parseLog transcript then
         let segs := parseAssemblyAISegmentsWithSpeakers transcript in
         let speakerCount := Z.of_nat (size (speakerSet segs)) in
         ret {| res_text := JS.or_opt_string (pt_text transcript) "";
                res_segments := segs;
                res_language := JS.or_opt_string (pt_language_code transcript) "unknown";
                res_duration := JS.or_opt_num (pt_audio_duration transcript) duration;
                res_speakerCount := Some speakerCount |}
     end)%M
    (λ error,
       do logger Error "AssemblyAI transcription failed:" then
       throw (Throw ("Transcription failed: " +:+ message error)))%M.

(** [result.speakerCount || 1] *)
Definition speakerCountOr1 (c : option Z) : Z :=
  match c with
  | Some n => if (n =? 0)%Z then 1%Z else n
  | None => 1%Z
  end.

(** The [data] of [prisma.transcript.create]. *)
Definition newTranscript (result : TranscriptionResult) : Transcript :=
  {| tr_content := res_segments result;
     tr_rawTranscript := res_text result;
     tr_speakerCount := speakerCountOr1 (res_speakerCount result);
     tr_confidenceScore := None;
     tr_language := Some (res_language result);
     tr_speakerNames := None;
     tr_speakerIdentified := false |}.

(** [storeTranscription] *)
Definition storeTranscription (recordingId : string) (result : TranscriptionResult)
  : M unit :=
  try_catch
    (do prisma.transcript_create recordingId (newTranscript result) then
     do (if negb (Qle_bool (res_duration result) 0) then
           prisma.recording_update recordingId (setDuration (res_duration result))
         else ret tt) then
     logger Info ("Transcription stored for recording " +:+ recordingId))%M
    (λ error,
       do logger Error
            ("Failed to store transcription for recording " +:+ recordingId +:+ ":") then
       throw error)%M.

(** The guard of the resolver call:
    [this.speakerIdentificationService && speakerCount && speakerCount > 1] *)
Definition wantsIdentification (env : Env) (result : TranscriptionResult) : bool :=
  env_speakerIdentificationService env
  && match res_speakerCount result with
     | Some n => negb (n =? 0)%Z && (1 <? n)%Z
     | None => false
     end.

(** The line that reports the size of the file. *)
Definition fileSizeLine : string :=
  "File size: ${fileSize} bytes (${(fileSize / 1024 / 1024).toFixed(2)} MB)".

(** The guarded resolver call of [transcribeAudio], with its own
    [try]/[catch]. *)
Definition identificationStep (env : Env) (recordingId : string)
    (transcriptionResult : TranscriptionResult) : M unit :=
  if wantsIdentification env transcriptionResult then
    try_catch
      (do logger Info ("Identifying speakers for recording " +:+ recordingId +:+ "...") then
       let* _ := SpeakerIdentificationService.identifySpeakers env recordingId
                   (res_segments transcriptionResult)
                   (res_text transcriptionResult) in
       logger Info ("Speaker identification completed for recording " +:+ recordingId))%M
      (λ error,
         logger Warn
           ("Speaker identification failed for recording " +:+ recordingId +:+ ":"))
  else ret tt.

(** [transcribeAudio] *)
Definition transcribeAudio (env : Env) (recordingId filePath : string)
  : M TranscriptionResult :=
  try_catch
    (do logger Info ("Starting transcription for recording " +:+ recordingId) then
     do updateRecordingStatus recordingId "TRANSCRIBING" then
     let* fileSize := liftE (env_statSync env filePath) in
     do logger Info fileSizeLine then
     let* transcriptionResult := transcribeDirectly env filePath in
     do storeTranscription recordingId transcriptionResult then
     do identificationStep env recordingId transcriptionResult then
     do updateRecordingStatus recordingId "COMPLETED" then
     do logger Info ("Transcription completed for recording " +:+ recordingId) then
     ret transcriptionResult)%M
    (λ error,
       do logger Error ("Transcription failed for recording " +:+ recordingId +:+ ":") then
       do updateRecordingStatus recordingId "FAILED" then
       throw error)%M.

(** The callback of [segments.map] in [getTranscription]:
    [{...segment, speakerName: segment.speaker && speakerNames[segment.speaker]
        ? speakerNames[segment.speaker] : segment.speaker}] *)
Definition withSpeakerName (engine : Engine) (speakerNames : JSON.value)
    (segment : Segment) : ViewSegment :=
  let name := seg_speaker segment ≫= getProperty engine speakerNames in
  {| vs_start := seg_start segment;
     vs_end := seg_end segment;
     vs_text := seg_text segment;
     vs_speaker := seg_speaker segment;
     vs_speakerName :=
       if JS.truthy (seg_speaker segment)
          && match name with Some x => JS.truthy_value x | None => false end
       then name
       else JS.Str <$> seg_speaker segment |}.

(** A stored segment returned as it is: no [speakerName] property. *)
Definition plainSegment (segment : Segment) : ViewSegment :=
  {| vs_start := seg_start segment;
     vs_end := seg_end segment;
     vs_text := seg_text segment;
     vs_speaker := seg_speaker segment;
     vs_speakerName := None |}.

Definition type_error : Exception :=
  Throw "Cannot read properties of null (reading 'id')".

(** [getTranscription]: [ret None] is [return null]. *)
Definition getTranscription (recordingId : string) : M (option TranscriptionView) :=
  try_catch
    (let* found := prisma.transcript_findUnique_include recordingId in
     match found with
     | None => ret None
     | Some (transcript, recording) =>
         let segs := tr_content transcript in
         let* engine := getEngine in
         let* speakerNames :=
           match tr_speakerNames transcript with
           | Some text =>
               if JS.truthy_string text then
                 match JSON_parse engine text with
                 | inr names =>
                     do logger Info
                          ("Speaker names found for recording " +:+ recordingId +:+ ":") then
                     ret (Some names)
                 | inl _ =>
                     do logger Warn
                          ("Failed to parse speaker names for recording "
                           +:+ recordingId +:+ ":") then
                     ret None
                 end
               else ret None
           | None => ret None
           end in
         let* view :=
           match SpeakerIdentificationService.usable speakerNames with
           | Some names =>
               if (0 <? length segs)%nat then
                 do logger Info "Applying speaker names to segments" then
                 ret (withSpeakerName engine names <$> segs)
               else ret (plainSegment <$> segs)
           | None => ret (plainSegment <$> segs)
           end in
         do logger Info ("Segments for recording " +:+ recordingId +:+ ":") then
         match recording with
         | None => throw type_error
         | Some recording =>
             ret (Some {| tv_recordingId := recordingId;
                          tv_text := tr_rawTranscript transcript;
                          tv_segments := view;
                          tv_language := tr_language transcript;
                          tv_speakerCount := tr_speakerCount transcript;
                          tv_speakerNames := speakerNames;
                          tv_speakerIdentified := tr_speakerIdentified transcript;
                          tv_confidenceScore := tr_confidenceScore transcript;
                          tv_recording := recording |})
         end
     end)%M
    (λ error,
       do logger Error
            ("Failed to get transcription for recording " +:+ recordingId +:+ ":") then
       throw error)%M.

End TranscriptionService.


(** * The rest of the two services, and their routes *)

(** ** More of JavaScript

    [formatTimestamp] below computes on exact rationals and prints
    integers in plain decimal.  The code computes on doubles: the two agree
    for a time below 2^53 (the quotient by 60 rounds to the same side of
    every integer, the remainder and the floor are exact, and an integer
    below 2^53 is printed in plain decimal), and not beyond. *)

Module JSText.

(** [String(n)] of an integer, in decimal (JavaScript switches to the
    exponent form from 10^21 on, which is outside the model). *)
Definition toString (n : Z) : string := pretty n.

(** [s.padStart(n, c)] for a filler of one code unit. *)
Definition padStart (n : nat) (c : ascii) (s : string) : string :=
  Nat.iter (n - String.length s) (String c) s.

(** [s.slice(0, n)] *)
Fixpoint slice (n : nat) (s : string) : string :=
  match n, s with
  | S n', String c s' => String c (slice n' s')
  | _, _ => EmptyString
  end.

(** [String.fromCharCode(n)] for a code below 256. *)
Definition fromCharCode (n : nat) : string := String (ascii_of_nat n) EmptyString.

(** The line feed. *)
Definition nl : string := String (ascii_of_nat 10) EmptyString.

(** [a.join(sep)] *)
Fixpoint join (sep : string) (l : list string) : string :=
  match l with
  | [] => EmptyString
  | [x] => x
  | x :: l' => x +:+ sep +:+ join sep l'
  end.

(** The integer part of a number, towards zero. *)
Definition trunc (x : Q) : Z :=
  if Qle_bool 0 x then Qfloor x else Qceiling x.

(** [a % b]: the remainder has the sign of [a]. *)
Definition rem (a b : Q) : Q := (a - b * inject_Z (trunc (a / b)))%Q.

End JSText.

(** [error.code === 'P2025']: the model's errors carry no code, and the
    only error of this code it raises is [prisma.not_found]. *)
Global Instance Exception_eq_dec : EqDecision Exception.
Proof. solve_decision. Defined.

Definition isP2025 (e : Exception) : bool := bool_decide (e = prisma.not_found).

(** [prisma.transcript.delete({ where: { recordingId } })] *)
Definition prisma_transcript_delete (recordingId : string) : M unit :=
  (let* d := getDb in
   match transcripts d !! recordingId with
   | Some _ =>
       putDb {| recordings := recordings d;
                transcripts := delete recordingId (transcripts d) |}
   | None => throw prisma.not_found
   end)%M.

(** ** speakerIdentificationService.ts, continued *)

Module SpeakerPrompt.

(** [formatTimestamp] *)
Definition formatTimestamp (seconds : Q) : string :=
  let minutes := Qfloor (seconds / 60) in
  let remainingSeconds := Qfloor (JSText.rem seconds 60) in
  JSText.toString minutes +:+ ":"
  +:+ JSText.padStart 2 "0" (JSText.toString remainingSeconds).

(** The callback of [map] in [prepareSpeakerSegments]. *)
Definition speakerLine (index : nat) (segment : Segment) : string :=
  let speaker :=
    JS.or_opt_string (seg_speaker segment)
      ("Speaker " +:+ JSText.fromCharCode (65 + index mod 10)) in
  let timeStamp := formatTimestamp (seg_start segment) in
  "[" +:+ timeStamp +:+ "] " +:+ speaker +:+ ": " +:+ seg_text segment.

(** [prepareSpeakerSegments] *)
Definition prepareSpeakerSegments (segs : list Segment) : string :=
  JSText.join JSText.nl (imap speakerLine (take 50 segs)).

(** The double quote, for the lines of the template that hold one. *)
Definition q : string := String JSON.dquote EmptyString.

(** The lines of the template before the segment sample. *)
Definition promptHead : list string :=
  ["";
   "Analyze this meeting transcript and identify the real names of the speakers. Look for:";
   "";
   "1. Direct name mentions (when people introduce themselves or others)";
   "2. Context clues about roles, companies, or titles";
   "3. Speaking patterns and conversation flow";
   "4. Email signatures or contact information mentioned";
   "";
   "Here's the transcript with speaker labels:";
   ""].

(** The lines between the sample and the excerpt of the transcript. *)
Definition promptMiddle : list string :=
  ["";
   "Additional context from full transcript:"].

(** The lines after the excerpt. *)
Definition promptTail : list string :=
  ["";
   "Please return a JSON object mapping speaker labels to real names. Use this format:";
   "{";
   "  " +:+ q +:+ "Speaker A" +:+ q +:+ ": " +:+ q +:+ "John Smith" +:+ q +:+ ",";
   "  " +:+ q +:+ "Speaker B" +:+ q +:+ ": " +:+ q +:+ "Jane Doe" +:+ q +:+ ",";
   "  " +:+ q +:+ "Speaker C" +:+ q +:+ ": " +:+ q +:+ "Mike Johnson" +:+ q;
   "}";
   "";
   "Guidelines:";
   "- Use full names when available (e.g., " +:+ q +:+ "John Smith" +:+ q +:+ " not " +:+ q +:+ "John" +:+ q +:+ ")";
   "- If a name isn't clearly mentioned, use a descriptive identifier (e.g., " +:+ q +:+ "Burberry Representative" +:+ q +:+ ", " +:+ q +:+ "Ship Code Demo Lead" +:+ q +:+ ")";
   "- Be consistent with speaker labels throughout";
   "- If uncertain about a name, use role/company instead (e.g., " +:+ q +:+ "Burberry Product Manager" +:+ q +:+ ")";
   "- Return only the JSON object, no additional text";
   "";
   "JSON Response:"].

(** [createSpeakerIdentificationPrompt] *)
Definition createSpeakerIdentificationPrompt (speakerSegments rawTranscript : string)
  : string :=
  JSText.join JSText.nl
    (promptHead ++ [speakerSegments] ++ promptMiddle
     ++ [JSText.slice 2000 rawTranscript +:+ "..."] ++ promptTail).

(** The content of the user message that [identifySpeakers] sends. *)
Definition identificationPrompt (segs : list Segment) (rawTranscript : string)
  : string :=
  createSpeakerIdentificationPrompt (prepareSpeakerSegments segs) rawTranscript.

End SpeakerPrompt.

(** The constructor of [SpeakerIdentificationService]: it needs the key of
    the language model. *)
Definition newSpeakerIdentificationService (env : Env) : M unit :=
  if env_speakerIdentificationService env then ret tt
  else throw (Throw "OPENAI_API_KEY environment variable is required for speaker identification").

(** [reIdentifySpeakers] *)
Definition reIdentifySpeakers (env : Env) (recordingId : string)
  : M JSON.value :=
  try_catch
    (let* transcript := prisma.transcript_findUnique recordingId in
     match transcript with
     | None => throw (Throw "Transcript not found")
     | Some t =>
         SpeakerIdentificationService.identifySpeakers env recordingId
           (tr_content t) (tr_rawTranscript t)
     end)%M
    (λ error,
       do logger Error
            ("Failed to re-identify speakers for recording " +:+ recordingId +:+ ":") then
       throw error)%M.

(** ** transcriptionService.ts, continued *)

(** The constructor of [TranscriptionService]: it needs the key of the
    transcription provider, and does without the speaker identification
    service when that one cannot be built. *)
Definition newTranscriptionService (assemblyaiKey : bool) (env : Env) : M unit :=
  if assemblyaiKey then
    try_catch (newSpeakerIdentificationService env)
      (λ error,
         logger Warn "Speaker identification disabled: OpenAI API key not configured")
  else throw (Throw "ASSEMBLYAI_API_KEY environment variable is required").

(** [deleteTranscription] *)
Definition deleteTranscription (recordingId : string) : M bool :=
  try_catch
    (do prisma_transcript_delete recordingId then
     do logger Info ("Transcription deleted for recording " +:+ recordingId) then
     ret true)%M
    (λ error,
       if isP2025 error then ret false
       else
         (do logger Error
               ("Failed to delete transcription for recording " +:+ recordingId +:+ ":") then
          throw error)%M).

(** ** The routes of the transcriptions *)

Module Routes.

(** The JSON bodies the handlers send. *)
Inductive Body :=
  | ErrorBody (error : string) (details : option string)
  | TranscriptionBody (transcription : TranscriptionView)
  | DeletedBody (message recordingId : string)
  | IdentifiedBody (message recordingId : string) (speakerMapping : JSON.value)
  | MappingBody (recordingId : string) (speakerMapping : JSON.value).

(** A response: [res.status(code).json(body)]; [res.json(body)] is 200. *)
Record Response := mkResponse {
  status : nat;
  body : Body
}.

(** [router.get('/:recordingId')] *)
Definition getTranscriptionRoute (assemblyaiKey : bool) (env : Env)
    (recordingId : string) : M Response :=
  try_catch
    (if JS.truthy_string recordingId then
       do newTranscriptionService assemblyaiKey env then
       let* transcription := TranscriptionService.getTranscription recordingId in
       match transcription with
       | None => ret (mkResponse 404 (ErrorBody "Transcription not found" None))
       | Some t => ret (mkResponse 200 (TranscriptionBody t))
       end
     else ret (mkResponse 400 (ErrorBody "Recording ID is required" None)))%M
    (λ error,
       do logger Error "Error getting transcription:" then
       ret (mkResponse 500
              (ErrorBody "Failed to retrieve transcription" (Some (message error)))))%M.

(** [router.delete('/:recordingId')] *)
Definition deleteTranscriptionRoute (assemblyaiKey : bool) (env : Env)
    (recordingId : string) : M Response :=
  try_catch
    (if JS.truthy_string recordingId then
       do newTranscriptionService assemblyaiKey env then
       let* deleted := deleteTranscription recordingId in
       if deleted : bool then
         ret (mkResponse 200
                (DeletedBody "Transcription deleted successfully" recordingId))
       else ret (mkResponse 404 (ErrorBody "Transcription not found" None))
     else ret (mkResponse 400 (ErrorBody "Recording ID is required" None)))%M
    (λ error,
       do logger Error "Error deleting transcription:" then
       ret (mkResponse 500
              (ErrorBody "Failed to delete transcription" (Some (message error)))))%M.

(** [router.post('/:recordingId/identify-speakers')] *)
Definition identifySpeakersRoute (env : Env) (recordingId : string) : M Response :=
  try_catch
    (if JS.truthy_string recordingId then
       do logger Info ("Starting speaker identification for recording: " +:+ recordingId) then
       do newSpeakerIdentificationService env then
       let* speakerMapping := reIdentifySpeakers env recordingId in
       ret (mkResponse 200
              (IdentifiedBody "Speaker identification completed" recordingId
                 speakerMapping))
     else ret (mkResponse 400 (ErrorBody "Recording ID is required" None)))%M
    (λ error,
       do logger Error "Error identifying speakers:" then
       ret (mkResponse 500
              (ErrorBody "Failed to identify speakers" (Some (message error)))))%M.

(** [router.get('/:recordingId/speakers')] *)
Definition speakerMappingRoute (env : Env) (recordingId : string) : M Response :=
  try_catch
    (if JS.truthy_string recordingId then
       do newSpeakerIdentificationService env then
       let* speakerMapping :=
         SpeakerIdentificationService.getSpeakerMapping recordingId in
       match SpeakerIdentificationService.usable speakerMapping with
       | None => ret (mkResponse 404 (ErrorBody "Speaker mapping not found" None))
       | Some m => ret (mkResponse 200 (MappingBody recordingId m))
       end
     else ret (mkResponse 400 (ErrorBody "Recording ID is required" None)))%M
    (λ error,
       do logger Error "Error getting speaker mapping:" then
       ret (mkResponse 500
              (ErrorBody "Failed to retrieve speaker mapping" (Some (message error)))))%M.

End Routes.
(** * Vocabulary of the statements *)

Import SpeakerIdentificationService TranscriptionService.

(** The text the loop accumulates for a run of words: every word followed
    by one space. *)
Definition wordsText (ws : list Word) : string :=
  foldr (λ w acc, (word_text w +:+ " ") +:+ acc)%string ""%string ws.

(** [ceil (a / b)] *)
Definition ceilDiv (a b : nat) : nat := ((a + b - 1) / b)%nat.

(** No word's inferred speaker differs from the previous word's. *)
Definition sameSpeakerThroughout (ws : list Word) : Prop :=
  ∀ (i : nat) (w w' : Word), ws !! i = Some w → ws !! S i = Some w' →
    speakerTag (word_speaker w') = speakerTag (word_speaker w).

(** No word's text ends in a full stop, an exclamation mark or a question
    mark. *)
Definition noSentenceEnd (ws : list Word) : Prop :=
  Forall (λ w, JS.ends_sentence (word_text w) = false) ws.

(** The shape of the split that the 50-word test produces when nothing
    else ends a segment: a first chunk of 51 words, then chunks of 50, then
    the words of the segment in progress. *)
Definition chunkShape (chunks : list (list Word)) (open : list Word) : Prop :=
  match chunks with
  | [] => length open ≤ 50
  | c0 :: rest =>
      length c0 = 51 ∧ Forall (λ c, length c = 50) rest ∧ length open ≤ 49
  end.

(** A segment made of a chunk of words: its text and its speaker. *)
Definition chunkSegment (tag : option string) (c : list Word) (s : Segment) : Prop :=
  seg_text s = JS.trim (wordsText c) ∧ seg_speaker s = tag.

(** What the chunking argument keeps true of the loop after [k] words. *)
Definition uniformInv (ws : list Word) (tag : option string)
    (k : nat) (st : LoopState) : Prop :=
  ∃ (chunks : list (list Word)) (open : list Word),
    take k ws = concat chunks ++ open ∧
    Forall2 (chunkSegment tag) chunks (segments st) ∧
    currentSegment st = wordsText open ∧
    (0 < k → currentSpeaker st = tag) ∧
    chunkShape chunks open.


(** A list is ordered by a time stamp when the stamps never decrease along
    the list. *)
Definition orderedBy {A : Type} (f : A → Q) (l : list A) : Prop :=
  ∀ (i j : nat) (a b : A), i ≤ j → l !! i = Some a → l !! j = Some b →
    (f a <= f b)%Q.

(** The array the normaliser reads is not empty, or there is none. *)
Definition inputNonEmpty (t : ProviderTranscript) : Prop :=
  match pt_utterances t, pt_words t with
  | Some us, _ => us ≠ []
  | None, Some ws => ws ≠ []
  | None, None => True
  end.

(** The array the normaliser reads is ordered by start time. *)
Definition inputOrdered (t : ProviderTranscript) : Prop :=
  match pt_utterances t, pt_words t with
  | Some us, _ => orderedBy utt_start us
  | None, Some ws => orderedBy word_start ws
  | None, None => True
  end.

(** What the ordering argument keeps true of the loop after [k] words. *)
Definition orderInv (ws : list Word) (k : nat) (st : LoopState) : Prop :=
  orderedBy seg_start (segments st) ∧
  Forall (λ s, (seg_start s <= segmentStart st)%Q) (segments st) ∧
  (k = 0 → segments st = []) ∧
  (0 < k → ∀ w : Word, ws !! k = Some w →
     (segmentStart st <= ms_to_s (word_start w))%Q).

(** ** Inputs of the scenarios *)

(** [n] words without punctuation, all by speaker [id], 100 ms apart. *)
Definition scenarioWords (id : string) (n : nat) : list Word :=
  (λ i, {| word_start := inject_Z (100 * Z.of_nat i);
           word_end := inject_Z (100 * Z.of_nat i + 90);
           word_text := "word";
           word_speaker := Some id |}) <$> seq 0 n.

(** A response with word-level data only. *)
Definition wordsOnly (ws : list Word) : ProviderTranscript :=
  {| pt_status := StatusCompleted;
     pt_error := None;
     pt_text := Some (JS.trim (wordsText ws));
     pt_language_code := Some "en"%string;
     pt_audio_duration := None;
     pt_utterances := None;
     pt_words := Some ws |}.

(** A response with utterances. *)
Definition utterancesOnly (text : string) (us : list Utterance) : ProviderTranscript :=
  {| pt_status := StatusCompleted;
     pt_error := None;
     pt_text := Some text;
     pt_language_code := Some "en"%string;
     pt_audio_duration := None;
     pt_utterances := Some us;
     pt_words := None |}.

(** A word and an utterance by a speaker, with their times. *)
Definition spoken (text id : string) (from to : Z) : Word :=
  {| word_start := inject_Z from; word_end := inject_Z to;
     word_text := text; word_speaker := Some id |}.

Definition uttered (text id : string) (from to : Z) : Utterance :=
  {| utt_start := inject_Z from; utt_end := inject_Z to;
     utt_text := text; utt_speaker := Some id |}.

(** ** Reading a mapping back *)

(** What the parser does with one member: a later key overrides. *)
Definition insertMember (acc : gmap string string) (kv : string * string)
  : gmap string string := <[kv.1 := kv.2]> acc.

(** ** The stored mapping and the worlds of the scenarios *)

(** The value a text parses to, if it parses. *)
Definition parsed (engine : Engine) (text : string) : option JSON.value :=
  match JSON_parse engine text with
  | inr v => Some v
  | inl _ => None
  end.

(** The value stored as the speaker names of a recording, as far as it can
    be read: none when there is no transcript, when the column is null or
    empty, or when its text does not parse. *)
Definition storedMapping (w : World) (recordingId : string)
  : option JSON.value :=
  text ← transcripts (db w) !! recordingId ≫= tr_speakerNames;
  if JS.truthy_string text then parsed (engine w) text else None.

(** ** The engine of the scenarios *)

(** The names a plain object inherits from [Object.prototype]; what it
    inherits under each of them is truthy: a function, and the prototype
    itself under [__proto__]. *)
Definition inheritedNames : list string :=
  ["constructor"; "hasOwnProperty"; "isPrototypeOf"; "propertyIsEnumerable";
   "toLocaleString"; "toString"; "valueOf"; "__proto__"; "__defineGetter__";
   "__defineSetter__"; "__lookupGetter__"; "__lookupSetter__"]%string.

Definition scenarioInherited (key : string) : option JS.value :=
  if bool_decide (key ∈ inheritedNames)
  then Some (JS.Opaque ("Object.prototype." +:+ key) true)
  else None.

(** The value [null]. *)
Definition nullValue : JSON.other :=
  {| JSON.other_truthy := false; JSON.other_text := "null";
     JSON.other_get := λ _, None |}.

(** A reply that names one speaker and leaves the other [null]:
    [{"Speaker A":"Jane Doe","Speaker B":null}], and the object it
    denotes. *)
Definition janeAndNullText : string :=
  "{" +:+ JSON.quote "Speaker A" +:+ ":" +:+ JSON.quote "Jane Doe" +:+ ","
  +:+ JSON.quote "Speaker B" +:+ ":null}".

Definition janeAndNull : JSON.other :=
  {| JSON.other_truthy := true;
     JSON.other_text := janeAndNullText;
     JSON.other_get := λ key,
       if bool_decide (key = "Speaker A"%string) then Some (JS.Str "Jane Doe")
       else if bool_decide (key = "Speaker B"%string) then Some (JS.Opaque "null" false)
       else scenarioInherited key |}.

(** An engine that does with the texts of the scenarios what Node does:
    it parses [null] and the reply above, and throws a [SyntaxError] on the
    other texts of the scenarios, none of which is JSON.  The message of
    that error differs between versions of Node; no scenario looks at
    it. *)
Definition scenarioEngine : Engine :=
  {| engine_parse := λ text,
       if bool_decide (text = "null"%string) then inr nullValue
       else if bool_decide (text = janeAndNullText) then inr janeAndNull
       else inl (Throw "SyntaxError");
     engine_inherited := scenarioInherited |}.

(** The recording of the scenarios. *)
Definition scenarioRecording : Recording :=
  {| rec_filename := "call.mp3"; rec_originalFilename := "call.mp3";
     rec_duration := None; rec_status := "PROCESSING" |}.

(** A transcript of two speakers with the given segments and mapping. *)
Definition scenarioTranscript (segs : list Segment) (names : option string)
  : Transcript :=
  {| tr_content := segs; tr_rawTranscript := "hi hello"; tr_speakerCount := 2;
     tr_confidenceScore := None; tr_language := Some "en"%string;
     tr_speakerNames := names; tr_speakerIdentified := bool_decide (is_Some names) |}.

(** A world with one recording ["r1"] and, for it, a transcript. *)
Definition scenarioWorld (segs : list Segment) (names : option string) : World :=
  {| db := {| recordings := {[ "r1"%string := scenarioRecording ]};
              transcripts := {[ "r1"%string := scenarioTranscript segs names ]} |};
     trace := [];
     engine := scenarioEngine |}.

(** The mapping and the segments of the overlay scenario. *)
Definition janeDoe : gmap string string := {[ "Speaker A"%string := "Jane Doe"%string ]}.

Definition twoSpeakers : list Segment :=
  [{| seg_start := 0; seg_end := 2; seg_text := "hi";
      seg_speaker := Some "Speaker A"%string |};
   {| seg_start := 2; seg_end := 4; seg_text := "hello";
      seg_speaker := Some "Speaker B"%string |}].

(** ** The run of the orchestrator *)

(** The result carries the number of its distinct speaker tags. *)
Definition counted (result : TranscriptionResult) : Prop :=
  res_speakerCount result =
    Some (Z.of_nat (size (speakerSet (res_segments result)))).

(** The value the language model's reply denotes for a result: none when
    the request throws, when the reply is absent or empty, or when its text
    does not parse. *)
Definition chatReply (engine : Engine) (env : Env) (result : TranscriptionResult)
  : option JSON.value :=
  match env_chat env (res_segments result) (res_text result) with
  | inr (Some text) => if JS.truthy_string text then parsed engine text else None
  | _ => None
  end.

(** The world [w] with a new database and more events. *)
Definition extend (w : World) (d : Db) (evs : list Event) : World :=
  {| db := d; trace := trace w ++ evs; engine := engine w |}.

(** The line logged when the resolver fails inside a run. *)
Definition resolverWarning (recordingId : string) : Event :=
  Log Warn ("Speaker identification failed for recording " +:+ recordingId +:+ ":").

(** What a run needs to reach its end: the recording exists, it has no
    transcript yet, the file can be read and the provider completes. *)
Definition runnable (env : Env) (recordingId filePath : string) (w : World) : Prop :=
  is_Some (recordings (db w) !! recordingId) ∧
  transcripts (db w) !! recordingId = None ∧
  (∃ size : Q, env_statSync env filePath = inr size) ∧
  ∃ t : ProviderTranscript,
    env_transcribe env filePath = inr t ∧ pt_status t = StatusCompleted.

(** ** Environments of the scenarios *)

(** A readable file, a provider that answers [t], a probe that reports 4
    seconds, and a language model that answers [chat]. *)
Definition scenarioEnv (t : ProviderTranscript) (speakerService : bool)
    (chat : Exception + option string) : Env :=
  {| env_statSync := λ _, inr 1024%Q;
     env_transcribe := λ _, inr t;
     env_ffprobe := λ _, Some (Some 4%Q);
     env_speakerIdentificationService := speakerService;
     env_chat := λ _ _, chat |}.

(** A response with status [error]. *)
Definition failedTranscript : ProviderTranscript :=
  {| pt_status := StatusError;
     pt_error := Some "Audio file could not be decoded"%string;
     pt_text := None; pt_language_code := None; pt_audio_duration := None;
     pt_utterances := None; pt_words := None |}.

(** A response with text only: neither utterances nor words. *)
Definition textOnly (text : string) : ProviderTranscript :=
  {| pt_status := StatusCompleted; pt_error := None;
     pt_text := Some text; pt_language_code := Some "en"%string;
     pt_audio_duration := Some 4%Q;
     pt_utterances := None; pt_words := None |}.

(** A world with the recording ["r1"] and no transcript yet. *)
Definition freshWorld : World :=
  {| db := {| recordings := {[ "r1"%string := scenarioRecording ]};
              transcripts := ∅ |};
     trace := [];
     engine := scenarioEngine |}.

(** The scenario of two utterances by two speakers. *)
Definition twoUtterances : ProviderTranscript :=
  utterancesOnly "hi hello" [uttered "hi" "A" 0 2000; uttered "hello" "B" 2000 4000].

(** ** More vocabulary: the word loop *)

(** The speaker ids of the array the normaliser reads. *)
Definition speakerIds (t : ProviderTranscript) : list string :=
  match pt_utterances t, pt_words t with
  | Some us, _ => omap utt_speaker us
  | None, Some ws => omap word_speaker ws
  | None, None => []
  end.

(** A speaker tag made of one of the ids: the id is not empty and the tag is
    [Speaker] followed by it. *)
Definition tagOf (ids : list string) (tag : string) : Prop :=
  ∃ id : string, id ∈ ids ∧ id ≠ ""%string ∧ tag = ("Speaker " +:+ id)%string.

(** Every word ends no earlier than it starts. *)
Definition wellTimed (ws : list Word) : Prop :=
  Forall (λ w, (word_start w <= word_end w)%Q) ws.

(** A chunk of words of which none but the last ends a sentence. *)
Definition sentenceChunk (c : list Word) : Prop :=
  ∃ (body : list Word) (w : Word), c = body ++ [w] ∧ noSentenceEnd body.

(** The segment the loop closes at word [w] of index [k] from the state
    [st]. *)
Definition closedSegment (st : LoopState) (k : nat) (w : Word) : Segment :=
  let speaker :=
    if (k =? 0)%nat then speakerTag (word_speaker w) else currentSpeaker st in
  {| seg_start := if (k =? 0)%nat then ms_to_s (word_start w) else segmentStart st;
     seg_end := ms_to_s (word_end w);
     seg_text := JS.trim (currentSegment st +:+ (word_text w +:+ " "));
     seg_speaker := if JS.truthy speaker then speaker else None |}.

(** Whether the loop closes a segment at word [w] of index [k]. *)
Definition closesAt (ws : list Word) (st : LoopState) (k : nat) (w : Word) : bool :=
  closesSegment (length ws) k
    (negb (bool_decide
             (speakerTag (word_speaker w) =
              if (k =? 0)%nat then speakerTag (word_speaker w) else currentSpeaker st)))
    w.

(** ** More vocabulary: time stamps *)

(** The decimal digit [d] as a character, and a number below 100 on two
    digits. *)
Definition digit (d : Z) : ascii := ascii_of_nat (48 + Z.to_nat d).

Definition twoDigits (r : Z) : string :=
  String (digit (r / 10)) (String (digit (r mod 10)) EmptyString).

(** ** More vocabulary: what a computation leaves alone *)

(** A computation keeps a relation between the database it starts from and
    the database it ends with, whatever it returns or throws. *)
Definition preserves {A : Type} (R : Db → Db → Prop) (m : M A) : Prop :=
  ∀ (w w' : World) (r : Exception + A), m w = (r, w') → R (db w) (db w').

(** The rows of the other recordings are the same. *)
Definition sameElsewhere (recordingId : string) (d d' : Db) : Prop :=
  ∀ other : string, other ≠ recordingId →
    recordings d' !! other = recordings d !! other ∧
    transcripts d' !! other = transcripts d !! other.

(** The recording is still there. *)
Definition keepsRecording (recordingId : string) (d d' : Db) : Prop :=
  is_Some (recordings d !! recordingId) → is_Some (recordings d' !! recordingId).

(** What a run of the orchestrator for a recording may touch. *)
Definition runFootprint (recordingId : string) (d d' : Db) : Prop :=
  sameElsewhere recordingId d d' ∧ keepsRecording recordingId d d'.

(** What stays of a transcript row when its speaker names are set. *)
Definition transcriptBody (t : Transcript)
  : list Segment * string * Z * option Q * option string :=
  (tr_content t, tr_rawTranscript t, tr_speakerCount t, tr_confidenceScore t,
   tr_language t).

(** What the resolver may touch: the names of the speakers of one
    transcript. *)
Definition namesOnly (recordingId : string) (d d' : Db) : Prop :=
  recordings d' = recordings d ∧
  transcriptBody <$> transcripts d' = transcriptBody <$> transcripts d ∧
  ∀ other : string, other ≠ recordingId →
    transcripts d' !! other = transcripts d !! other.

(** The stored segment behind a returned one. *)
Definition storedSegment (v : ViewSegment) : Segment :=
  {| seg_start := vs_start v; seg_end := vs_end v; seg_text := vs_text v;
     seg_speaker := vs_speaker v |}.

(** The value the reply of the language model denotes for a transcript:
    none when the request throws, when the reply is absent or empty, or when
    its text does not parse. *)
Definition replyValue (engine : Engine) (env : Env) (segs : list Segment)
    (rawTranscript : string) : option JSON.value :=
  match env_chat env segs rawTranscript with
  | inr (Some text) => if JS.truthy_string text then parsed engine text else None
  | _ => None
  end.

(** The line logged when the resolver fails. *)
Definition resolverError (recordingId : string) : Event :=
  Log Error ("Speaker identification failed for recording " +:+ recordingId +:+ ":").

(** The error [identifySpeakers] ends with when it does not return: that of
    the request, that of an absent or empty reply, the one [JSON.parse]
    throws, or that of the update of a transcript that is not there. *)
Definition resolverFailure (engine : Engine) (env : Env) (segs : list Segment)
    (rawTranscript : string) : Exception :=
  match env_chat env segs rawTranscript with
  | inl e => e
  | inr None => Throw "No response from GPT-4.1"
  | inr (Some text) =>
      if JS.truthy_string text then
        match JSON_parse engine text with
        | inr _ => prisma.not_found
        | inl e => e
        end
      else Throw "No response from GPT-4.1"
  end.

Import SpeakerPrompt Routes.

(** The duration the probe reports for a file: 0 when the probe fails or
    reports none. *)
Definition probedDuration (env : Env) (filePath : string) : Q :=
  match env_ffprobe env filePath with
  | Some duration => JS.or_opt_num duration 0
  | None => 0
  end.

(** The recording a run that returns leaves behind. *)
Definition completedRecording (duration : Q) (r : Recording) : Recording :=
  {| rec_filename := rec_filename r;
     rec_originalFilename := rec_originalFilename r;
     rec_duration := if Qle_bool duration 0 then rec_duration r else Some duration;
     rec_status := "COMPLETED" |}.
(** * Properties *)

(** ** The utterance branch *)

Lemma or_string_empty (s : string) : JS.or_string s "" = s.
Proof. by destruct s. Qed.

Lemma parse_utterances (t : ProviderTranscript) (us : list Utterance) :
  pt_utterances t = Some us →
  parseAssemblyAISegmentsWithSpeakers t = utteranceToSegment <$> us.
Proof. intros H. unfold parseAssemblyAISegmentsWithSpeakers. by rewrite H. Qed.

(** C1. When the response has an [utterances] array, the normaliser returns
    one segment per utterance, in the same order: the segment at position
    [i] has the start and the end of utterance [i] divided by 1000 and its
    text; its speaker is ["Speaker "] followed by the utterance's speaker id
    when there is one (a non-empty id, as the code tests it), and is absent
    otherwise. *)
Theorem utterances_map_to_segments
    (t : ProviderTranscript) (us : list Utterance) :
  pt_utterances t = Some us →
  length (parseAssemblyAISegmentsWithSpeakers t) = length us ∧
  ∀ (i : nat) (u : Utterance), us !! i = Some u →
    ∃ s : Segment,
      parseAssemblyAISegmentsWithSpeakers t !! i = Some s ∧
      seg_start s = (utt_start u / 1000)%Q ∧
      seg_end s = (utt_end u / 1000)%Q ∧
      seg_text s = utt_text u ∧
      (∀ id : string, utt_speaker u = Some id → id ≠ ""%string →
         seg_speaker s = Some ("Speaker " +:+ id)%string) ∧
      (JS.truthy (utt_speaker u) = false → seg_speaker s = None).
Proof.
  intros Hus. rewrite (parse_utterances _ _ Hus). split.
  - by rewrite length_fmap.
  - intros i u Hi. exists (utteranceToSegment u). split.
    + by rewrite list_lookup_fmap, Hi.
    + cbn. repeat split; try done.
      * apply or_string_empty.
      * intros id -> Hne. cbn. by destruct id.
      * unfold speakerTag. destruct (utt_speaker u) as [id|]; cbn; [|done].
        by intros ->.
Qed.

(** The scenario of two utterances by two speakers. *)
Lemma utterances_map_to_segments_witness :
  let t := mkProviderTranscript StatusCompleted None (Some "hi hello"%string)
             None None
             (Some [mkUtterance 0 2000 "hi" (Some "A"%string);
                    mkUtterance 2000 4000 "hello" (Some "B"%string)]) None in
  length (parseAssemblyAISegmentsWithSpeakers t) = 2%nat.
Proof.
  intros t.
  exact (proj1 (utterances_map_to_segments t _ eq_refl)).
Defined.

(** ** The word loop *)

Lemma append_cons (x : ascii) (a b : string) :
  (String x a +:+ b = String x (a +:+ b))%string.
Proof. reflexivity. Qed.

Lemma append_assoc (a b c : string) : ((a +:+ b) +:+ c = a +:+ (b +:+ c))%string.
Proof. induction a as [|x a IH]; [done|]. by rewrite !append_cons, IH. Qed.

Lemma append_nil_r (a : string) : (a +:+ "")%string = a.
Proof. induction a as [|x a IH]; [done|]. by rewrite append_cons, IH. Qed.

Lemma wordsText_snoc (ws : list Word) (w : Word) :
  wordsText (ws ++ [w]) = (wordsText ws +:+ (word_text w +:+ " "))%string.
Proof.
  induction ws as [|x ws IH]; cbn [wordsText foldr app].
  - by rewrite append_nil_r.
  - fold (wordsText (ws ++ [w])). fold (wordsText ws).
    by rewrite IH, !append_assoc.
Qed.

Lemma loopUpTo_S (ws : list Word) (k : nat) :
  loopUpTo ws (S k) = loopBody ws (loopUpTo ws k) k.
Proof. unfold loopUpTo. by rewrite seq_S, foldl_snoc. Qed.

Lemma truthy_speakerTag (o : option string) :
  (if JS.truthy (speakerTag o) then speakerTag o else None) = speakerTag o.
Proof. destruct o as [[|c s]|]; done. Qed.

Lemma sameSpeaker_all (ws : list Word) (w0 : Word) :
  sameSpeakerThroughout ws → ws !! 0%nat = Some w0 →
  ∀ (i : nat) (w : Word), ws !! i = Some w →
    speakerTag (word_speaker w) = speakerTag (word_speaker w0).
Proof.
  intros Hs H0 i. induction i as [|i IH]; intros w Hw.
  - congruence.
  - destruct (ws !! i) as [w'|] eqn:Hi.
    + rewrite (Hs i w' w Hi Hw). by apply IH.
    + apply lookup_ge_None in Hi. apply lookup_lt_Some in Hw. lia.
Qed.

Lemma length_concat_50 (rest : list (list Word)) :
  Forall (λ c, length c = 50) rest → length (concat rest) = 50 * length rest.
Proof.
  induction 1 as [|c rest Hc _ IH]; [done|].
  cbn [concat]. rewrite length_app, Hc, IH. cbn [length]. lia.
Qed.

Lemma mod50_zero (k : nat) : k mod 50 = 0 ↔ ∃ q, k = 50 * q.
Proof.
  split.
  - intros H. exists (k / 50). pose proof (Nat.div_mod_eq k 50). lia.
  - intros [q ->]. rewrite Nat.mul_comm. apply Nat.Div0.mod_mul.
Qed.

Section UniformWords.
Variable ws : list Word.
Variable tag : option string.
Hypothesis Htag : ∀ (i : nat) (w : Word),
  ws !! i = Some w → speakerTag (word_speaker w) = tag.
Hypothesis Hpunct : noSentenceEnd ws.

Lemma uniform_tag_truthy (k : nat) (w : Word) :
  ws !! k = Some w → (if JS.truthy tag then tag else None) = tag.
Proof. intros Hw. rewrite <- (Htag k w Hw). apply truthy_speakerTag. Qed.

Lemma uniform_no_punct (k : nat) (w : Word) :
  ws !! k = Some w → JS.ends_sentence (word_text w) = false.
Proof.
  intros Hw. unfold noSentenceEnd in Hpunct.
  rewrite Forall_lookup in Hpunct. exact (Hpunct k w Hw).
Qed.

(** The loop body on a word that neither changes the speaker nor ends a
    sentence. *)
Lemma loopBody_uniform (k : nat) (w : Word) (st : LoopState) :
  ws !! k = Some w → (0 < k → currentSpeaker st = tag) →
  let text := (currentSegment st +:+ (word_text w +:+ " "))%string in
  let closes := ((0 <? k) && (k mod 50 =? 0)) || (k =? length ws - 1) in
  segments (loopBody ws st k) =
    (if closes
     then segments st ++
          [{| seg_start := if k =? 0 then ms_to_s (word_start w) else segmentStart st;
              seg_end := ms_to_s (word_end w);
              seg_text := JS.trim text;
              seg_speaker := tag |}]
     else segments st) ∧
  currentSegment (loopBody ws st k) = (if closes then ""%string else text) ∧
  currentSpeaker (loopBody ws st k) = tag.
Proof.
  intros Hw Hsp text closes. unfold loopBody. rewrite Hw. cbv zeta.
  assert (E : (if k =? 0 then speakerTag (word_speaker w) else currentSpeaker st) = tag).
  { destruct (Nat.eqb_spec k 0) as [->|Hk]; [by apply (Htag 0)|apply Hsp; lia]. }
  rewrite E, (Htag k w Hw), bool_decide_eq_true_2 by done.
  unfold closesSegment. rewrite (uniform_no_punct k w Hw). cbn [negb orb].
  fold closes. fold text. rewrite (uniform_tag_truthy k w Hw).
  destruct closes eqn:Hc; [|done].
  destruct (k <? length ws - 1) eqn:Hlt; cbn; [|done].
  repeat split; try done.
  apply Nat.ltb_lt in Hlt.
  destruct (ws !! (k + 1)) as [w'|] eqn:Hw'.
  - cbn. by apply (Htag (k + 1)).
  - apply lookup_ge_None in Hw'. lia.
Qed.

Lemma uniformInv_init : uniformInv ws tag 0 loopInit.
Proof.
  exists [], []. rewrite take_0. cbn. repeat split; try done; try lia.
Qed.

Lemma uniformInv_length (k : nat) (chunks : list (list Word)) (open : list Word) :
  k ≤ length ws → take k ws = concat chunks ++ open →
  k = length (concat chunks) + length open.
Proof.
  intros Hk Ht. rewrite <- length_app, <- Ht, length_take. lia.
Qed.

Lemma uniformInv_step (k : nat) (w : Word) :
  ws !! k = Some w → S k < length ws →
  uniformInv ws tag k (loopUpTo ws k) →
  uniformInv ws tag (S k) (loopUpTo ws (S k)).
Proof.
  intros Hw Hlt (chunks & open & Htake & HF & Hcur & Hsp & Hshape).
  rewrite loopUpTo_S.
  destruct (loopBody_uniform k w (loopUpTo ws k) Hw Hsp) as (Hs & Hc & Hp).
  assert (Hlast : (k =? length ws - 1) = false) by (apply Nat.eqb_neq; lia).
  rewrite Hlast, orb_false_r in Hs, Hc.
  pose proof (uniformInv_length k chunks open ltac:(lia) Htake) as Hk.
  assert (Htake' : take (S k) ws = concat chunks ++ (open ++ [w])).
  { rewrite (take_S_r _ _ _ Hw), Htake. by rewrite <- app_assoc. }
  destruct ((0 <? k) && (k mod 50 =? 0)) eqn:Hcnt.
  - apply andb_true_iff in Hcnt as [Hpos Hmod].
    apply Nat.ltb_lt in Hpos. apply Nat.eqb_eq, mod50_zero in Hmod as [q Hq].
    exists (chunks ++ [open ++ [w]]), []. repeat split.
    + rewrite concat_app. cbn. by rewrite !app_nil_r.
    + rewrite Hs. apply Forall2_app; [done|]. constructor; [|done].
      split; cbn; [|done]. by rewrite Hcur, wordsText_snoc.
    + by rewrite Hc.
    + done.
    + destruct chunks as [|c0 rest]; cbn in *.
      * repeat split; [|done|lia]. rewrite length_app. cbn. lia.
      * destruct Hshape as (H0 & Hrest & Hopen).
        rewrite length_app, (length_concat_50 _ Hrest), H0 in Hk.
        repeat split; [done| |lia].
        apply Forall_app. split; [done|]. constructor; [|done].
        rewrite length_app. cbn. lia.
  - exists chunks, (open ++ [w]). repeat split; try done.
    + by rewrite Hs.
    + by rewrite Hc, Hcur, wordsText_snoc.
    + assert (Hn : ¬ (0 < k ∧ ∃ q, k = 50 * q)).
      { intros [Hpos Hq]. apply mod50_zero in Hq.
        apply andb_false_iff in Hcnt as [H|H].
        - apply Nat.ltb_ge in H. lia.
        - apply Nat.eqb_neq in H. lia. }
      destruct chunks as [|c0 rest]; cbn in *.
      * rewrite length_app. cbn.
        destruct (decide (length open = 50)) as [E|]; [|lia].
        exfalso. apply Hn. split; [lia|]. exists 1. lia.
      * destruct Hshape as (H0 & Hrest & Hopen).
        rewrite length_app, (length_concat_50 _ Hrest), H0 in Hk.
        repeat split; [done|done|]. rewrite length_app. cbn.
        destruct (decide (length open = 49)) as [E|]; [|lia].
        exfalso. apply Hn. split; [lia|]. exists (2 + length rest). lia.
Qed.

Lemma uniformInv_upTo (k : nat) :
  k < length ws → uniformInv ws tag k (loopUpTo ws k).
Proof.
  induction k as [|k IH]; intros Hk; [apply uniformInv_init|].
  destruct (lookup_lt_is_Some_2 ws k ltac:(lia)) as [w Hw].
  apply (uniformInv_step k w Hw Hk). apply IH. lia.
Qed.

Lemma uniform_groupWords :
  0 < length ws →
  ∃ (chunks : list (list Word)) (open : list Word) (w : Word),
    ws = concat chunks ++ open ++ [w] ∧
    Forall2 (chunkSegment tag) (chunks ++ [open ++ [w]]) (groupWords ws) ∧
    chunkShape chunks open.
Proof.
  intros Hn.
  destruct (lookup_lt_is_Some_2 ws (length ws - 1) ltac:(lia)) as [w Hw].
  destruct (uniformInv_upTo (length ws - 1) ltac:(lia))
    as (chunks & open & Htake & HF & Hcur & Hsp & Hshape).
  exists chunks, open, w. split; [|split; [|done]].
  - rewrite app_assoc, <- Htake, <- (take_S_r _ _ _ Hw).
    symmetry. apply take_ge. lia.
  - unfold groupWords.
    replace (length ws) with (S (length ws - 1)) at 1 by lia.
    rewrite loopUpTo_S.
    destruct (loopBody_uniform _ w _ Hw Hsp) as (Hs & _ & _).
    rewrite Nat.eqb_refl, orb_true_r in Hs. rewrite Hs.
    apply Forall2_app; [done|]. constructor; [|done].
    split; cbn; [|done]. by rewrite Hcur, wordsText_snoc.
Qed.

End UniformWords.

Lemma div50_unique (a q r : nat) : a = 50 * q + r → r < 50 → a / 50 = q.
Proof. intros -> Hr. symmetry. by apply (Nat.div_unique _ 50 q r). Qed.

(** C2 (amended). When the response has words only, no word changes the
    speaker and no word ends a sentence, the words split into consecutive
    chunks, one per segment and in order: each segment's text is the
    trimmed text of its chunk and its speaker is the common tag.  A
    non-empty list of [n] words gives [max 1 (ceil ((n - 1) / 50))] segments:
    the first chunk holds the first 51 words (all of them when there are
    fewer), every chunk between the first and the last holds exactly 50,
    and a last chunk that is not the first holds between 1 and 50.  So 51
    words by one speaker give one segment of 51 words. *)
Theorem uniform_words_chunking (t : ProviderTranscript) (ws : list Word) :
  pt_utterances t = None → pt_words t = Some ws →
  sameSpeakerThroughout ws → noSentenceEnd ws →
  ∃ chunks : list (list Word),
    concat chunks = ws ∧
    Forall2 (chunkSegment (head ws ≫= λ w, speakerTag (word_speaker w)))
      chunks (parseAssemblyAISegmentsWithSpeakers t) ∧
    length (parseAssemblyAISegmentsWithSpeakers t) =
      (if length ws =? 0 then 0 else Nat.max 1 (ceilDiv (length ws - 1) 50)) ∧
    (∀ c : list Word, chunks !! 0 = Some c → length c = Nat.min 51 (length ws)) ∧
    (∀ (j : nat) (c : list Word),
       0 < j → S j < length chunks → chunks !! j = Some c → length c = 50) ∧
    (∀ (j : nat) (c : list Word),
       0 < j → chunks !! j = Some c → 1 ≤ length c ≤ 50).
Proof.
  intros Hu Hws Hsame Hpunct.
  unfold parseAssemblyAISegmentsWithSpeakers. rewrite Hu, Hws.
  destruct ws as [|w0 ws'] eqn:Ews.
  { exists []. cbn. repeat split; try done; intros; simplify_eq. }
  rewrite <- Ews in *. 
  assert (Hhead : head ws = Some w0) by by rewrite Ews.
  rewrite Hhead. cbn [mbind option_bind].
  set (tag := speakerTag (word_speaker w0)).
  assert (Htag : ∀ (i : nat) (w : Word), ws !! i = Some w →
                   speakerTag (word_speaker w) = tag).
  { apply sameSpeaker_all; [done|]. by rewrite Ews. }
  assert (Hn : 0 < length ws) by (rewrite Ews; cbn; lia).
  destruct (uniform_groupWords ws tag Htag Hpunct Hn)
    as (chunks & open & w & Hcat & HF & Hshape).
  exists (chunks ++ [open ++ [w]]).
  assert (Hlen : length ws = length (concat chunks) + length open + 1).
  { rewrite Hcat at 1. rewrite !length_app. cbn. lia. }
  pose proof (Forall2_length _ _ _ HF) as HlenF.
  rewrite length_app in HlenF. cbn [length] in HlenF.
  split; [|split; [done|split; [|split; [|split]]]].
  - rewrite concat_app. cbn. by rewrite app_nil_r.
  - rewrite <- HlenF.
    destruct (Nat.eqb_spec (length ws) 0) as [|_]; [lia|].
    unfold ceilDiv. destruct chunks as [|c0 rest]; cbn in Hshape, Hlen; cbn [length].
    + destruct (decide (length open = 0)) as [E|E].
      * rewrite (div50_unique _ 0 49); lia.
      * rewrite (div50_unique _ 1 (length open - 1)); lia.
    + destruct Hshape as (H0 & Hrest & Hopen).
      rewrite length_app, (length_concat_50 _ Hrest), H0 in Hlen.
      rewrite (div50_unique _ (length rest + 2) (length open)); [|lia..]. lia.
  - intros c Hc. destruct chunks as [|c0 rest]; cbn in Hshape, Hlen, Hc.
    + injection Hc as <-. rewrite length_app. cbn [length]. lia.
    + destruct Hshape as (H0 & Hrest & Hopen).
      rewrite length_app, (length_concat_50 _ Hrest), H0 in Hlen.
      injection Hc as <-. lia.
  - intros j c Hj HSj Hc. rewrite length_app in HSj. cbn in HSj.
    rewrite lookup_app_l in Hc by lia.
    destruct chunks as [|c0 rest]; [cbn in HSj; lia|].
    destruct Hshape as (H0 & Hrest & Hopen).
    destruct j as [|j]; [lia|]. cbn in Hc.
    rewrite Forall_lookup in Hrest. exact (Hrest j c Hc).
  - intros j c Hj Hc.
    destruct chunks as [|c0 rest].
    { destruct j as [|j]; [lia|]. by destruct j. }
    destruct Hshape as (H0 & Hrest & Hopen).
    destruct j as [|j]; [lia|]. cbn in Hc.
    apply lookup_app_Some in Hc as [Hc|[_ Hc]].
    + rewrite Forall_lookup in Hrest. rewrite (Hrest j c Hc). lia.
    + apply list_lookup_singleton_Some in Hc as [_ <-].
      rewrite length_app. cbn [length]. lia.
Qed.

Lemma sameSpeaker_of_Forall (ws : list Word) (tag : option string) :
  Forall (λ w, speakerTag (word_speaker w) = tag) ws → sameSpeakerThroughout ws.
Proof.
  intros H i w w' Hw Hw'. rewrite Forall_lookup in H.
  by rewrite (H _ _ Hw), (H _ _ Hw').
Qed.

Lemma scenarioWords_sameSpeaker (id : string) (n : nat) :
  sameSpeakerThroughout (scenarioWords id n).
Proof.
  apply (sameSpeaker_of_Forall _ (speakerTag (Some id))).
  apply Forall_fmap, Forall_forall. by intros i _.
Qed.

Lemma scenarioWords_noSentenceEnd (id : string) (n : nat) :
  noSentenceEnd (scenarioWords id n).
Proof. apply Forall_fmap, Forall_forall. by intros i _. Qed.

(** The scenario of 51 words by speaker A: one segment. *)
Lemma uniform_words_chunking_witness :
  length (parseAssemblyAISegmentsWithSpeakers (wordsOnly (scenarioWords "A" 51))) = 1.
Proof.
  destruct (uniform_words_chunking (wordsOnly (scenarioWords "A" 51))
              (scenarioWords "A" 51) eq_refl eq_refl
              (scenarioWords_sameSpeaker "A" 51)
              (scenarioWords_noSentenceEnd "A" 51))
    as (chunks & _ & _ & Hlen & _).
  exact Hlen.
Defined.

(** C2 as stated fails on its own scenario: 51 words by speaker A without
    punctuation come out as one segment holding all 51 words, where
    [ceil (51 / 50)] is 2. *)
Lemma fifty_one_words_single_segment :
  sameSpeakerThroughout (scenarioWords "A" 51) ∧
  noSentenceEnd (scenarioWords "A" 51) ∧
  ceilDiv 51 50 = 2 ∧
  parseAssemblyAISegmentsWithSpeakers (wordsOnly (scenarioWords "A" 51)) =
    [{| seg_start := ms_to_s 0;
        seg_end := ms_to_s 5090;
        seg_text := JS.trim (wordsText (scenarioWords "A" 51));
        seg_speaker := Some "Speaker A"%string |}].
Proof.
  split; [apply scenarioWords_sameSpeaker|].
  split; [apply scenarioWords_noSentenceEnd|].
  split; [done|]. by vm_compute.
Qed.

(** ** A change of speaker *)

(** C3 (fails in the code). Three words, the second and third by a new
    speaker: the segment closed at the change of speaker already holds the
    text of the word that changed it, and the next segment starts with the
    same word again. *)
Theorem speaker_change_word_in_closed_segment :
  parseAssemblyAISegmentsWithSpeakers
    (wordsOnly [spoken "a" "A" 0 100; spoken "b" "B" 100 200; spoken "c" "B" 200 300]) =
    [{| seg_start := ms_to_s 0; seg_end := ms_to_s 200;
        seg_text := "a b"; seg_speaker := Some "Speaker A"%string |};
     {| seg_start := ms_to_s 100; seg_end := ms_to_s 300;
        seg_text := "b c"; seg_speaker := Some "Speaker B"%string |}].
Proof. by vm_compute. Qed.

(** When the word that changes the speaker is the last one, no segment of
    the new speaker is returned at all. *)
Example speaker_change_on_last_word :
  parseAssemblyAISegmentsWithSpeakers
    (wordsOnly [spoken "a" "A" 0 100; spoken "b" "B" 100 200]) =
    [{| seg_start := ms_to_s 0; seg_end := ms_to_s 200;
        seg_text := "a b"; seg_speaker := Some "Speaker A"%string |}].
Proof. by vm_compute. Qed.

(** In general: at a word whose inferred speaker differs from the speaker
    of the segment in progress, the loop closes a segment whose text ends
    with that word and whose end is the end of that word, under the old
    speaker; the segment it opens starts at the start of that word and
    holds that word again. *)
Lemma loopBody_speaker_change (ws : list Word) (st : LoopState) (k : nat) (w : Word) :
  ws !! k = Some w → 0 < k →
  speakerTag (word_speaker w) ≠ currentSpeaker st →
  loopBody ws st k =
    {| segments :=
         segments st ++
         [{| seg_start := segmentStart st;
             seg_end := ms_to_s (word_end w);
             seg_text := JS.trim (currentSegment st +:+ (word_text w +:+ " "));
             seg_speaker :=
               if JS.truthy (currentSpeaker st) then currentSpeaker st else None |}];
       currentSegment := word_text w +:+ " ";
       segmentStart := ms_to_s (word_start w);
       currentSpeaker := speakerTag (word_speaker w) |}.
Proof.
  intros Hw Hk Hne. unfold loopBody. rewrite Hw. cbv zeta.
  destruct (Nat.eqb_spec k 0) as [->|_]; [lia|].
  rewrite bool_decide_eq_false_2 by done. done.
Qed.

(** ** Order of the segments *)

Lemma ms_to_s_mono (a b : Q) : (a <= b)%Q → (ms_to_s a <= ms_to_s b)%Q.
Proof.
  intros H. unfold ms_to_s, Qdiv. by apply Qmult_le_compat_r.
Qed.

Lemma or_num_zero (q : Q) : (JS.or_num q 0 == q)%Q.
Proof.
  unfold JS.or_num, JS.truthy_num.
  destruct (Qeq_bool q 0) eqn:E; cbn; [|reflexivity].
  symmetry. by apply Qeq_bool_eq.
Qed.

Lemma or_num_zero_ge (a q : Q) : (a <= q)%Q → (a <= JS.or_num q 0)%Q.
Proof. intros H. by rewrite or_num_zero. Qed.

Lemma or_num_zero_le (q : Q) : (JS.or_num q 0 <= q)%Q.
Proof. rewrite or_num_zero. apply Qle_refl. Qed.

Lemma orderedBy_nil {A : Type} (f : A → Q) : orderedBy f [].
Proof. intros i j a b _ H. by rewrite lookup_nil in H. Qed.

Lemma orderedBy_singleton {A : Type} (f : A → Q) (x : A) : orderedBy f [x].
Proof.
  intros i j a b _ Ha Hb.
  apply list_lookup_singleton_Some in Ha as [_ <-].
  apply list_lookup_singleton_Some in Hb as [_ <-]. apply Qle_refl.
Qed.

Lemma orderedBy_snoc {A : Type} (f : A → Q) (l : list A) (x : A) :
  orderedBy f l → Forall (λ a, (f a <= f x)%Q) l → orderedBy f (l ++ [x]).
Proof.
  intros Hl Hx i j a b Hij Ha Hb.
  apply lookup_app_Some in Hb as [Hb|[Hj Hb]].
  - apply lookup_app_Some in Ha as [Ha|[Hi _]].
    + by apply (Hl i j).
    + apply lookup_lt_Some in Hb. lia.
  - apply list_lookup_singleton_Some in Hb as [_ <-].
    apply lookup_app_Some in Ha as [Ha|[_ Ha]].
    + rewrite Forall_lookup in Hx. by apply (Hx i).
    + apply list_lookup_singleton_Some in Ha as [_ <-]. apply Qle_refl.
Qed.

Lemma orderedBy_fmap {A B : Type} (f : A → Q) (g : B → Q) (h : A → B) (l : list A) :
  (∀ a b : A, (f a <= f b)%Q → (g (h a) <= g (h b))%Q) →
  orderedBy f l → orderedBy g (h <$> l).
Proof.
  intros Hm Hl i j a b Hij Ha Hb.
  rewrite list_lookup_fmap in Ha, Hb.
  destruct (l !! i) as [a'|] eqn:Ea; [|done].
  destruct (l !! j) as [b'|] eqn:Eb; [|done].
  cbn in Ha, Hb. simplify_eq. apply Hm. by apply (Hl i j).
Qed.

(** The last word always closes a segment. *)
Lemma loopBody_last (ws : list Word) (st : LoopState) (w : Word) :
  ws !! (length ws - 1) = Some w →
  ∃ s : Segment, segments (loopBody ws st (length ws - 1)) = segments st ++ [s].
Proof.
  intros Hw. unfold loopBody. rewrite Hw. cbv zeta.
  unfold closesSegment. rewrite Nat.eqb_refl, !orb_true_r.
  eexists. destruct (negb _); [done|].
  by destruct (_ <? _).
Qed.

Lemma groupWords_nonempty (ws : list Word) : ws ≠ [] → groupWords ws ≠ [].
Proof.
  intros Hne. assert (0 < length ws) as Hn by (destruct ws; [done|cbn; lia]).
  destruct (lookup_lt_is_Some_2 ws (length ws - 1) ltac:(lia)) as [w Hw].
  unfold groupWords.
  replace (length ws) with (S (length ws - 1)) at 1 by lia.
  rewrite loopUpTo_S.
  destruct (loopBody_last ws (loopUpTo ws (length ws - 1)) w Hw) as [s ->].
  by destruct (segments _).
Qed.

Section Ordered.
Variable ws : list Word.
Hypothesis Hord : orderedBy word_start ws.

Lemma next_word_later (k : nat) (w w' : Word) :
  ws !! k = Some w → ws !! S k = Some w' →
  (ms_to_s (word_start w) <= ms_to_s (word_start w'))%Q.
Proof. intros Hw Hw'. apply ms_to_s_mono. apply (Hord k (S k)); [lia|done..]. Qed.

Lemma orderInv_init : orderInv ws 0 loopInit.
Proof.
  split; [apply orderedBy_nil|]. split; [constructor|]. split; [done|].
  intros H. lia.
Qed.

Lemma orderInv_step (k : nat) (w : Word) :
  ws !! k = Some w →
  orderInv ws k (loopUpTo ws k) → orderInv ws (S k) (loopUpTo ws (S k)).
Proof.
  intros Hw (Hsorted & Hle & Hzero & Hbound).
  rewrite loopUpTo_S. set (st := loopUpTo ws k) in *.
  set (s0 := if (k =? 0)%nat then ms_to_s (word_start w) else segmentStart st).
  assert (Hs0 : (s0 <= ms_to_s (word_start w))%Q).
  { unfold s0. destruct (Nat.eqb_spec k 0) as [->|Hk]; [apply Qle_refl|].
    apply Hbound; [lia|done]. }
  assert (Hle0 : Forall (λ s, (seg_start s <= s0)%Q) (segments st)).
  { unfold s0. destruct (Nat.eqb_spec k 0) as [->|Hk]; [|done].
    by rewrite Hzero. }
  assert (Hnext : ∀ w' : Word, ws !! S k = Some w' →
            (s0 <= ms_to_s (word_start w'))%Q).
  { intros w' Hw'. eapply Qle_trans; [exact Hs0|]. by apply (next_word_later k). }
  unfold loopBody. rewrite Hw. cbv zeta. fold s0.
  destruct (closesSegment _ _ _ _).
  - set (seg := {| seg_start := s0 |}).
    assert (Hsorted' : orderedBy seg_start (segments st ++ [seg])).
    { by apply orderedBy_snoc. }
    destruct (negb _).
    + cbn. repeat split; [done| |lia|].
      * apply Forall_app. split.
        -- eapply Forall_impl; [exact Hle0|]. cbn. intros s Hs.
           by eapply Qle_trans.
        -- by constructor.
      * intros _ w' Hw'. by apply (next_word_later k).
    + destruct (k <? length ws - 1)%nat eqn:Hlt.
      * apply Nat.ltb_lt in Hlt.
        destruct (lookup_lt_is_Some_2 ws (k + 1) ltac:(lia)) as [w' Hw'].
        rewrite Hw'. replace (k + 1)%nat with (S k) in Hw' by lia.
        cbn [fmap option_fmap option_map JS.or_opt_num segments segmentStart].
        repeat split; [done| |lia|].
        -- apply Forall_app. split.
           ++ eapply Forall_impl; [exact Hle0|]. cbn beta. intros s Hs.
              apply or_num_zero_ge. eapply Qle_trans; [exact Hs|]. by apply Hnext.
           ++ constructor; [|done]. apply or_num_zero_ge. by apply Hnext.
        -- intros _ w'' Hw''. simplify_eq. apply or_num_zero_le.
      * cbn. repeat split; [done| |lia|].
        -- apply Forall_app. split; [done|]. constructor; [|done]. apply Qle_refl.
        -- intros _ w' Hw'. by apply Hnext.
  - cbn. repeat split; [done|done|lia|].
    intros _ w' Hw'. by apply Hnext.
Qed.

Lemma orderInv_upTo (k : nat) : k ≤ length ws → orderInv ws k (loopUpTo ws k).
Proof.
  induction k as [|k IH]; intros Hk; [apply orderInv_init|].
  destruct (lookup_lt_is_Some_2 ws k ltac:(lia)) as [w Hw].
  apply (orderInv_step k w Hw). apply IH. lia.
Qed.

Lemma groupWords_ordered : orderedBy seg_start (groupWords ws).
Proof. exact (proj1 (orderInv_upTo (length ws) (Nat.le_refl _))). Qed.

End Ordered.

Lemma utterances_ordered (us : list Utterance) :
  orderedBy utt_start us → orderedBy seg_start (utteranceToSegment <$> us).
Proof. apply orderedBy_fmap. intros a b. apply ms_to_s_mono. Qed.

(** C4 (amended). The normaliser returns a non-empty list whenever the
    array it reads ([utterances] when present, else [words] when present)
    is not empty, and exactly one segment when there is neither array: the
    whole text, from 0 to the duration the provider reports, without a
    speaker; and the segments it returns are ordered by non-decreasing start
    time whenever the entries of that array are. *)
Theorem normaliser_nonempty_and_ordered (t : ProviderTranscript) :
  (inputNonEmpty t → parseAssemblyAISegmentsWithSpeakers t ≠ []) ∧
  (inputOrdered t → orderedBy seg_start (parseAssemblyAISegmentsWithSpeakers t)) ∧
  (pt_utterances t = None → pt_words t = None →
   ∃ s : Segment,
     parseAssemblyAISegmentsWithSpeakers t = [s] ∧
     seg_start s = 0%Q ∧
     seg_end s = JS.or_opt_num (pt_audio_duration t) 0 ∧
     seg_text s = JS.or_opt_string (pt_text t) "" ∧
     seg_speaker s = None).
Proof.
  unfold inputNonEmpty, inputOrdered, parseAssemblyAISegmentsWithSpeakers.
  destruct (pt_utterances t) as [us|]; [|destruct (pt_words t) as [ws|]].
  - split; [|split; [apply utterances_ordered|done]].
    intros Hne. by destruct us.
  - split; [apply groupWords_nonempty|].
    split; [apply groupWords_ordered|done].
  - split; [done|]. split; [intros _; apply orderedBy_singleton|].
    intros _ _. by eexists.
Qed.

(** Two utterances in time order; and a response with text only. *)
Lemma normaliser_nonempty_and_ordered_witness :
  parseAssemblyAISegmentsWithSpeakers
    (utterancesOnly "hi hello" [uttered "hi" "A" 0 2000; uttered "hello" "B" 2000 4000])
    ≠ [] ∧
  orderedBy seg_start
    (parseAssemblyAISegmentsWithSpeakers
       (utterancesOnly "hi hello" [uttered "hi" "A" 0 2000; uttered "hello" "B" 2000 4000])) ∧
  length (parseAssemblyAISegmentsWithSpeakers (textOnly "hello")) = 1.
Proof.
  destruct (normaliser_nonempty_and_ordered
              (utterancesOnly "hi hello"
                 [uttered "hi" "A" 0 2000; uttered "hello" "B" 2000 4000]))
    as (Hne & Hord & _).
  split; [by apply Hne|]. split.
  - apply Hord.
    apply (orderedBy_snoc _ [_]); [apply orderedBy_singleton|].
    repeat constructor. by cbv.
  - destruct (normaliser_nonempty_and_ordered (textOnly "hello"))
      as (_ & _ & Hone).
    destruct (Hone eq_refl eq_refl) as (s & -> & _). reflexivity.
Defined.

(** C4 as stated fails twice: a response with text and an empty
    [utterances] array gives no segment, and utterances out of time order
    give segments out of time order. *)
Lemma text_without_segments_or_order :
  (JS.truthy (pt_text (utterancesOnly "hi" [])) = true ∧
   parseAssemblyAISegmentsWithSpeakers (utterancesOnly "hi" []) = []) ∧
  (JS.truthy (pt_text (utterancesOnly "hello hi"
      [uttered "hello" "B" 2000 4000; uttered "hi" "A" 0 2000])) = true ∧
   ∃ a b : Segment,
     parseAssemblyAISegmentsWithSpeakers
       (utterancesOnly "hello hi"
          [uttered "hello" "B" 2000 4000; uttered "hi" "A" 0 2000]) = [a; b] ∧
     (seg_start b < seg_start a)%Q).
Proof.
  split; [done|]. split; [done|].
  eexists _, _. split; [reflexivity|]. by cbv.
Qed.

(** ** The JSON text of a mapping reads back *)

Lemma parse_chars_quote_char (c : ascii) (tl : string) :
  JSON.parse_chars (JSON.quote_char c +:+ tl) = JSON.prepend c (JSON.parse_chars tl).
Proof.
  destruct c as [[] [] [] [] [] [] [] []]; reflexivity.
Qed.

Lemma parse_chars_quote_body (s rest : string) :
  JSON.parse_chars (JSON.quote_body s +:+ String JSON.dquote rest) = Some (s, rest).
Proof.
  induction s as [|c s IH]; [done|].
  cbn [JSON.quote_body]. rewrite append_assoc, parse_chars_quote_char, IH. done.
Qed.

Lemma quote_append (s rest : string) :
  JSON.quote s +:+ rest =
  String JSON.dquote (JSON.quote_body s +:+ String JSON.dquote rest).
Proof. unfold JSON.quote. by rewrite append_cons, append_assoc. Qed.

Lemma parse_string_quote (s rest : string) :
  JSON.parse_string (JSON.quote s +:+ rest) = Some (s, rest).
Proof. rewrite quote_append. cbn. apply parse_chars_quote_body. Qed.

Lemma skip_ws_quote (s rest : string) :
  JSON.skip_ws (JSON.quote s +:+ rest) = JSON.quote s +:+ rest.
Proof. by rewrite quote_append. Qed.

Lemma member_append (kv : string * string) (rest : string) :
  JSON.member kv +:+ rest = JSON.quote kv.1 +:+ String ":" (JSON.quote kv.2 +:+ rest).
Proof. unfold JSON.member. by rewrite append_assoc, append_cons. Qed.

Lemma members_cons (kv : string * string) (l : list (string * string)) (rest : string) :
  JSON.members (kv :: l) +:+ rest =
  JSON.member kv +:+
    match l with
    | [] => rest
    | _ :: _ => String "," (JSON.members l +:+ rest)
    end.
Proof. destruct l; [done|]. cbn [JSON.members]. by rewrite append_assoc, append_cons. Qed.

Lemma skip_ws_members (kv : string * string) (l : list (string * string)) (rest : string) :
  JSON.skip_ws (JSON.members (kv :: l) +:+ rest) = JSON.members (kv :: l) +:+ rest.
Proof. by rewrite members_cons, member_append, skip_ws_quote. Qed.

Lemma parse_members_S (fuel : nat) (acc : gmap string string)
    (k v : string) (rest : string) :
  JSON.parse_members (S fuel) acc
    (JSON.quote k +:+ String ":" (JSON.quote v +:+ rest)) =
  match JSON.skip_ws rest with
  | String c2 s4 =>
      if (nat_of_ascii c2 =? 44)%nat then
        JSON.parse_members fuel (<[k:=v]> acc) (JSON.skip_ws s4)
      else if (nat_of_ascii c2 =? 125)%nat then Some (<[k:=v]> acc, s4)
      else None
  | EmptyString => None
  end.
Proof.
  cbn [JSON.parse_members]. rewrite parse_string_quote.
  change (JSON.skip_ws (String ":" (JSON.quote v +:+ rest)))
    with (String ":" (JSON.quote v +:+ rest)).
  change (nat_of_ascii ":" =? 58)%nat with true. cbv iota.
  by rewrite skip_ws_quote, parse_string_quote.
Qed.

Lemma parse_members_members (l : list (string * string)) :
  ∀ (kv : string * string) (fuel : nat) (acc : gmap string string) (rest : string),
    length l < fuel →
    JSON.parse_members fuel acc (JSON.members (kv :: l) +:+ String "}" rest) =
    Some (foldl insertMember acc (kv :: l), rest).
Proof.
  induction l as [|kv' l IH]; intros [k v] fuel acc rest Hfuel;
    (destruct fuel as [|fuel]; [cbn in Hfuel; lia|]);
    rewrite members_cons, member_append; cbn [fst snd];
    rewrite parse_members_S.
  - done.
  - change (JSON.skip_ws (String "," ?s)) with (String "," s). cbv iota.
    change (nat_of_ascii "," =? 44)%nat with true. cbv iota.
    rewrite skip_ws_members, IH by (cbn in Hfuel; lia). done.
Qed.

Lemma string_length_append (a b : string) :
  String.length (a +:+ b) = String.length a + String.length b.
Proof. induction a as [|c a IH]; [done|]. rewrite append_cons. cbn. by rewrite IH. Qed.

Lemma members_length (l : list (string * string)) :
  length l ≤ String.length (JSON.members l).
Proof.
  induction l as [|kv l IH]; [done|].
  assert (1 ≤ String.length (JSON.member kv)) as Hm.
  { unfold JSON.member. rewrite string_length_append. cbn [String.length]. lia. }
  destruct l as [|kv' l]; [done|].
  cbn [JSON.members length] in *.
  rewrite string_length_append. cbn [String.length]. lia.
Qed.

Lemma foldl_insertMember (l : list (string * string)) (acc : gmap string string) :
  foldl insertMember acc l = list_to_map (reverse l) ∪ acc.
Proof.
  revert acc. induction l as [|[k v] l IH]; intros acc.
  - cbn. by rewrite (left_id_L ∅ (∪)).
  - cbn [foldl]. rewrite IH, reverse_cons, list_to_map_app.
    unfold insertMember. cbn [fst snd list_to_map foldr].
    rewrite <- (assoc_L (∪)). f_equal.
    rewrite insert_union_singleton_l. by rewrite insert_empty.
Qed.

Lemma foldl_insertMember_to_list (m : gmap string string) :
  foldl insertMember ∅ (map_to_list m) = m.
Proof.
  rewrite foldl_insertMember, (right_id_L ∅ (∪)).
  rewrite <- (list_to_map_to_list m) at 2.
  apply list_to_map_proper.
  - rewrite fmap_reverse, reverse_Permutation. apply NoDup_fst_map_to_list.
  - apply reverse_Permutation.
Qed.

Lemma read_stringify (m : gmap string string) :
  JSON.read_mapping (JSON.stringify m) = Some m.
Proof.
  unfold JSON.read_mapping, JSON.stringify.
  change (JSON.skip_ws (String "{" ?s)) with (String "{" s). cbv iota.
  change (nat_of_ascii "{" =? 123)%nat with true. cbv iota.
  destruct (map_to_list m) as [|kv l] eqn:El.
  - apply map_to_list_empty_iff in El as ->. done.
  - rewrite skip_ws_members.
    pose proof (members_cons kv l (String "}" "")) as Hhead.
    rewrite member_append, quote_append in Hhead. rewrite Hhead at 1.
    change (nat_of_ascii JSON.dquote =? 125)%nat with false. cbv iota.
    rewrite <- Hhead.
    rewrite parse_members_members.
    + rewrite <- El, foldl_insertMember_to_list. done.
    + cbn [String.length]. rewrite string_length_append.
      pose proof (members_length (kv :: l)) as Hl. cbn [length String.length] in *. lia.
Qed.

(** [JSON.parse] reads back what [JSON.stringify] printed of a mapping,
    whatever the engine does with other texts. *)
Lemma parse_stringify (engine : Engine) (m : gmap string string) :
  JSON_parse engine (JSON.stringify m) = inr (JSON.Mapping m).
Proof. unfold JSON_parse. by rewrite read_stringify. Qed.

Lemma parsed_stringify (engine : Engine) (m : gmap string string) :
  parsed engine (JSON.stringify m) = Some (JSON.Mapping m).
Proof. unfold parsed. by rewrite parse_stringify. Qed.

(** ** The speaker mapping in the database *)

Lemma getSpeakerMapping_stored (recordingId : string) (w : World) :
  (getSpeakerMapping recordingId w).1 = inr (storedMapping w recordingId).
Proof.
  unfold getSpeakerMapping, storedMapping, parsed, try_catch, bind,
    prisma.transcript_findUnique, getDb, getEngine, liftE, ret, throw, logger, emit.
  cbn. destruct (transcripts (db w) !! recordingId) as [t|]; cbn; [|done].
  destruct (tr_speakerNames t) as [text|]; cbn; [|done].
  destruct (JS.truthy_string text); [|done].
  by destruct (JSON_parse (engine w) text).
Qed.

Lemma stringify_truthy (m : gmap string string) :
  JS.truthy_string (JSON.stringify m) = true.
Proof. done. Qed.

Lemma storeSpeakerMapping_ok (recordingId : string) (v : JSON.value)
    (w w1 : World) :
  storeSpeakerMapping recordingId v w = (inr tt, w1) →
  engine w1 = engine w ∧
  ∃ t : Transcript,
    transcripts (db w) !! recordingId = Some t ∧
    transcripts (db w1) !! recordingId =
      Some (setSpeakerNames v t).
Proof.
  unfold storeSpeakerMapping, try_catch, bind, prisma.transcript_update,
    getDb, putDb, ret, throw, logger, emit.
  cbn. destruct (transcripts (db w) !! recordingId) as [t|]; cbn; [|done].
  intros [= <-]. split; [done|]. exists t. split; [done|]. cbn.
  by rewrite lookup_insert_eq.
Qed.

Lemma storeSpeakerMapping_succeeds (recordingId : string) (v : JSON.value)
    (w : World) :
  is_Some (transcripts (db w) !! recordingId) →
  (storeSpeakerMapping recordingId v w).1 = inr tt.
Proof.
  intros [t Ht].
  unfold storeSpeakerMapping, try_catch, bind, prisma.transcript_update,
    getDb, putDb, ret, throw, logger, emit.
  cbn. by rewrite Ht.
Qed.

Lemma stored_names_read_back (recordingId : string) (m : gmap string string)
    (row : Transcript) (w : World) :
  transcripts (db w) !! recordingId = Some (setSpeakerNames (JSON.Mapping m) row) →
  storedMapping w recordingId = Some (JSON.Mapping m).
Proof.
  intros Hrow. unfold storedMapping.
  rewrite Hrow. cbn [mbind option_bind tr_speakerNames setSpeakerNames JSON_stringify].
  by rewrite stringify_truthy, parsed_stringify.
Qed.

Lemma scenario_stored (segs : list Segment) (m : gmap string string) :
  storedMapping (scenarioWorld segs (Some (JSON.stringify m))) "r1"
  = Some (JSON.Mapping m).
Proof.
  unfold storedMapping, scenarioWorld. cbn [db transcripts engine].
  rewrite lookup_singleton_eq. cbn. by rewrite parsed_stringify.
Qed.

(** C8. A mapping stored for a recording and read back at once is the
    mapping that was stored: the same keys with the same values. *)
Theorem speaker_mapping_round_trip (recordingId : string)
    (m : gmap string string) (w w1 : World) :
  storeSpeakerMapping recordingId (JSON.Mapping m) w = (inr tt, w1) →
  (getSpeakerMapping recordingId w1).1 = inr (Some (JSON.Mapping m)).
Proof.
  intros Hstore. destruct (storeSpeakerMapping_ok _ _ _ _ Hstore) as (_ & t & _ & Ht).
  rewrite getSpeakerMapping_stored. by rewrite (stored_names_read_back _ m t).
Qed.

(** A mapping stored for the transcript of ["r1"] and read back. *)
Lemma speaker_mapping_round_trip_witness :
  (getSpeakerMapping "r1"
     (storeSpeakerMapping "r1" (JSON.Mapping janeDoe)
        (scenarioWorld twoSpeakers None)).2).1
  = inr (Some (JSON.Mapping janeDoe)).
Proof.
  apply (speaker_mapping_round_trip "r1" janeDoe (scenarioWorld twoSpeakers None)).
  reflexivity.
Defined.

(** ** The overlay of the names *)

Lemma getProperty_mapping (engine : Engine) (m : gmap string string) (key : string) :
  getProperty engine (JSON.Mapping m) key =
    match m !! key with
    | Some name => Some (JS.Str name)
    | None => engine_inherited engine key
    end.
Proof. done. Qed.

Lemma truthy_Str (name : string) :
  name ≠ ""%string → JS.truthy_value (JS.Str name) = true.
Proof. by destruct name. Qed.





Lemma getSpeakerMapping_cases (recordingId : string) (w : World) :
  ∃ w' : World,
    getSpeakerMapping recordingId w = (inr (storedMapping w recordingId), w') ∧
    db w' = db w ∧ engine w' = engine w.
Proof.
  unfold getSpeakerMapping, storedMapping, parsed, try_catch, bind,
    prisma.transcript_findUnique, getDb, getEngine, liftE, ret, throw, logger, emit.
  cbn. destruct (transcripts (db w) !! recordingId) as [t|]; cbn; [|by eexists].
  destruct (tr_speakerNames t) as [text|]; cbn; [|by eexists].
  destruct (JS.truthy_string text); [|by eexists].
  destruct (JSON_parse (engine w) text); by eexists.
Qed.




(** ** Reading a transcript *)

Lemma withSpeakerName_cases (engine : Engine) (v : JSON.value) (s : Segment) :
  vs_speaker (withSpeakerName engine v s) = seg_speaker s ∧
  (∀ (tag : string) (x : JS.value), seg_speaker s = Some tag → tag ≠ ""%string →
     getProperty engine v tag = Some x → JS.truthy_value x = true →
     vs_speakerName (withSpeakerName engine v s) = Some x) ∧
  (∀ tag : string, seg_speaker s = Some tag →
     tag = ""%string ∨ getProperty engine v tag = None ∨
     (∃ x : JS.value, getProperty engine v tag = Some x ∧ JS.truthy_value x = false) →
     vs_speakerName (withSpeakerName engine v s) = Some (JS.Str tag)) ∧
  (seg_speaker s = None → vs_speakerName (withSpeakerName engine v s) = None).
Proof.
  unfold withSpeakerName. cbn. repeat split.
  - intros tag x -> Htag Hx Ht. cbn. rewrite Hx, Ht. by destruct tag.
  - intros tag -> [->|[Hx|(x & Hx & Ht)]]; cbn; [done|rewrite Hx..]; cbn;
      by rewrite ?Ht, andb_false_r.
  - by intros ->.
Qed.

Lemma withSpeakerName_mapping (engine : Engine) (m : gmap string string)
    (s : Segment) :
  (∀ tag name : string, seg_speaker s = Some tag → tag ≠ ""%string →
     m !! tag = Some name → name ≠ ""%string →
     vs_speakerName (withSpeakerName engine (JSON.Mapping m) s) = Some (JS.Str name)) ∧
  (∀ tag : string, seg_speaker s = Some tag →
     tag = ""%string ∨ m !! tag = Some ""%string ∨
     (m !! tag = None ∧ engine_inherited engine tag = None) →
     vs_speakerName (withSpeakerName engine (JSON.Mapping m) s) = Some (JS.Str tag)).
Proof.
  destruct (withSpeakerName_cases engine (JSON.Mapping m) s) as (_ & Hname & Htag & _).
  split.
  - intros tag name Hs Hne Hm Hn. apply (Hname tag); [done|done| |by apply truthy_Str].
    by rewrite getProperty_mapping, Hm.
  - intros tag Hs [->|[Hm|[Hm Hi]]]; apply Htag; try done.
    + by left.
    + right. right. exists (JS.Str ""). by rewrite getProperty_mapping, Hm.
    + right. left. by rewrite getProperty_mapping, Hm.
Qed.

Lemma getTranscription_not_found (recordingId : string) (w : World) :
  transcripts (db w) !! recordingId = None →
  getTranscription recordingId w = (inr None, w).
Proof.
  intros H. unfold getTranscription, try_catch, bind,
    prisma.transcript_findUnique_include, getDb, ret.
  cbn. by rewrite H.
Qed.

(** The segments [getTranscription] returns for the stored segments and the
    value it read. *)
Lemma getTranscription_result (recordingId : string) (w : World)
    (t : Transcript) (r : Recording) :
  transcripts (db w) !! recordingId = Some t →
  recordings (db w) !! recordingId = Some r →
  (getTranscription recordingId w).1 =
  inr (Some {| tv_recordingId := recordingId;
               tv_text := tr_rawTranscript t;
               tv_segments :=
                 match usable (storedMapping w recordingId) with
                 | Some v => withSpeakerName (engine w) v <$> tr_content t
                 | None => plainSegment <$> tr_content t
                 end;
               tv_language := tr_language t;
               tv_speakerCount := tr_speakerCount t;
               tv_speakerNames := storedMapping w recordingId;
               tv_speakerIdentified := tr_speakerIdentified t;
               tv_confidenceScore := tr_confidenceScore t;
               tv_recording := r |}).
Proof.
  intros Ht Hr. unfold getTranscription, storedMapping, parsed, try_catch, bind,
    prisma.transcript_findUnique_include, getDb, getEngine, ret, logger, emit.
  cbn. rewrite Ht, Hr. cbn.
  destruct (tr_speakerNames t) as [text|]; cbn; [|done].
  destruct (JS.truthy_string text); cbn; [|done].
  destruct (JSON_parse (engine w) text) as [e|v]; cbn; [done|].
  destruct (JSON.truthy v); cbn; [|done].
  by destruct (tr_content t) as [|s l].
Qed.

(** C9 (amended). [getTranscription] returns [null], not an error, when the
    recording has no transcript.  When the transcript has a stored mapping
    that can be read (a truthy value), every returned segment keeps the
    times, the text and the speaker tag of the stored segment at its
    position and carries a [speakerName] besides: what the mapping gives for
    the tag when the tag is not empty and the mapping gives it a truthy
    value, the tag itself when the tag is empty or the mapping gives it
    nothing or a falsy value, and nothing when the segment has no tag.  So,
    when the mapping is an object of strings: the mapped name for a
    non-empty tag that it maps to a non-empty name, and the tag itself for a
    tag that is empty, mapped to the empty string, or absent from the
    mapping without naming a property that every object inherits. *)
Theorem getTranscription_overlay (recordingId : string) (w : World) :
  (transcripts (db w) !! recordingId = None →
   (getTranscription recordingId w).1 = inr None) ∧
  (∀ (t : Transcript) (r : Recording) (v : JSON.value),
     transcripts (db w) !! recordingId = Some t →
     recordings (db w) !! recordingId = Some r →
     storedMapping w recordingId = Some v → JSON.truthy v = true →
     ∃ view : TranscriptionView,
       (getTranscription recordingId w).1 = inr (Some view) ∧
       tv_speakerNames view = Some v ∧
       length (tv_segments view) = length (tr_content t) ∧
       ∀ (i : nat) (s : Segment), tr_content t !! i = Some s →
         ∃ vs : ViewSegment,
           tv_segments view !! i = Some vs ∧
           vs_start vs = seg_start s ∧ vs_end vs = seg_end s ∧
           vs_text vs = seg_text s ∧
           vs_speaker vs = seg_speaker s ∧
           (∀ (tag : string) (x : JS.value), seg_speaker s = Some tag →
              tag ≠ ""%string → getProperty (engine w) v tag = Some x →
              JS.truthy_value x = true → vs_speakerName vs = Some x) ∧
           (∀ tag : string, seg_speaker s = Some tag →
              tag = ""%string ∨ getProperty (engine w) v tag = None ∨
              (∃ x : JS.value, getProperty (engine w) v tag = Some x ∧
                               JS.truthy_value x = false) →
              vs_speakerName vs = Some (JS.Str tag)) ∧
           (seg_speaker s = None → vs_speakerName vs = None) ∧
           ∀ m : gmap string string, v = JSON.Mapping m →
             (∀ tag name : string, seg_speaker s = Some tag → tag ≠ ""%string →
                m !! tag = Some name → name ≠ ""%string →
                vs_speakerName vs = Some (JS.Str name)) ∧
             (∀ tag : string, seg_speaker s = Some tag →
                tag = ""%string ∨ m !! tag = Some ""%string ∨
                (m !! tag = None ∧ engine_inherited (engine w) tag = None) →
                vs_speakerName vs = Some (JS.Str tag))).
Proof.
  split.
  - intros H. by rewrite getTranscription_not_found.
  - intros t r v Ht Hr Hv Htruthy. eexists.
    split; [by apply (getTranscription_result _ _ t r)|].
    cbn. rewrite Hv. cbn [usable]. rewrite Htruthy.
    split; [done|]. split; [by rewrite length_fmap|].
    intros i s Hs. exists (withSpeakerName (engine w) v s).
    split; [by rewrite list_lookup_fmap, Hs|].
    split; [done|]. split; [done|]. split; [done|].
    destruct (withSpeakerName_cases (engine w) v s) as (Hsp & Hname & Htag & Hnone).
    split; [done|]. split; [done|]. split; [done|]. split; [done|].
    intros m ->. apply withSpeakerName_mapping.
Qed.

(** The transcript of ["r1"] with ["Speaker A"] mapped to ["Jane Doe"]. *)
Lemma getTranscription_overlay_witness :
  ∃ view : TranscriptionView,
    (getTranscription "r1"
       (scenarioWorld twoSpeakers (Some (JSON.stringify janeDoe)))).1
    = inr (Some view) ∧
    tv_speakerNames view = Some (JSON.Mapping janeDoe).
Proof.
  destruct (proj2 (getTranscription_overlay "r1"
                    (scenarioWorld twoSpeakers (Some (JSON.stringify janeDoe))))
              (scenarioTranscript twoSpeakers (Some (JSON.stringify janeDoe)))
              scenarioRecording (JSON.Mapping janeDoe)
              eq_refl eq_refl
              (scenario_stored twoSpeakers janeDoe) eq_refl)
    as (view & Hview & Hnames & _).
  exists view. by split.
Defined.

(** C9 as stated fails: with ["Speaker A"] mapped to ["Jane Doe"],
    [applySpeakerNamesToSegments] replaces the speaker of the first segment
    by the name, while [getTranscription] returns the segment with its
    speaker still ["Speaker A"] and the name in [speakerName]. *)
Lemma getTranscription_keeps_speaker_tag :
  storedMapping (scenarioWorld twoSpeakers (Some (JSON.stringify janeDoe))) "r1"
    = Some (JSON.Mapping janeDoe) ∧
  (applySpeakerNamesToSegments "r1" twoSpeakers
     (scenarioWorld twoSpeakers (Some (JSON.stringify janeDoe)))).1
    = inr [{| ns_start := 0; ns_end := 2; ns_text := "hi";
              ns_speaker := Some (JS.Str "Jane Doe") |};
           {| ns_start := 2; ns_end := 4; ns_text := "hello";
              ns_speaker := Some (JS.Str "Speaker B") |}] ∧
  ∃ view : TranscriptionView,
    (getTranscription "r1"
       (scenarioWorld twoSpeakers (Some (JSON.stringify janeDoe)))).1
      = inr (Some view) ∧
    tv_segments view =
      [{| vs_start := 0; vs_end := 2; vs_text := "hi";
          vs_speaker := Some "Speaker A"%string;
          vs_speakerName := Some (JS.Str "Jane Doe") |};
       {| vs_start := 2; vs_end := 4; vs_text := "hello";
          vs_speaker := Some "Speaker B"%string;
          vs_speakerName := Some (JS.Str "Speaker B") |}].
Proof.
  split; [|split; [by vm_compute|]].
  - apply scenario_stored.
  - eexists. split; [by vm_compute|]. done.
Qed.

(** ** The run of the orchestrator *)

(** Closes [ChatCompletion _ ∉ l] for a list of log lines. *)
Ltac no_chat :=
  repeat (apply not_elem_of_cons; split; [discriminate|]); apply not_elem_of_nil.

(** Unfolds the plumbing of the computations. *)
Ltac unfold_M :=
  unfold try_catch, bind, liftE, ret, throw, logger, emit, getDb, putDb, getEngine in *.

Lemma updateRecordingStatus_cases (recordingId status : string) (w : World) :
  updateRecordingStatus recordingId status w =
  (match recordings (db w) !! recordingId with
  | Some r =>
      (inr tt,
       extend w
         {| recordings := <[recordingId := setStatus status r]> (recordings (db w));
            transcripts := transcripts (db w) |}
         [Log Info ("Updated recording " +:+ recordingId +:+ " status to " +:+ status)])
  | None =>
      (inl prisma.not_found,
       extend w (db w)
         [Log Error ("Failed to update recording status for " +:+ recordingId +:+ ":")])
   end).
Proof.
  unfold updateRecordingStatus, prisma.recording_update, extend. unfold_M.
  cbn. by destruct (recordings (db w) !! recordingId).
Qed.

(** *** A provider that reports an error *)

(** C6. When the recording exists, the file can be read and the provider
    answers with status [error], the run throws an error whose message ends
    with the provider's message, the recording's status is [FAILED] when
    the run ends and nothing else of the recording has changed, the
    transcripts table is unchanged, and the log shows that neither the
    normaliser nor the store was reached. *)
Theorem provider_error_fails_run (env : Env) (recordingId filePath : string)
    (w : World) (r : Recording) (size : Q) (t : ProviderTranscript) :
  recordings (db w) !! recordingId = Some r →
  env_statSync env filePath = inr size →
  env_transcribe env filePath = inr t →
  pt_status t = StatusError →
  (transcribeAudio env recordingId filePath w).1 =
    inl (Throw ("Transcription failed: " +:+
                ("AssemblyAI transcription failed: " +:+ template (pt_error t)))) ∧
  recordings (db (transcribeAudio env recordingId filePath w).2) !! recordingId =
    Some (setStatus "FAILED" r) ∧
  rec_status <$>
    recordings (db (transcribeAudio env recordingId filePath w).2) !! recordingId =
    Some "FAILED"%string ∧
  recordings (db (transcribeAudio env recordingId filePath w).2) !! recordingId =
    Some {| rec_filename := rec_filename r;
            rec_originalFilename := rec_originalFilename r;
            rec_duration := rec_duration r;
            rec_status := "FAILED" |} ∧
  transcripts (db (transcribeAudio env recordingId filePath w).2) =
    transcripts (db w) ∧
  trace (transcribeAudio env recordingId filePath w).2 =
    trace w ++
    [Log Info ("Starting transcription for recording " +:+ recordingId);
     Log Info ("Updated recording " +:+ recordingId +:+ " status to TRANSCRIBING");
     Log Info fileSizeLine;
     Log Info "Sending file to AssemblyAI API...";
     Log Error "AssemblyAI transcription failed:";
     Log Error ("Transcription failed for recording " +:+ recordingId +:+ ":");
     Log Info ("Updated recording " +:+ recordingId +:+ " status to FAILED")].
Proof.
  intros Hr Hstat Hprov Hstatus.
  unfold transcribeAudio, transcribeDirectly, updateRecordingStatus,
    prisma.recording_update. unfold_M.
  cbn. rewrite Hr. cbn. rewrite Hstat. cbn. rewrite Hprov. cbn. rewrite Hstatus. cbn.
  rewrite lookup_insert_eq. cbn.
  rewrite insert_insert_eq, lookup_insert_eq.
  repeat split. by rewrite <- !app_assoc.
Qed.

(** A provider that cannot decode the file. *)
Lemma provider_error_fails_run_witness :
  (transcribeAudio (scenarioEnv failedTranscript true (inr None)) "r1" "/uploads/call.mp3"
     freshWorld).1 =
    inl (Throw ("Transcription failed: AssemblyAI transcription failed: "
                +:+ "Audio file could not be decoded")) ∧
  rec_status <$>
    recordings
      (db (transcribeAudio (scenarioEnv failedTranscript true (inr None)) "r1"
             "/uploads/call.mp3" freshWorld).2) !! "r1"%string =
    Some "FAILED"%string ∧
  transcripts
    (db (transcribeAudio (scenarioEnv failedTranscript true (inr None)) "r1"
           "/uploads/call.mp3" freshWorld).2) = ∅.
Proof.
  destruct (provider_error_fails_run (scenarioEnv failedTranscript true (inr None))
              "r1" "/uploads/call.mp3" freshWorld scenarioRecording 1024
              failedTranscript eq_refl eq_refl eq_refl eq_refl)
    as (Herr & _ & Hstatus & _ & Htr & _).
  split; [exact Herr|]. split; [exact Hstatus|exact Htr].
Defined.

(** *** The outcome of a run *)

Lemma transcribeDirectly_cases (env : Env) (recordingId filePath : string)
    (w : World) :
  ∃ (r : Exception + TranscriptionResult) (evs : list Event),
    transcribeDirectly env filePath w = (r, extend w (db w) evs) ∧
    (ChatCompletion recordingId ∉ evs) ∧
    (∀ result : TranscriptionResult, r = inr result →
       counted result ∧
       ∃ t : ProviderTranscript,
         env_transcribe env filePath = inr t ∧ pt_status t = StatusCompleted) ∧
    (∀ t : ProviderTranscript, env_transcribe env filePath = inr t →
       pt_status t = StatusCompleted → ∃ result, r = inr result).
Proof.
  unfold transcribeDirectly, getAudioDuration, parseLog, extend. unfold_M.
  destruct (env_transcribe env filePath) as [e|t]; cbn.
  { eexists _, [_; _]. split; [by rewrite <- app_assoc|].
    split; [no_chat|done]. }
  destruct (pt_status t) eqn:Hst; cbn.
  - destruct (env_ffprobe env filePath) as [d|]; cbn;
      destruct (pt_utterances t) as [us|] eqn:Hus; cbn;
      eexists _, _; (split; [rewrite <- ?app_assoc; cbn; reflexivity|]);
      (split; [no_chat|]);
      (split; [intros result [= <-]; split; [done|by exists t]|]); eauto.
  - eexists _, [_; _]. split; [by rewrite <- app_assoc|].
    split; [no_chat|].
    split; [done|]. intros t' [= <-]. congruence.
Qed.

(** Closes [e ∈ l] for an event that occurs in the list [l]. *)
Ltac has_event :=
  solve [repeat first [apply list_elem_of_here | apply list_elem_of_further]].

(** Brings a computed world to the form [extend w d evs]. *)
Ltac as_extend :=
  unfold extend; cbn; rewrite <- ?app_assoc; cbn [app]; reflexivity.

Lemma extend_nil (w : World) : w = extend w (db w) [].
Proof. destruct w. unfold extend. cbn. by rewrite app_nil_r. Qed.

Lemma storeTranscription_cases (recordingId : string)
    (result : TranscriptionResult) (w : World) :
  ∃ (r : Exception + unit) (evs : list Event) (d' : Db),
    storeTranscription recordingId result w = (r, extend w d' evs) ∧
    (ChatCompletion recordingId ∉ evs) ∧
    match transcripts (db w) !! recordingId, recordings (db w) !! recordingId with
    | None, Some _ =>
        r = inr tt ∧
        transcripts d' = <[recordingId := newTranscript result]> (transcripts (db w)) ∧
        is_Some (recordings d' !! recordingId)
    | _, _ => (∃ e : Exception, r = inl e) ∧ d' = db w
    end.
Proof.
  unfold storeTranscription, prisma.transcript_create, prisma.recording_update.
  unfold_M. cbn.
  destruct (transcripts (db w) !! recordingId) as [row|]; cbn.
  { eexists _, _, _. split; [as_extend|]. split; [no_chat|]. eauto. }
  destruct (recordings (db w) !! recordingId) as [rec|] eqn:Hrec; cbn.
  2: { eexists _, _, _. split; [as_extend|]. split; [no_chat|]. eauto. }
  destruct (negb (Qle_bool (res_duration result) 0)); cbn.
  - rewrite Hrec. cbn.
    eexists _, _, _. split; [as_extend|]. split; [no_chat|].
    cbn. split; [done|]. split; [done|]. by rewrite lookup_insert_eq.
  - eexists _, _, _. split; [as_extend|]. split; [no_chat|].
    cbn. split; [done|]. split; [done|]. by rewrite Hrec.
Qed.

Lemma identificationStep_cases (env : Env) (recordingId : string)
    (result : TranscriptionResult) (w : World) :
  ∃ (evs : list Event) (d' : Db),
    identificationStep env recordingId result w = (inr tt, extend w d' evs) ∧
    recordings d' = recordings (db w) ∧
    (ChatCompletion recordingId ∈ evs ↔ wantsIdentification env result = true) ∧
    (wantsIdentification env result = true →
     chatReply (engine w) env result = None →
     resolverWarning recordingId ∈ evs) ∧
    (transcripts d' = transcripts (db w) ∨
     ∃ (row : Transcript) (m : JSON.value),
       transcripts (db w) !! recordingId = Some row ∧
       transcripts d' =
         <[recordingId := setSpeakerNames m row]>
           (transcripts (db w))).
Proof.
  unfold identificationStep, chatReply, parsed.
  destruct (wantsIdentification env result) eqn:Hwants.
  2: { exists [], (db w). split; [unfold ret; by rewrite <- extend_nil|].
       split; [done|]. split; [|split; [done|by left]].
       split; [by intros ?%elem_of_nil|done]. }
  unfold identifySpeakers,
    storeSpeakerMapping, prisma.transcript_update,
    resolverWarning.
  unfold_M. cbn.
  destruct (env_chat env (res_segments result) (res_text result))
    as [e|[text|]]; cbn.
  1, 3: eexists _, _; (split; [as_extend|]); (split; [done|]);
        (split; [split; [done|intros _; has_event]|]);
        (split; [intros _ _; has_event|by left]).
  destruct (JS.truthy_string text); cbn.
  2: { eexists _, _. split; [as_extend|]. split; [done|].
       split; [split; [done|intros _; has_event]|].
       split; [intros _ _; has_event|by left]. }
  destruct (JSON_parse (engine w) text) as [e|m]; cbn.
  { eexists _, _. split; [as_extend|]. split; [done|].
    split; [split; [done|intros _; has_event]|].
    split; [intros _ _; has_event|by left]. }
  destruct (transcripts (db w) !! recordingId) as [row|] eqn:Hrow; cbn.
  - eexists _, _. split; [as_extend|]. split; [done|].
    split; [split; [done|intros _; has_event]|].
    split; [done|]. right. by exists row, m.
  - eexists _, _. split; [as_extend|]. split; [done|].
    split; [split; [done|intros _; has_event]|].
    split; [intros _ _; has_event|by left].
Qed.

Lemma bind_cases {A B : Type} (m : M A) (k : A → M B) (w w' : World)
    (r : Exception + B) :
  bind m k w = (r, w') →
  (∃ (a : A) (w1 : World), m w = (inr a, w1) ∧ k a w1 = (r, w')) ∨
  (∃ e : Exception, m w = (inl e, w') ∧ r = inl e).
Proof.
  unfold bind. destruct (m w) as [[e|a] w1]; [|by eauto].
  intros [= <- <-]. eauto.
Qed.

Lemma try_catch_cases {A : Type} (m : M A) (h : Exception → M A) (w w' : World)
    (r : Exception + A) :
  try_catch m h w = (r, w') →
  (∃ a : A, m w = (inr a, w') ∧ r = inr a) ∨
  (∃ (e : Exception) (w1 : World), m w = (inl e, w1) ∧ h e w1 = (r, w')).
Proof.
  unfold try_catch. destruct (m w) as [[e|a] w1]; [by eauto|].
  intros [= <- <-]. eauto.
Qed.

Lemma logger_cases (l : Level) (s : string) (w w' : World) (r : Exception + unit) :
  logger l s w = (r, w') → r = inr tt ∧ w' = extend w (db w) [Log l s].
Proof. by intros [= <- <-]. Qed.

Lemma failure_handler (recordingId : string) (e : Exception) (w w' : World)
    (r : Exception + TranscriptionResult) :
  (do logger Error ("Transcription failed for recording " +:+ recordingId +:+ ":") then
   do updateRecordingStatus recordingId "FAILED" then
   throw e)%M w = (r, w') →
  (∃ e' : Exception, r = inl e') ∧ transcripts (db w') = transcripts (db w).
Proof.
  unfold bind, logger, emit, throw. rewrite updateRecordingStatus_cases. cbn.
  destruct (recordings (db w) !! recordingId); cbn; intros [= <- <-]; eauto.
Qed.

(** The body of [transcribeAudio] inside its [try]. *)
Lemma transcribeAudio_body (env : Env) (recordingId filePath : string)
    (w w' : World) (r : Exception + TranscriptionResult) :
  (do logger Info ("Starting transcription for recording " +:+ recordingId) then
   do updateRecordingStatus recordingId "TRANSCRIBING" then
   let* fileSize := liftE (env_statSync env filePath) in
   do logger Info fileSizeLine then
   let* transcriptionResult := transcribeDirectly env filePath in
   do storeTranscription recordingId transcriptionResult then
   do identificationStep env recordingId transcriptionResult then
   do updateRecordingStatus recordingId "COMPLETED" then
   do logger Info ("Transcription completed for recording " +:+ recordingId) then
   ret transcriptionResult)%M w = (r, w') →
  ((∃ e : Exception, r = inl e) ∧
   transcripts (db w') = transcripts (db w) ∧
   ¬ runnable env recordingId filePath w) ∨
  (∃ (result : TranscriptionResult) (evs : list Event) (row : Transcript),
     r = inr result ∧
     runnable env recordingId filePath w ∧
     counted result ∧
     trace w' = trace w ++ evs ∧
     (ChatCompletion recordingId ∈ evs ↔ wantsIdentification env result = true) ∧
     (wantsIdentification env result = true →
      chatReply (engine w) env result = None →
      resolverWarning recordingId ∈ evs) ∧
     rec_status <$> recordings (db w') !! recordingId = Some "COMPLETED"%string ∧
     transcripts (db w') !! recordingId = Some row ∧
     tr_content row = res_segments result ∧
     tr_speakerCount row = speakerCountOr1 (res_speakerCount result)).
Proof.
  intros H.
  (* the first log line *)
  apply bind_cases in H as [(u & w1 & H1 & H)|(e & H1 & _)];
    [|by apply logger_cases in H1 as [? _]].
  apply logger_cases in H1 as [_ ->].
  (* status TRANSCRIBING *)
  apply bind_cases in H as [(u1 & w2 & H2 & H)|(e & H2 & ->)];
    rewrite updateRecordingStatus_cases in H2; cbn [db trace extend] in H2;
    destruct (recordings (db w) !! recordingId) as [rec|] eqn:Hrec;
    try discriminate H2.
  2: { injection H2 as <- <-. left. split; [by eexists|]. split; [by cbn|].
       intros ([x Hx] & _). congruence. }
  injection H2 as _ <-.
  (* the size of the file *)
  apply bind_cases in H as [(size & w3 & H3 & H)|(e & H3 & ->)];
    unfold liftE, ret, throw in H3;
    destruct (env_statSync env filePath) as [e0|size0] eqn:Hstat;
    try discriminate H3.
  2: { injection H3 as <- <-. left. split; [by eexists|]. split; [by cbn|].
       intros (_ & _ & [x Hx] & _). congruence. }
  injection H3 as _ <-.
  apply bind_cases in H as [(u4 & w4 & H4 & H)|(e & H4 & _)];
    [|by apply logger_cases in H4 as [? _]].
  apply logger_cases in H4 as [_ ->].
  (* the provider *)
  match type of H with bind _ _ ?w0 = _ =>
    destruct (transcribeDirectly_cases env recordingId filePath w0)
      as (r5 & evs5 & Hdir & Hno5 & Hresult & Hcompleted)
  end.
  apply bind_cases in H as [(result & w5 & H5 & H)|(e & H5 & ->)];
    rewrite Hdir in H5; injection H5 as -> <-.
  2: { left. split; [by eexists|]. split; [by cbn|].
       intros (_ & _ & _ & t & Ht & Hst).
       destruct (Hcompleted t Ht Hst) as [result ?]. congruence. }
  destruct (Hresult result eq_refl) as (Hcounted & t & Ht & Hst).
  (* the transcript row *)
  match type of H with bind _ _ ?w0 = _ =>
    destruct (storeTranscription_cases recordingId result w0)
      as (r6 & evs6 & d6 & Hstore & Hno6 & Hrow)
  end.
  cbn [db trace extend transcripts recordings] in Hrow.
  rewrite lookup_insert_eq in Hrow.
  apply bind_cases in H as [(u6 & w6 & H6 & H)|(e & H6 & ->)];
    rewrite Hstore in H6; injection H6 as -> <-;
    destruct (transcripts (db w) !! recordingId) as [old|] eqn:Hold.
  { by destruct Hrow as [[e' ?] _]. }
  2: { destruct Hrow as [_ ->]. left. split; [by eexists|]. split; [by cbn|].
       intros (_ & ? & _). congruence. }
  2: { by destruct Hrow as [? _]. }
  destruct Hrow as (_ & Hcreated & [rec6 Hrec6]).
  (* the resolver *)
  match type of H with bind _ _ ?w0 = _ =>
    destruct (identificationStep_cases env recordingId result w0)
      as (evs7 & d7 & Hstep & Hrecs7 & Hchat & Hwarn & Htrs7)
  end.
  cbn [db trace extend transcripts recordings] in Hrecs7, Htrs7.
  apply bind_cases in H as [(u7 & w7 & H7 & H)|(e & H7 & ->)];
    rewrite Hstep in H7; [|discriminate H7].
  injection H7 as _ <-.
  (* status COMPLETED *)
  apply bind_cases in H as [(u8 & w8 & H8 & H)|(e & H8 & ->)];
    rewrite updateRecordingStatus_cases in H8;
    cbn [db trace extend transcripts recordings] in H8;
    rewrite Hrecs7, Hrec6 in H8; [|discriminate H8].
  injection H8 as _ <-.
  apply bind_cases in H as [(u9 & w9 & H9 & H)|(e & H9 & _)];
    [|by apply logger_cases in H9 as [? _]].
  apply logger_cases in H9 as [_ ->].
  injection H as <- <-.
  assert (∃ row : Transcript,
            transcripts d7 !! recordingId = Some row ∧
            tr_content row = res_segments result ∧
            tr_speakerCount row = speakerCountOr1 (res_speakerCount result))
    as (row7 & Hrow7 & Hcontent & Hcount).
  { destruct Htrs7 as [->|(row & m & Hrow & ->)].
    - exists (newTranscript result). by rewrite Hcreated, lookup_insert_eq.
    - rewrite Hcreated, lookup_insert_eq in Hrow. injection Hrow as <-.
      eexists. by rewrite lookup_insert_eq. }
  right. exists result. eexists _, row7.
  split; [done|]. split; [by repeat split; eauto|]. split; [done|].
  split; [unfold extend; cbn; rewrite <- !app_assoc; cbn [app]; reflexivity|].
  split; [|split; [|split; [|split]]].
  - rewrite <- Hchat. split.
    + intros Hin.
      repeat (apply elem_of_cons in Hin as [Hin|Hin]; [discriminate Hin|]).
      apply elem_of_app in Hin as [Hin|Hin]; [done|].
      apply elem_of_app in Hin as [Hin|Hin]; [done|].
      apply elem_of_app in Hin as [Hin|Hin]; [done|].
      repeat (apply elem_of_cons in Hin as [Hin|Hin]; [discriminate Hin|]).
      by apply elem_of_nil in Hin.
    + intros Hin. do 3 apply list_elem_of_further.
      apply elem_of_app. right. apply elem_of_app. right.
      apply elem_of_app. by left.
  - intros Hwants Hreply. specialize (Hwarn Hwants Hreply).
    do 3 apply list_elem_of_further.
    apply elem_of_app. right. apply elem_of_app. right.
    apply elem_of_app. by left.
  - cbn. by rewrite lookup_insert_eq.
  - done.
  - done.
Qed.

Lemma transcribeAudio_outcome (env : Env) (recordingId filePath : string)
    (w w' : World) (r : Exception + TranscriptionResult) :
  transcribeAudio env recordingId filePath w = (r, w') →
  ((∃ e : Exception, r = inl e) ∧
   transcripts (db w') = transcripts (db w) ∧
   ¬ runnable env recordingId filePath w) ∨
  (∃ (result : TranscriptionResult) (evs : list Event) (row : Transcript),
     r = inr result ∧
     runnable env recordingId filePath w ∧
     counted result ∧
     trace w' = trace w ++ evs ∧
     (ChatCompletion recordingId ∈ evs ↔ wantsIdentification env result = true) ∧
     (wantsIdentification env result = true →
      chatReply (engine w) env result = None →
      resolverWarning recordingId ∈ evs) ∧
     rec_status <$> recordings (db w') !! recordingId = Some "COMPLETED"%string ∧
     transcripts (db w') !! recordingId = Some row ∧
     tr_content row = res_segments result ∧
     tr_speakerCount row = speakerCountOr1 (res_speakerCount result)).
Proof.
  intros H. unfold transcribeAudio in H.
  apply try_catch_cases in H as [(a & H & ->)|(e & w1 & H & Hh)].
  - apply transcribeAudio_body in H as [([e ?] & _)|H]; [done|by right].
  - apply transcribeAudio_body in H as [(_ & Htr & Hnot)|H].
    + apply failure_handler in Hh as [He Htr']. left.
      split; [done|]. split; [congruence|done].
    + by destruct H as (result & evs & row & ? & _).
Qed.

Lemma wantsIdentification_true (env : Env) (result : TranscriptionResult) :
  wantsIdentification env result = true ↔
  env_speakerIdentificationService env = true ∧
  ∃ n : Z, res_speakerCount result = Some n ∧ (1 < n)%Z.
Proof.
  unfold wantsIdentification. rewrite andb_true_iff.
  destruct (res_speakerCount result) as [n|].
  - rewrite andb_true_iff, negb_true_iff, Z.eqb_neq, Z.ltb_lt. split.
    + intros (? & ? & ?). eauto.
    + intros (? & n' & [= <-] & ?). repeat split; [done|lia|done].
  - split; [by intros [_ ?]|]. by intros (_ & n & ? & _).
Qed.

Lemma transcribeAudio_runs (env : Env) (recordingId filePath : string) (w : World) :
  runnable env recordingId filePath w →
  ∃ (result : TranscriptionResult) (w' : World),
    transcribeAudio env recordingId filePath w = (inr result, w').
Proof.
  intros Hrun.
  destruct (transcribeAudio env recordingId filePath w) as [r w'] eqn:H.
  apply transcribeAudio_outcome in H as [(_ & _ & Hnot)|H]; [done|].
  destruct H as (result & _ & _ & -> & _). eauto.
Qed.

(** C7. In a run of [transcribeAudio] that returns a result, the language
    model is asked to identify the speakers if and only if the service is
    available and the computed speaker count is greater than 1; when it is
    asked and the request throws, or the reply is absent, empty or not
    JSON, the warning of the failure is in the log; and the recording's
    status is [COMPLETED] when the run ends.
    A run whose recording exists without a transcript, whose file can be
    read and whose provider completes always returns a result, whatever the
    resolver does. *)
Theorem resolver_only_for_several_speakers (env : Env)
    (recordingId filePath : string) (w : World) :
  (∀ (result : TranscriptionResult) (w' : World),
     transcribeAudio env recordingId filePath w = (inr result, w') →
     ∃ evs : list Event,
       trace w' = trace w ++ evs ∧
       (ChatCompletion recordingId ∈ evs ↔
          env_speakerIdentificationService env = true ∧
          ∃ n : Z, res_speakerCount result = Some n ∧ (1 < n)%Z) ∧
       (ChatCompletion recordingId ∈ evs → chatReply (engine w) env result = None →
          resolverWarning recordingId ∈ evs) ∧
       rec_status <$> recordings (db w') !! recordingId = Some "COMPLETED"%string) ∧
  (runnable env recordingId filePath w →
   ∃ (result : TranscriptionResult) (w' : World),
     transcribeAudio env recordingId filePath w = (inr result, w')).
Proof.
  split; [|apply transcribeAudio_runs].
  intros result w' H.
  apply transcribeAudio_outcome in H as [([e ?] & _)|H]; [done|].
  destruct H as (result' & evs & row & [= <-] & _ & _ & Htrace & Hchat & Hwarn
                 & Hstatus & _).
  exists evs. split; [done|]. split; [by rewrite Hchat, wantsIdentification_true|].
  split; [|done]. intros Hin. apply Hwarn. by apply Hchat.
Qed.

Lemma speakerCountOr1_counted (result : TranscriptionResult) :
  counted result →
  speakerCountOr1 (res_speakerCount result) =
    Z.max 1 (Z.of_nat (size (speakerSet (res_segments result)))).
Proof.
  unfold counted. intros ->. unfold speakerCountOr1.
  destruct (Z.eqb_spec (Z.of_nat (size (speakerSet (res_segments result)))) 0); lia.
Qed.

Lemma speakerSet_no_tags (segs : list Segment) :
  Forall (λ s, seg_speaker s = None) segs → size (speakerSet segs) = 0.
Proof.
  intros H. unfold speakerSet.
  replace (omap _ segs) with (@nil string); [done|].
  induction H as [|s l Hs _ IH]; [done|]. cbn. by rewrite Hs.
Qed.

(** C10. A transcript row that a run creates has a speaker count of at
    least 1: it is the number of distinct non-empty speaker tags of the
    stored segments, and 1 when that number is 0, as when no segment has a
    tag. *)
Theorem stored_speaker_count_at_least_one (env : Env)
    (recordingId filePath : string) (w : World) (row : Transcript) :
  transcripts (db w) !! recordingId = None →
  transcripts (db (transcribeAudio env recordingId filePath w).2) !! recordingId
    = Some row →
  (1 ≤ tr_speakerCount row)%Z ∧
  tr_speakerCount row = Z.max 1 (Z.of_nat (size (speakerSet (tr_content row)))) ∧
  (Forall (λ s, seg_speaker s = None) (tr_content row) →
   tr_speakerCount row = 1%Z).
Proof.
  intros Hnone Hrow.
  destruct (transcribeAudio env recordingId filePath w) as [r w'] eqn:H.
  cbn [snd] in Hrow.
  apply transcribeAudio_outcome in H as [(_ & Htr & _)|H]; [congruence|].
  destruct H as (result & evs & row' & _ & _ & Hcounted & _ & _ & _ & _
                 & Hrow' & Hcontent & Hcount).
  assert (row' = row) as -> by congruence.
  rewrite (speakerCountOr1_counted _ Hcounted), <- Hcontent in Hcount.
  split; [lia|]. split; [done|].
  intros Hnotags. rewrite Hcount, (speakerSet_no_tags _ Hnotags). done.
Qed.

Lemma freshWorld_runnable (t : ProviderTranscript) (service : bool)
    (chat : Exception + option string) :
  pt_status t = StatusCompleted →
  runnable (scenarioEnv t service chat) "r1" "/uploads/call.mp3" freshWorld.
Proof.
  intros Hst. split; [by eexists|]. split; [done|]. split; [by eexists|].
  by exists t.
Qed.

(** Two speakers, and a language model that cannot be reached. *)
Lemma resolver_only_for_several_speakers_witness :
  ∃ evs : list Event,
    trace (transcribeAudio
             (scenarioEnv twoUtterances true (inl (Throw "Connection error.")))
             "r1" "/uploads/call.mp3" freshWorld).2 = evs ∧
    ChatCompletion "r1" ∈ evs ∧
    resolverWarning "r1" ∈ evs ∧
    rec_status <$>
      recordings
        (db (transcribeAudio
               (scenarioEnv twoUtterances true (inl (Throw "Connection error.")))
               "r1" "/uploads/call.mp3" freshWorld).2) !! "r1"%string
      = Some "COMPLETED"%string.
Proof.
  destruct (resolver_only_for_several_speakers
              (scenarioEnv twoUtterances true (inl (Throw "Connection error.")))
              "r1" "/uploads/call.mp3" freshWorld) as [Hrun Hsucceeds].
  destruct (Hsucceeds (freshWorld_runnable twoUtterances true _ eq_refl))
    as (result & w' & H).
  destruct (Hrun result w' H) as (evs & Htrace & Hchat & Hwarn & Hstatus).
  rewrite H. cbn [snd]. exists evs.
  assert (Hresult : result =
            (let r := (transcribeAudio
                         (scenarioEnv twoUtterances true (inl (Throw "Connection error.")))
                         "r1" "/uploads/call.mp3" freshWorld).1 in
             match r with inr x => x | inl _ => result end)).
  { by rewrite H. }
  assert (Hin : ChatCompletion "r1" ∈ evs).
  { apply Hchat. split; [done|]. exists 2%Z. split; [|done].
    rewrite Hresult. by vm_compute. }
  split; [by rewrite Htrace|]. split; [done|]. split; [|done].
  apply Hwarn; [done|]. rewrite Hresult. by vm_compute.
Defined.

(** A transcript without any speaker tag is stored with speaker count 1. *)
Lemma stored_speaker_count_at_least_one_witness :
  ∃ row : Transcript,
    transcripts
      (db (transcribeAudio (scenarioEnv (textOnly "hello") false (inr None))
             "r1" "/uploads/call.mp3" freshWorld).2) !! "r1"%string = Some row ∧
    tr_speakerCount row = 1%Z.
Proof.
  eexists. split; [by vm_compute|].
  refine (proj2 (proj2 (stored_speaker_count_at_least_one
            (scenarioEnv (textOnly "hello") false (inr None))
            "r1" "/uploads/call.mp3" freshWorld _ eq_refl _)) _).
  - by vm_compute.
  - by repeat constructor.
Defined.

(** ** More on the word loop *)

(** The segments after one iteration: those before, and the closed segment
    when the iteration closes one. *)
Lemma loopBody_segments (ws : list Word) (st : LoopState) (k : nat) (w : Word) :
  ws !! k = Some w →
  segments (loopBody ws st k) =
    if closesAt ws st k w then segments st ++ [closedSegment st k w] else segments st.
Proof.
  intros Hw. unfold loopBody, closesAt, closedSegment. rewrite Hw. cbv zeta.
  destruct (closesSegment _ _ _ _); [|done].
  destruct (negb _); [done|]. by destruct (_ <? _).
Qed.

Lemma loopUpTo_segments_S (ws : list Word) (k : nat) (w : Word) :
  ws !! k = Some w →
  segments (loopUpTo ws (S k)) = segments (loopUpTo ws k) ∨
  segments (loopUpTo ws (S k)) =
    segments (loopUpTo ws k) ++ [closedSegment (loopUpTo ws k) k w].
Proof.
  intros Hw. rewrite loopUpTo_S, (loopBody_segments _ _ _ _ Hw).
  destruct (closesAt _ _ _ _); auto.
Qed.

Lemma loopUpTo_length (ws : list Word) (k : nat) :
  k ≤ length ws → length (segments (loopUpTo ws k)) ≤ k.
Proof.
  induction k as [|k IH]; intros Hk; [done|].
  destruct (lookup_lt_is_Some_2 ws k ltac:(lia)) as [w Hw].
  destruct (loopUpTo_segments_S ws k w Hw) as [->| ->].
  - etrans; [apply IH; lia|lia].
  - rewrite length_app. cbn [length]. specialize (IH ltac:(lia)). lia.
Qed.

(** X1. The word loop never returns more segments than it was given words,
    and returns at least one segment when there is a word. *)
Theorem groupWords_at_most_one_per_word (ws : list Word) :
  Nat.min 1 (length ws) ≤ length (groupWords ws) ≤ length ws.
Proof.
  split; [|by apply loopUpTo_length].
  pose proof (groupWords_nonempty ws) as Hne.
  destruct ws as [|w ws']; [cbn; lia|].
  destruct (groupWords (w :: ws')); [by exfalso; apply Hne|cbn; lia].
Qed.

(** The start of the segment in progress after an iteration that closes
    none, and the start of the first segment, are the start of the first word. *)
Lemma loopUpTo_first_start (ws : list Word) (w0 : Word) (k : nat) :
  ws !! 0%nat = Some w0 → 0 < k → k ≤ length ws →
  match segments (loopUpTo ws k) with
  | [] => segmentStart (loopUpTo ws k) = ms_to_s (word_start w0)
  | s :: _ => seg_start s = ms_to_s (word_start w0)
  end.
Proof.
  intros H0. induction k as [|k IH]; intros Hpos Hk; [lia|].
  destruct (lookup_lt_is_Some_2 ws k ltac:(lia)) as [w Hw].
  rewrite loopUpTo_S.
  pose proof (loopBody_segments ws (loopUpTo ws k) k w Hw) as Hsegs.
  destruct (Nat.eqb_spec k 0) as [->|Hk0].
  - assert (w = w0) as -> by congruence.
    change (loopUpTo ws 0) with loopInit in *.
    destruct (closesAt ws loopInit 0 w0) eqn:Hc.
    + rewrite Hsegs. done.
    + rewrite Hsegs. cbn [segments loopInit].
      unfold loopBody. rewrite H0. cbv zeta.
      unfold closesAt in Hc. cbn [Nat.eqb] in *. by rewrite Hc.
  - specialize (IH ltac:(lia) ltac:(lia)).
    destruct (closesAt ws (loopUpTo ws k) k w) eqn:Hc; rewrite Hsegs.
    + destruct (segments (loopUpTo ws k)) as [|s l]; cbn; [|done].
      unfold closedSegment. cbn. by destruct (Nat.eqb_spec k 0).
    + destruct (segments (loopUpTo ws k)) as [|s l]; [|done].
      unfold loopBody. rewrite Hw. cbv zeta.
      unfold closesAt in Hc. rewrite Hc. cbn.
      by destruct (Nat.eqb_spec k 0).
Qed.

Lemma groupWords_last (ws : list Word) (w : Word) :
  last ws = Some w →
  last (groupWords ws) =
    Some (closedSegment (loopUpTo ws (length ws - 1)) (length ws - 1) w).
Proof.
  intros Hl. rewrite last_lookup in Hl.
  replace (Init.Nat.pred (length ws)) with (length ws - 1) in Hl by lia.
  assert (0 < length ws) by (apply lookup_lt_Some in Hl; lia).
  unfold groupWords.
  replace (length ws) with (S (length ws - 1)) at 1 by lia.
  rewrite loopUpTo_S, (loopBody_segments _ _ _ _ Hl).
  unfold closesAt, closesSegment. rewrite Nat.eqb_refl, !orb_true_r.
  by rewrite last_snoc.
Qed.

(** X2. The segments of the word loop span the words: the first segment
    starts where the first word starts and the last segment ends where the
    last word ends, both in seconds. *)
Theorem groupWords_span (ws : list Word) (first last_word : Word) :
  head ws = Some first → last ws = Some last_word →
  ∃ s e : Segment,
    head (groupWords ws) = Some s ∧ last (groupWords ws) = Some e ∧
    seg_start s = ms_to_s (word_start first) ∧
    seg_end e = ms_to_s (word_end last_word).
Proof.
  intros Hh Hl. rewrite head_lookup in Hh.
  assert (0 < length ws) by (apply lookup_lt_Some in Hh; lia).
  pose proof (loopUpTo_first_start ws first (length ws) Hh ltac:(lia) ltac:(lia)) as Hs.
  pose proof (groupWords_last ws last_word Hl) as He.
  fold (groupWords ws) in Hs.
  destruct (groupWords ws) as [|s l] eqn:Hg; [done|].
  eexists s, _. split; [done|]. split; [exact He|]. by split.
Qed.

Lemma groupWords_span_witness :
  ∃ s e : Segment,
    head (groupWords [spoken "a" "A" 0 100; spoken "b" "B" 100 200; spoken "c" "B" 200 300])
      = Some s ∧
    last (groupWords [spoken "a" "A" 0 100; spoken "b" "B" 100 200; spoken "c" "B" 200 300])
      = Some e ∧
    seg_start s = ms_to_s 0 ∧ seg_end e = ms_to_s 300.
Proof.
  exact (groupWords_span
           [spoken "a" "A" 0 100; spoken "b" "B" 100 200; spoken "c" "B" 200 300]
           (spoken "a" "A" 0 100) (spoken "c" "B" 200 300) eq_refl eq_refl).
Defined.

(** *** The form of the speaker tags *)

Lemma speakerTag_tagOf (ids : list string) (o : option string) (tag : string) :
  (∀ id : string, o = Some id → id ∈ ids) →
  speakerTag o = Some tag → tagOf ids tag.
Proof.
  intros Hin. destruct o as [id|]; [|done]. cbn.
  destruct id as [|c id]; [done|]. intros [= <-].
  exists (String c id). split; [by apply Hin|]. done.
Qed.

Lemma word_speaker_id (ws : list Word) (i : nat) (w : Word) (id : string) :
  ws !! i = Some w → word_speaker w = Some id → id ∈ omap word_speaker ws.
Proof.
  intros Hw Hid. apply list_elem_of_omap. exists w.
  split; [by apply (list_elem_of_lookup_2 _ i)|done].
Qed.

Lemma speakerTag_word (ws : list Word) (i : nat) (w : Word) (tag : string) :
  ws !! i = Some w → speakerTag (word_speaker w) = Some tag →
  tagOf (omap word_speaker ws) tag.
Proof.
  intros Hw. apply speakerTag_tagOf. intros id. by apply (word_speaker_id ws i).
Qed.

Lemma loopUpTo_tags (ws : list Word) (k : nat) :
  k ≤ length ws →
  (∀ tag : string, currentSpeaker (loopUpTo ws k) = Some tag →
     tagOf (omap word_speaker ws) tag) ∧
  Forall (λ s, ∀ tag : string, seg_speaker s = Some tag →
                 tagOf (omap word_speaker ws) tag)
    (segments (loopUpTo ws k)).
Proof.
  induction k as [|k IH]; intros Hk; [by split|].
  destruct (lookup_lt_is_Some_2 ws k ltac:(lia)) as [w Hw].
  destruct (IH ltac:(lia)) as [Hcur Hsegs].
  set (sp0 := if (k =? 0)%nat then speakerTag (word_speaker w)
              else currentSpeaker (loopUpTo ws k)).
  assert (Hsp0 : ∀ tag : string, sp0 = Some tag → tagOf (omap word_speaker ws) tag).
  { unfold sp0. destruct (k =? 0)%nat; [|done]. intros tag. by apply (speakerTag_word ws k). }
  split.
  - rewrite loopUpTo_S. unfold loopBody. rewrite Hw. cbv zeta. fold sp0.
    destruct (closesSegment _ _ _ _); [|done].
    destruct (negb _); cbn [currentSpeaker].
    + intros tag. by apply (speakerTag_word ws k).
    + destruct (_ <? _); [|done]. cbn [currentSpeaker].
      destruct (ws !! (k + 1)%nat) as [w'|] eqn:Hw'; [|done].
      intros tag. by apply (speakerTag_word ws (k + 1)).
  - rewrite loopUpTo_S, (loopBody_segments _ _ _ _ Hw).
    destruct (closesAt _ _ _ _); [|done].
    apply Forall_app. split; [done|]. constructor; [|done].
    unfold closedSegment. cbn [seg_speaker]. fold sp0.
    destruct (JS.truthy sp0); [done|]. by intros tag.
Qed.

(** X3. Whatever the response holds, a speaker tag of a returned segment is
    the word [Speaker] followed by a non-empty speaker id of the array the
    normaliser reads. *)
Theorem normaliser_tags_from_ids (t : ProviderTranscript) (s : Segment)
    (tag : string) :
  s ∈ parseAssemblyAISegmentsWithSpeakers t → seg_speaker s = Some tag →
  tagOf (speakerIds t) tag.
Proof.
  unfold parseAssemblyAISegmentsWithSpeakers, speakerIds.
  destruct (pt_utterances t) as [us|]; [|destruct (pt_words t) as [ws|]].
  - intros (u & -> & Hu)%list_elem_of_fmap. cbn [utteranceToSegment seg_speaker].
    apply speakerTag_tagOf. intros id Hid. apply list_elem_of_omap. by exists u.
  - intros Hs Htag.
    destruct (loopUpTo_tags ws (length ws) (Nat.le_refl _)) as [_ Hsegs].
    rewrite Forall_forall in Hsegs. by apply (Hsegs s).
  - intros ->%list_elem_of_singleton. done.
Qed.

Lemma normaliser_tags_from_ids_witness :
  tagOf ["A"; "B"; "B"]%string "Speaker A".
Proof.
  apply (normaliser_tags_from_ids
           (wordsOnly [spoken "a" "A" 0 100; spoken "b" "B" 100 200; spoken "c" "B" 200 300])
           {| seg_start := ms_to_s 0; seg_end := ms_to_s 200;
              seg_text := "a b"; seg_speaker := Some "Speaker A"%string |}
           "Speaker A").
  - vm_compute. apply list_elem_of_here.
  - reflexivity.
Defined.

(** *** Segments of positive length *)

Lemma loopUpTo_durations (ws : list Word) (k : nat) :
  orderedBy word_start ws → wellTimed ws → k ≤ length ws →
  Forall (λ s, (seg_start s <= seg_end s)%Q) (segments (loopUpTo ws k)).
Proof.
  intros Hord Htimed. induction k as [|k IH]; intros Hk; [constructor|].
  destruct (lookup_lt_is_Some_2 ws k ltac:(lia)) as [w Hw].
  rewrite loopUpTo_S, (loopBody_segments _ _ _ _ Hw).
  destruct (closesAt _ _ _ _); [|apply IH; lia].
  apply Forall_app. split; [apply IH; lia|]. constructor; [|done].
  unfold closedSegment. cbn [seg_start seg_end].
  assert (Hw' : (ms_to_s (word_start w) <= ms_to_s (word_end w))%Q).
  { apply ms_to_s_mono. unfold wellTimed in Htimed. rewrite Forall_lookup in Htimed.
    by apply (Htimed k). }
  destruct (Nat.eqb_spec k 0) as [->|Hk0]; [done|].
  destruct (orderInv_upTo ws Hord k ltac:(lia)) as (_ & _ & _ & Hbound).
  eapply Qle_trans; [|exact Hw']. apply Hbound; [lia|done].
Qed.

(** X4. When the words are ordered by start time and no word ends before
    it starts, no segment of the word loop ends before it starts. *)
Theorem groupWords_durations (ws : list Word) :
  orderedBy word_start ws → wellTimed ws →
  Forall (λ s, (seg_start s <= seg_end s)%Q) (groupWords ws).
Proof. intros Hord Htimed. by apply loopUpTo_durations. Qed.

Lemma scenarioWords_ordered (id : string) (n : nat) :
  orderedBy word_start (scenarioWords id n).
Proof.
  intros i j a b Hij Ha Hb. unfold scenarioWords in *.
  rewrite list_lookup_fmap in Ha, Hb.
  destruct (seq 0 n !! i) as [x|] eqn:Hx; [|done].
  destruct (seq 0 n !! j) as [y|] eqn:Hy; [|done].
  apply lookup_seq in Hx as [-> _]. apply lookup_seq in Hy as [-> _].
  cbn in Ha, Hb. simplify_eq. cbn. rewrite <- Zle_Qle. lia.
Qed.

Lemma scenarioWords_wellTimed (id : string) (n : nat) :
  wellTimed (scenarioWords id n).
Proof.
  apply Forall_fmap, Forall_forall. intros i _. cbn. rewrite <- Zle_Qle. lia.
Qed.

Lemma groupWords_durations_witness :
  Forall (λ s, (seg_start s <= seg_end s)%Q) (groupWords (scenarioWords "A" 120)).
Proof.
  apply (groupWords_durations (scenarioWords "A" 120)).
  - apply scenarioWords_ordered.
  - apply scenarioWords_wellTimed.
Defined.

(** *** Where the segments end *)





(** *** One speaker, with punctuation *)

Section OneSpeaker.
Variable ws : list Word.
Variable tag : option string.
Hypothesis Htag : ∀ (i : nat) (w : Word),
  ws !! i = Some w → speakerTag (word_speaker w) = tag.

(** The loop body on a word that does not change the speaker. *)
Lemma loopBody_one_speaker (k : nat) (w : Word) (st : LoopState) :
  ws !! k = Some w → (0 < k → currentSpeaker st = tag) →
  let text := (currentSegment st +:+ (word_text w +:+ " "))%string in
  let closes := closesSegment (length ws) k false w in
  segments (loopBody ws st k) =
    (if closes
     then segments st ++
          [{| seg_start := if k =? 0 then ms_to_s (word_start w) else segmentStart st;
              seg_end := ms_to_s (word_end w);
              seg_text := JS.trim text;
              seg_speaker := tag |}]
     else segments st) ∧
  currentSegment (loopBody ws st k) = (if closes then ""%string else text) ∧
  currentSpeaker (loopBody ws st k) = tag.
Proof.
  intros Hw Hsp text closes. unfold loopBody. rewrite Hw. cbv zeta.
  assert (E : (if k =? 0 then speakerTag (word_speaker w) else currentSpeaker st) = tag).
  { destruct (Nat.eqb_spec k 0) as [->|Hk]; [by apply (Htag 0)|apply Hsp; lia]. }
  rewrite E, (Htag k w Hw), bool_decide_eq_true_2 by done.
  cbn [negb]. fold closes. fold text.
  rewrite <- (Htag k w Hw), truthy_speakerTag, (Htag k w Hw).
  destruct closes eqn:Hc; [|done].
  destruct (k <? length ws - 1) eqn:Hlt; cbn; [|done].
  repeat split; try done.
  apply Nat.ltb_lt in Hlt.
  destruct (ws !! (k + 1)) as [w'|] eqn:Hw'.
  - cbn. by apply (Htag (k + 1)).
  - apply lookup_ge_None in Hw'. lia.
Qed.

Lemma one_speaker_upTo (k : nat) :
  k ≤ length ws →
  ∃ (chunks : list (list Word)) (open : list Word),
    take k ws = concat chunks ++ open ∧
    Forall2 (chunkSegment tag) chunks (segments (loopUpTo ws k)) ∧
    currentSegment (loopUpTo ws k) = wordsText open ∧
    (0 < k → currentSpeaker (loopUpTo ws k) = tag) ∧
    Forall sentenceChunk chunks ∧
    noSentenceEnd open ∧
    (k = length ws → open = []).
Proof.
  induction k as [|k IH]; intros Hk.
  { exists [], []. rewrite take_0. cbn. repeat split; try done; try lia;
      constructor. }
  destruct (IH ltac:(lia)) as (chunks & open & Htake & HF & Hcur & Hsp & Hchunks & Hopen & _).
  destruct (lookup_lt_is_Some_2 ws k ltac:(lia)) as [w Hw].
  rewrite loopUpTo_S.
  destruct (loopBody_one_speaker k w (loopUpTo ws k) Hw Hsp) as (Hs & Hc & Hp).
  assert (Htake' : take (S k) ws = concat chunks ++ (open ++ [w])).
  { rewrite (take_S_r _ _ _ Hw), Htake. by rewrite <- app_assoc. }
  destruct (closesSegment (length ws) k false w) eqn:Hcl.
  - exists (chunks ++ [open ++ [w]]), []. repeat split; try done.
    + rewrite concat_app. cbn. by rewrite !app_nil_r.
    + rewrite Hs. apply Forall2_app; [done|]. constructor; [|done].
      split; cbn; [|done]. by rewrite Hcur, wordsText_snoc.
    + apply Forall_app. split; [done|]. constructor; [|done]. by exists open, w.
    + constructor.
  - exists chunks, (open ++ [w]). repeat split; try done.
    + by rewrite Hs.
    + by rewrite Hc, Hcur, wordsText_snoc.
    + apply Forall_app. split; [done|]. constructor; [|done].
      unfold closesSegment in Hcl. cbn [orb] in Hcl.
      by destruct (JS.ends_sentence (word_text w)).
    + intros Hlast. exfalso. unfold closesSegment in Hcl.
      replace (k =? length ws - 1)%nat with true in Hcl; [by rewrite orb_true_r in Hcl|].
      symmetry. apply Nat.eqb_eq. lia.
Qed.

End OneSpeaker.

(** X6. When no word changes the speaker, whatever the punctuation, the
    segments of the word loop partition the words: the words split into
    consecutive chunks, one per segment and in order, a segment's text is
    the trimmed text of its chunk and its speaker the common tag; no chunk
    is empty, and a word that ends a sentence is the last of its chunk. *)
Theorem one_speaker_partition (ws : list Word) :
  sameSpeakerThroughout ws →
  ∃ chunks : list (list Word),
    concat chunks = ws ∧
    Forall2 (chunkSegment (head ws ≫= λ w, speakerTag (word_speaker w)))
      chunks (groupWords ws) ∧
    Forall sentenceChunk chunks.
Proof.
  intros Hsame.
  destruct ws as [|w0 ws'] eqn:Ews.
  { exists []. by repeat split; constructor. }
  rewrite <- Ews in *.
  assert (Hhead : head ws = Some w0) by by rewrite Ews.
  rewrite Hhead. cbn [mbind option_bind].
  set (tag := speakerTag (word_speaker w0)).
  assert (Htag : ∀ (i : nat) (w : Word), ws !! i = Some w →
                   speakerTag (word_speaker w) = tag).
  { apply sameSpeaker_all; [done|]. by rewrite Ews. }
  destruct (one_speaker_upTo ws tag Htag (length ws) (Nat.le_refl _))
    as (chunks & open & Htake & HF & _ & _ & Hchunks & _ & Hopen).
  rewrite (Hopen eq_refl), app_nil_r, firstn_all in Htake.
  by exists chunks.
Qed.

(** Three sentences by one speaker. *)
Lemma one_speaker_partition_witness :
  ∃ chunks : list (list Word),
    concat chunks = [spoken "Hello." "A" 0 100; spoken "How" "A" 100 200;
                     spoken "are" "A" 200 300; spoken "you?" "A" 300 400;
                     spoken "Fine" "A" 400 500] ∧
    length chunks = 3.
Proof.
  destruct (one_speaker_partition
              [spoken "Hello." "A" 0 100; spoken "How" "A" 100 200;
               spoken "are" "A" 200 300; spoken "you?" "A" 300 400;
               spoken "Fine" "A" 400 500])
    as (chunks & Hcat & HF & _).
  { apply (sameSpeaker_of_Forall _ (Some "Speaker A"%string)). by repeat constructor. }
  exists chunks. split; [exact Hcat|].
  by rewrite (Forall2_length _ _ _ HF).
Defined.

(** ** Time stamps and the prompt *)

Lemma Qfloor_unique (x : Q) (z : Z) :
  (inject_Z z <= x)%Q → (x < inject_Z (z + 1))%Q → Qfloor x = z.
Proof.
  intros Hle Hlt.
  pose proof (Qfloor_le x) as H1. pose proof (Qlt_floor x) as H2.
  assert (inject_Z z < inject_Z (Qfloor x + 1))%Q as H3 by (eapply Qle_lt_trans; eauto).
  assert (inject_Z (Qfloor x) < inject_Z (z + 1))%Q as H4 by (eapply Qle_lt_trans; eauto).
  rewrite <- Zlt_Qlt in H3, H4. lia.
Qed.

Lemma Qfloor_div_60 (x : Q) :
  (0 <= x)%Q → Qfloor (x / 60) = (Qfloor x / 60)%Z.
Proof.
  intros Hx. pose proof (Qfloor_le x) as H1. pose proof (Qlt_floor x) as H2.
  pose proof (Z.div_mod (Qfloor x) 60 ltac:(lia)) as Hdm.
  pose proof (Z.mod_pos_bound (Qfloor x) 60 ltac:(lia)) as Hmod.
  assert (Hn : (inject_Z (Qfloor x) ==
                60 * inject_Z (Qfloor x / 60) + inject_Z (Qfloor x mod 60))%Q).
  { rewrite Hdm at 1. rewrite inject_Z_plus, inject_Z_mult. reflexivity. }
  assert (Hm0 : (0 <= inject_Z (Qfloor x mod 60))%Q) by (change 0%Q with (inject_Z 0); rewrite <- Zle_Qle; lia).
  assert (Hm1 : (inject_Z (Qfloor x mod 60) <= 59)%Q) by (change 59%Q with (inject_Z 59); rewrite <- Zle_Qle; lia).
  rewrite inject_Z_plus in H2. change (inject_Z 1) with 1%Q in H2.
  apply Qfloor_unique.
  - apply Qle_shift_div_l; [reflexivity|]. lra.
  - apply Qlt_shift_div_r; [reflexivity|]. rewrite inject_Z_plus. change (inject_Z 1) with 1%Q. lra.
Qed.

Lemma Qfloor_rem_60 (x : Q) :
  (0 <= x)%Q → Qfloor (JSText.rem x 60) = (Qfloor x mod 60)%Z.
Proof.
  intros Hx. unfold JSText.rem, JSText.trunc.
  assert (H0 : Qle_bool 0 (x / 60) = true).
  { apply Qle_bool_iff. apply Qle_shift_div_l; [reflexivity|]. lra. }
  rewrite H0, (Qfloor_div_60 x Hx).
  pose proof (Qfloor_le x) as H1. pose proof (Qlt_floor x) as H2.
  pose proof (Z.div_mod (Qfloor x) 60 ltac:(lia)) as Hdm.
  assert (Hn : (inject_Z (Qfloor x) ==
                60 * inject_Z (Qfloor x / 60) + inject_Z (Qfloor x mod 60))%Q).
  { rewrite Hdm at 1. rewrite inject_Z_plus, inject_Z_mult. reflexivity. }
  rewrite inject_Z_plus in H2. change (inject_Z 1) with 1%Q in H2.
  apply Qfloor_unique.
  - lra.
  - rewrite inject_Z_plus. change (inject_Z 1) with 1%Q. lra.
Qed.

Lemma padStart_two_digits (r : Z) :
  (0 <= r < 60)%Z → JSText.padStart 2 "0" (JSText.toString r) = twoDigits r.
Proof.
  intros Hr.
  assert (H : ∃ n : nat, n < 60 ∧ r = Z.of_nat n) by (exists (Z.to_nat r); lia).
  destruct H as (n & Hn & ->).
  do 60 (destruct n as [|n]; [by vm_compute|]). lia.
Qed.

(** X7. For a time that is not negative and below 2^53, where the
    arithmetic of the model is that of the code, [formatTimestamp] prints
    the whole minutes, a colon and the remaining whole seconds on two
    digits. *)
Theorem formatTimestamp_minutes_seconds (seconds : Q) :
  (0 <= seconds)%Q → (seconds < inject_Z (2 ^ 53))%Q →
  formatTimestamp seconds =
    (JSText.toString (Qfloor seconds / 60) +:+ ":"
     +:+ twoDigits (Qfloor seconds mod 60))%string.
Proof.
  intros Hs _. unfold formatTimestamp.
  rewrite (Qfloor_div_60 _ Hs), (Qfloor_rem_60 _ Hs), padStart_two_digits; [done|].
  apply Z.mod_pos_bound. lia.
Qed.

Lemma formatTimestamp_minutes_seconds_witness :
  formatTimestamp (3725 # 2) = "31:02"%string.
Proof.
  rewrite (formatTimestamp_minutes_seconds (3725 # 2)); [by vm_compute|by cbv|by cbv].
Defined.

(** *** The prompt *)

Lemma slice_length (n : nat) (s : string) :
  String.length (JSText.slice n s) = Nat.min n (String.length s).
Proof.
  revert s. induction n as [|n IH]; intros [|c s]; cbn [JSText.slice String.length]; try done.
  rewrite IH. done.
Qed.

Lemma slice_slice (n : nat) (s : string) :
  JSText.slice n (JSText.slice n s) = JSText.slice n s.
Proof.
  revert s. induction n as [|n IH]; intros [|c s]; cbn [JSText.slice]; try done.
  by rewrite IH.
Qed.

Lemma join_cons (sep x y : string) (l : list string) :
  JSText.join sep (x :: y :: l) = (x +:+ sep +:+ JSText.join sep (y :: l))%string.
Proof. done. Qed.

Lemma join_singleton (sep x : string) : JSText.join sep [x] = x.
Proof. done. Qed.

Lemma join_app (sep : string) (l1 l2 : list string) :
  l1 ≠ [] → l2 ≠ [] →
  JSText.join sep (l1 ++ l2) =
    (JSText.join sep l1 +:+ sep +:+ JSText.join sep l2)%string.
Proof.
  intros H1 H2. induction l1 as [|x [|y l1] IH]; [done| |].
  - destruct l2 as [|z l2]; [done|]. done.
  - cbn [app] in *. rewrite !join_cons, IH by done. by rewrite !append_assoc.
Qed.

(** X8. The prompt reads a bounded part of the transcript: it is the prompt
    of the first 50 segments and of the first 2000 code units of the raw
    transcript, and its length is that of the instructions, 972 code units,
    plus that of the lines of the segments and that of the excerpt. *)
Theorem prompt_reads_bounded_part (segs : list Segment) (rawTranscript : string) :
  identificationPrompt segs rawTranscript =
    identificationPrompt (take 50 segs) (JSText.slice 2000 rawTranscript) ∧
  String.length (identificationPrompt segs rawTranscript) =
    972 + String.length (prepareSpeakerSegments segs)
    + Nat.min 2000 (String.length rawTranscript).
Proof.
  unfold identificationPrompt, createSpeakerIdentificationPrompt, prepareSpeakerSegments.
  split; [by rewrite take_take, Nat.min_id, slice_slice|].
  rewrite !join_app by done.
  rewrite !(join_singleton JSText.nl).
  rewrite !string_length_append, slice_length.
  set (a := String.length (JSText.join JSText.nl promptHead)).
  set (b := String.length (JSText.join JSText.nl promptMiddle)).
  set (c := String.length (JSText.join JSText.nl promptTail)).
  vm_compute in a, b, c. subst a b c.
  cbn [String.length JSText.nl]. lia.
Qed.

(** ** What the computations leave alone *)

Section Preserves.
Context (R : Db → Db → Prop) `{!PreOrder R}.

Lemma preserves_ret {A : Type} (a : A) : preserves R (ret a).
Proof. by intros w w' r [= <- <-]. Qed.

Lemma preserves_throw {A : Type} (e : Exception) : preserves R (@throw A e).
Proof. by intros w w' r [= <- <-]. Qed.

Lemma preserves_liftE {A : Type} (x : Exception + A) : preserves R (liftE x).
Proof. destruct x; [apply preserves_throw|apply preserves_ret]. Qed.

Lemma preserves_emit (e : Event) : preserves R (emit e).
Proof. by intros w w' r [= <- <-]. Qed.

Lemma preserves_logger (l : Level) (s : string) : preserves R (logger l s).
Proof. apply preserves_emit. Qed.

Lemma preserves_getDb : preserves R getDb.
Proof. by intros w w' r [= <- <-]. Qed.

Lemma preserves_getEngine : preserves R getEngine.
Proof. by intros w w' r [= <- <-]. Qed.

Lemma preserves_bind {A B : Type} (m : M A) (k : A → M B) :
  preserves R m → (∀ a : A, preserves R (k a)) → preserves R (bind m k).
Proof.
  intros Hm Hk w w' r H.
  apply bind_cases in H as [(a & w1 & H1 & H2)|(e & H1 & _)].
  - etrans; [by eapply Hm|by eapply Hk].
  - by eapply Hm.
Qed.

Lemma preserves_try_catch {A : Type} (m : M A) (h : Exception → M A) :
  preserves R m → (∀ e : Exception, preserves R (h e)) → preserves R (try_catch m h).
Proof.
  intros Hm Hh w w' r H.
  apply try_catch_cases in H as [(a & H1 & _)|(e & w1 & H1 & H2)].
  - by eapply Hm.
  - etrans; [by eapply Hm|by eapply Hh].
Qed.

End Preserves.

(** Splits a computation into its calls. *)
Create HintDb frame.

Ltac frame :=
  repeat first
    [ assumption
    | solve [eauto 2 with frame nocore]
    | match goal with
      | |- PreOrder _ => apply _
      | |- preserves _ (ret _) => apply preserves_ret
      | |- preserves _ (throw _) => apply preserves_throw
      | |- preserves _ (liftE _) => apply preserves_liftE
      | |- preserves _ (logger _ _) => apply preserves_logger
      | |- preserves _ (emit _) => apply preserves_emit
      | |- preserves _ getDb => apply preserves_getDb
      | |- preserves _ getEngine => apply preserves_getEngine
      | |- preserves _ (bind _ _) => apply preserves_bind; [apply _| |intros ?]
      | |- preserves _ (try_catch _ _) =>
          apply preserves_try_catch; [apply _| |intros ?]
      end ].

Global Instance eq_Db_preorder : PreOrder (@eq Db).
Proof. split; [by intros ?|by intros ? ? ? -> ->]. Qed.

Global Instance sameElsewhere_preorder (recordingId : string) :
  PreOrder (sameElsewhere recordingId).
Proof.
  split; [by intros d other _|].
  intros d1 d2 d3 H12 H23 other Hne.
  destruct (H23 other Hne) as [-> ->]. by apply H12.
Qed.

Global Instance runFootprint_preorder (recordingId : string) :
  PreOrder (runFootprint recordingId).
Proof.
  split.
  - intros d. split; [reflexivity|by intros ?].
  - intros d1 d2 d3 [H12 K12] [H23 K23]. split; [by etrans|].
    intros H. by apply K23, K12.
Qed.

Global Instance namesOnly_preorder (recordingId : string) :
  PreOrder (namesOnly recordingId).
Proof.
  split; [by intros d|].
  intros d1 d2 d3 (Hr12 & Hb12 & Ho12) (Hr23 & Hb23 & Ho23).
  split; [congruence|]. split; [congruence|].
  intros other Hne. rewrite (Ho23 other Hne). by apply Ho12.
Qed.

(** *** The database calls *)

Lemma findUnique_reads (recordingId : string) :
  preserves eq (prisma.transcript_findUnique recordingId).
Proof. unfold prisma.transcript_findUnique. frame. Qed.

#[global] Hint Resolve findUnique_reads : frame.

Lemma findUnique_include_reads (recordingId : string) :
  preserves eq (prisma.transcript_findUnique_include recordingId).
Proof. unfold prisma.transcript_findUnique_include. frame. Qed.

#[global] Hint Resolve findUnique_include_reads : frame.

Lemma recording_update_footprint (recordingId : string) (f : Recording → Recording) :
  preserves (runFootprint recordingId) (prisma.recording_update recordingId f).
Proof.
  intros w w' r. unfold prisma.recording_update. unfold_M.
  destruct (recordings (db w) !! recordingId) as [rec|] eqn:Hrec;
    intros [= <- <-]; [|reflexivity].
  split.
  - intros other Hne. cbn. by rewrite lookup_insert_ne.
  - intros _. cbn. by rewrite lookup_insert_eq.
Qed.

#[global] Hint Resolve recording_update_footprint : frame.

Lemma transcript_create_footprint (recordingId : string) (t : Transcript) :
  preserves (runFootprint recordingId) (prisma.transcript_create recordingId t).
Proof.
  intros w w' r. unfold prisma.transcript_create. unfold_M.
  destruct (transcripts (db w) !! recordingId) as [old|];
    [intros [= <- <-]; reflexivity|].
  destruct (recordings (db w) !! recordingId) as [rec|] eqn:Hrec;
    intros [= <- <-]; [|reflexivity].
  split; [|by intros ?].
  intros other Hne. cbn. by rewrite lookup_insert_ne.
Qed.

#[global] Hint Resolve transcript_create_footprint : frame.

Lemma transcript_update_names (recordingId : string) (m : JSON.value) :
  preserves (namesOnly recordingId)
    (prisma.transcript_update recordingId (setSpeakerNames m)).
Proof.
  intros w w' r. unfold prisma.transcript_update. unfold_M.
  destruct (transcripts (db w) !! recordingId) as [t|] eqn:Ht;
    intros [= <- <-]; [|reflexivity].
  split; [done|]. split.
  - cbn. rewrite fmap_insert. apply insert_id. by rewrite lookup_fmap, Ht.
  - intros other Hne. cbn. by rewrite lookup_insert_ne.
Qed.

#[global] Hint Resolve transcript_update_names : frame.

Lemma namesOnly_footprint (recordingId : string) (d d' : Db) :
  namesOnly recordingId d d' → runFootprint recordingId d d'.
Proof.
  intros (Hr & _ & Ho). split.
  - intros other Hne. by rewrite Hr, (Ho other Hne).
  - intros H. by rewrite Hr.
Qed.

Lemma preserves_weaken {A : Type} (R R' : Db → Db → Prop) (m : M A) :
  (∀ d d' : Db, R d d' → R' d d') → preserves R m → preserves R' m.
Proof. intros HR Hm w w' r H. apply HR. by eapply Hm. Qed.

(** *** The services *)

Lemma storeSpeakerMapping_names (recordingId : string) (m : JSON.value) :
  preserves (namesOnly recordingId) (storeSpeakerMapping recordingId m).
Proof.
  unfold storeSpeakerMapping. frame.
Qed.

#[global] Hint Resolve storeSpeakerMapping_names : frame.

Lemma identifySpeakers_names (env : Env) (recordingId : string)
    (segs : list Segment) (rawTranscript : string) :
  preserves (namesOnly recordingId)
    (identifySpeakers env recordingId segs rawTranscript).
Proof.
  unfold identifySpeakers. frame.
  destruct a1 as [text|]; [|frame].
  destruct (JS.truthy_string text); frame.
Qed.

#[global] Hint Resolve identifySpeakers_names : frame.

Lemma reIdentifySpeakers_names (env : Env) (recordingId : string) :
  preserves (namesOnly recordingId) (reIdentifySpeakers env recordingId).
Proof.
  unfold reIdentifySpeakers.
  frame.
  - eapply preserves_weaken; [|apply findUnique_reads]. by intros d d' ->.
  - destruct a; [apply identifySpeakers_names|frame].
Qed.

#[global] Hint Resolve reIdentifySpeakers_names : frame.

Lemma getSpeakerMapping_reads (recordingId : string) :
  preserves eq (getSpeakerMapping recordingId).
Proof.
  unfold getSpeakerMapping. frame.
  destruct (_ ≫= _) as [names|]; [|frame].
  destruct (JS.truthy_string names); frame.
Qed.

#[global] Hint Resolve getSpeakerMapping_reads : frame.

Lemma applySpeakerNames_reads (recordingId : string) (segs : list Segment) :
  preserves eq (applySpeakerNamesToSegments recordingId segs).
Proof.
  unfold applySpeakerNamesToSegments. frame.
  destruct (usable a); frame.
Qed.

#[global] Hint Resolve applySpeakerNames_reads : frame.

Lemma getTranscription_reads (recordingId : string) :
  preserves eq (getTranscription recordingId).
Proof.
  unfold getTranscription. frame.
  destruct a as [[t rec]|]; [|frame]. frame.
  - destruct (tr_speakerNames t) as [text|]; [|frame].
    destruct (JS.truthy_string text); [|frame].
    destruct (JSON_parse _ text); frame.
  - destruct (usable _); [|frame]. destruct (_ <? _); frame.
  - destruct rec; frame.
Qed.

#[global] Hint Resolve getTranscription_reads : frame.

(** X9. Reading never writes: [getTranscription], [getSpeakerMapping] and
    [applySpeakerNamesToSegments] end with the database they started from,
    also when they log a failure or throw. *)
Theorem readers_leave_database (recordingId : string) (segs : list Segment)
    (w : World) :
  db (getTranscription recordingId w).2 = db w ∧
  db (getSpeakerMapping recordingId w).2 = db w ∧
  db (applySpeakerNamesToSegments recordingId segs w).2 = db w.
Proof.
  split; [|split]; symmetry.
  - destruct (getTranscription recordingId w) as [r w'] eqn:H.
    by apply getTranscription_reads in H.
  - destruct (getSpeakerMapping recordingId w) as [r w'] eqn:H.
    by apply getSpeakerMapping_reads in H.
  - destruct (applySpeakerNamesToSegments recordingId segs w) as [r w'] eqn:H.
    by apply applySpeakerNames_reads in H.
Qed.

(** ** The resolver *)

(** The two ways [identifySpeakers] ends. *)
Lemma identifySpeakers_cases (env : Env) (recordingId : string)
    (segs : list Segment) (rawTranscript : string) (w : World) :
  ∃ evs : list Event,
    ChatCompletion recordingId ∈ evs ∧
    match replyValue (engine w) env segs rawTranscript,
          transcripts (db w) !! recordingId with
    | Some v, Some row =>
        identifySpeakers env recordingId segs rawTranscript w =
          (inr v,
           extend w
             {| recordings := recordings (db w);
                transcripts :=
                  <[recordingId := setSpeakerNames v row]> (transcripts (db w)) |}
             evs) ∧
        (resolverError recordingId ∉ evs)
    | _, _ =>
        identifySpeakers env recordingId segs rawTranscript w =
          (inl (resolverFailure (engine w) env segs rawTranscript),
           extend w (db w) evs) ∧
        last evs = Some (resolverError recordingId)
    end.
Proof.
  unfold identifySpeakers, storeSpeakerMapping, prisma.transcript_update,
    resolverFailure, resolverError, replyValue, parsed.
  unfold_M. cbn.
  destruct (env_chat env segs rawTranscript) as [e|[text|]]; cbn.
  1, 3: eexists; (split; [|destruct (transcripts (db w) !! recordingId);
                            (split; [as_extend|done])]); has_event.
  destruct (JS.truthy_string text) eqn:Htruthy; cbn.
  2: { eexists. split; [|destruct (transcripts (db w) !! recordingId);
                           (split; [as_extend|done])]. has_event. }
  destruct (JSON_parse (engine w) text) as [e|v] eqn:Hparse; cbn.
  { eexists. split; [|destruct (transcripts (db w) !! recordingId);
                        (split; [as_extend|done])]. has_event. }
  destruct (transcripts (db w) !! recordingId) as [row|] eqn:Hrow; cbn.
  - eexists. split; [|split; [as_extend|]]; [has_event|].
    repeat (apply not_elem_of_cons; split; [discriminate|]). apply not_elem_of_nil.
  - eexists. split; [|split; [as_extend|done]]. has_event.
Qed.

Lemma identifySpeakers_returns (env : Env) (recordingId : string)
    (segs : list Segment) (rawTranscript : string) (w w' : World)
    (v : JSON.value) :
  identifySpeakers env recordingId segs rawTranscript w = (inr v, w') →
  replyValue (engine w) env segs rawTranscript = Some v ∧
  engine w' = engine w ∧
  (∃ evs : list Event,
     trace w' = trace w ++ evs ∧ ChatCompletion recordingId ∈ evs ∧
     (resolverError recordingId ∉ evs)) ∧
  ∃ row : Transcript,
    transcripts (db w) !! recordingId = Some row ∧
    db w' = {| recordings := recordings (db w);
               transcripts :=
                 <[recordingId := setSpeakerNames v row]> (transcripts (db w)) |}.
Proof.
  intros H.
  destruct (identifySpeakers_cases env recordingId segs rawTranscript w)
    as (evs & Hchat & Hrun).
  destruct (replyValue (engine w) env segs rawTranscript) as [v'|];
    [|destruct Hrun as [Hrun _]; by rewrite Hrun in H].
  destruct (transcripts (db w) !! recordingId) as [row|];
    [|destruct Hrun as [Hrun _]; by rewrite Hrun in H].
  destruct Hrun as [Hrun Hnot].
  rewrite Hrun in H. injection H as <- <-. split; [done|]. split; [done|].
  split; [by exists evs|]. by exists row.
Qed.

Lemma identifySpeakers_runs (env : Env) (recordingId : string)
    (segs : list Segment) (rawTranscript : string) (w : World)
    (v : JSON.value) :
  replyValue (engine w) env segs rawTranscript = Some v →
  is_Some (transcripts (db w) !! recordingId) →
  (identifySpeakers env recordingId segs rawTranscript w).1 = inr v.
Proof.
  intros Hv [row Hrow].
  destruct (identifySpeakers_cases env recordingId segs rawTranscript w)
    as (evs & _ & Hrun).
  rewrite Hv, Hrow in Hrun. destruct Hrun as [Hrun _]. by rewrite Hrun.
Qed.

(** X10. [identifySpeakers] returns exactly when the reply of the language
    model parses, to any value, and the recording has a transcript.  What
    it returns is the value the reply parses to, whether or not that is a
    mapping of strings; the transcript now holds the [JSON.stringify] text
    of that value and is marked identified; the request was sent and no
    failure was logged; nothing else in the database has changed; and when
    the value is an object of strings, [getSpeakerMapping] reads it back. *)
Theorem identifySpeakers_stores_reply (env : Env) (recordingId : string)
    (segs : list Segment) (rawTranscript : string) (w : World) :
  (∀ (v : JSON.value) (w' : World),
     identifySpeakers env recordingId segs rawTranscript w = (inr v, w') →
     replyValue (engine w) env segs rawTranscript = Some v ∧
     (∃ row : Transcript,
        transcripts (db w) !! recordingId = Some row ∧
        transcripts (db w') !! recordingId = Some (setSpeakerNames v row) ∧
        tr_speakerNames (setSpeakerNames v row) = Some (JSON_stringify v) ∧
        tr_speakerIdentified (setSpeakerNames v row) = true) ∧
     (∃ evs : list Event,
        trace w' = trace w ++ evs ∧ ChatCompletion recordingId ∈ evs ∧
        (resolverError recordingId ∉ evs)) ∧
     namesOnly recordingId (db w) (db w') ∧
     (∀ m : gmap string string, v = JSON.Mapping m →
        (getSpeakerMapping recordingId w').1 = inr (Some (JSON.Mapping m)))) ∧
  (∀ v : JSON.value,
     replyValue (engine w) env segs rawTranscript = Some v →
     is_Some (transcripts (db w) !! recordingId) →
     (identifySpeakers env recordingId segs rawTranscript w).1 = inr v).
Proof.
  split; [|apply identifySpeakers_runs].
  intros v w' H.
  destruct (identifySpeakers_returns _ _ _ _ _ _ _ H)
    as (Hreply & Hengine & Hevs & row & Hrow & Hdb).
  assert (Hrow' : transcripts (db w') !! recordingId = Some (setSpeakerNames v row)).
  { rewrite Hdb. cbn. by rewrite lookup_insert_eq. }
  split; [done|]. split; [by exists row|]. split; [done|].
  split; [by apply identifySpeakers_names in H|].
  intros m ->. rewrite getSpeakerMapping_stored.
  by rewrite (stored_names_read_back _ m row).
Qed.

Lemma scenario_reply (t : ProviderTranscript) (service : bool)
    (engine : Engine) (m : gmap string string) (segs : list Segment)
    (rawTranscript : string) :
  replyValue engine (scenarioEnv t service (inr (Some (JSON.stringify m))))
    segs rawTranscript
  = Some (JSON.Mapping m).
Proof.
  unfold replyValue. cbn [env_chat scenarioEnv].
  by rewrite stringify_truthy, parsed_stringify.
Qed.

(** A reply that is valid JSON without being a mapping of strings: one
    name and one [null].  The run returns the parsed object and stores its
    text. *)
Lemma identifySpeakers_stores_reply_witness :
  (identifySpeakers (scenarioEnv twoUtterances true (inr (Some janeAndNullText)))
     "r1" twoSpeakers "hi hello" (scenarioWorld twoSpeakers None)).1
  = inr (JSON.Other janeAndNull) ∧
  (tr_speakerNames <$>
     transcripts
       (db (identifySpeakers
              (scenarioEnv twoUtterances true (inr (Some janeAndNullText)))
              "r1" twoSpeakers "hi hello" (scenarioWorld twoSpeakers None)).2)
     !! "r1"%string)
  = Some (Some janeAndNullText).
Proof.
  pose proof (proj2 (identifySpeakers_stores_reply
                       (scenarioEnv twoUtterances true (inr (Some janeAndNullText)))
                       "r1" twoSpeakers "hi hello" (scenarioWorld twoSpeakers None))
                (JSON.Other janeAndNull) eq_refl (mk_is_Some _ _ eq_refl)) as Hrun.
  destruct (identifySpeakers _ _ _ _ _) as [r w'] eqn:H. cbn [fst snd] in *. subst r.
  destruct (proj1 (identifySpeakers_stores_reply _ _ _ _ _) _ _ H)
    as (_ & (row & _ & Hrow & Hnames & _) & _).
  split; [reflexivity|].
  rewrite Hrow. cbn [fmap option_fmap option_map]. rewrite Hnames. reflexivity.
Defined.

(** X11. When [identifySpeakers] throws, the database is the one it started
    from, the language model has been asked all the same, the last line of
    the log reports the failure, and the error is that of the request, that
    of an absent or empty reply, the one [JSON.parse] throws on the reply,
    or, for a reply that parses, that of the update of a transcript that is
    not there. *)
Theorem identifySpeakers_all_or_nothing (env : Env) (recordingId : string)
    (segs : list Segment) (rawTranscript : string) (w w' : World) (e : Exception) :
  identifySpeakers env recordingId segs rawTranscript w = (inl e, w') →
  db w' = db w ∧
  e = resolverFailure (engine w) env segs rawTranscript ∧
  (replyValue (engine w) env segs rawTranscript = None ∨
   transcripts (db w) !! recordingId = None) ∧
  ∃ evs : list Event,
    trace w' = trace w ++ evs ∧
    ChatCompletion recordingId ∈ evs ∧
    last evs = Some (resolverError recordingId).
Proof.
  intros H.
  destruct (identifySpeakers_cases env recordingId segs rawTranscript w)
    as (evs & Hchat & Hrun).
  assert (Hfail : (identifySpeakers env recordingId segs rawTranscript w =
                     (inl (resolverFailure (engine w) env segs rawTranscript),
                      extend w (db w) evs) ∧
                   last evs = Some (resolverError recordingId)) ∧
                  (replyValue (engine w) env segs rawTranscript = None ∨
                   transcripts (db w) !! recordingId = None)).
  { destruct (replyValue (engine w) env segs rawTranscript) as [v|]; [|by split; [|left]].
    destruct (transcripts (db w) !! recordingId) as [row|]; [|by split; [|right]].
    destruct Hrun as [Hrun _]. by rewrite Hrun in H. }
  destruct Hfail as [[Hrun' Hlast] Hwhy]. rewrite Hrun' in H.
  injection H as <- <-. split; [done|]. split; [done|]. split; [done|]. by exists evs.
Qed.

(** A request that cannot reach the language model. *)
Lemma identifySpeakers_all_or_nothing_witness :
  ∃ (e : Exception) (w' : World),
    identifySpeakers (scenarioEnv twoUtterances true (inl (Throw "Connection error.")))
      "r1" twoSpeakers "hi hello" freshWorld = (inl e, w') ∧
    db w' = db freshWorld ∧ e = Throw "Connection error.".
Proof.
  eexists _, _. split; [reflexivity|].
  destruct (identifySpeakers_all_or_nothing
              (scenarioEnv twoUtterances true (inl (Throw "Connection error.")))
              "r1" twoSpeakers "hi hello" freshWorld _ _ eq_refl) as (Hdb & He & _).
  split; [exact Hdb|exact He].
Defined.

(** *** Identification of the speakers of a stored transcript *)

Lemma reIdentifySpeakers_cases (env : Env) (recordingId : string) (w : World) :
  match transcripts (db w) !! recordingId with
  | None =>
      reIdentifySpeakers env recordingId w =
        (inl (Throw "Transcript not found"),
         extend w (db w)
           [Log Error ("Failed to re-identify speakers for recording "
                       +:+ recordingId +:+ ":")])
  | Some row =>
      (reIdentifySpeakers env recordingId w).1 =
        (identifySpeakers env recordingId (tr_content row) (tr_rawTranscript row) w).1 ∧
      db (reIdentifySpeakers env recordingId w).2 =
        db (identifySpeakers env recordingId (tr_content row) (tr_rawTranscript row) w).2
  end.
Proof.
  unfold reIdentifySpeakers, prisma.transcript_findUnique. unfold_M. cbv beta iota.
  destruct (transcripts (db w) !! recordingId) as [row|]; [|done].
  destruct (identifySpeakers env recordingId (tr_content row) (tr_rawTranscript row) w)
    as [[e|m] w1]; done.
Qed.

(** X12. [reIdentifySpeakers] works from the stored transcript: for a
    recording without a transcript it throws [Transcript not found], logs the
    failure and does nothing else, so the language model is not asked and
    the database is not touched; otherwise it returns or throws what
    [identifySpeakers] does on the stored segments and the stored raw
    transcript, and leaves the same database. *)
Theorem reIdentifySpeakers_from_stored_transcript (env : Env)
    (recordingId : string) (w : World) :
  match transcripts (db w) !! recordingId with
  | None =>
      (reIdentifySpeakers env recordingId w).1 = inl (Throw "Transcript not found") ∧
      db (reIdentifySpeakers env recordingId w).2 = db w ∧
      trace (reIdentifySpeakers env recordingId w).2 =
        trace w ++ [Log Error ("Failed to re-identify speakers for recording "
                               +:+ recordingId +:+ ":")]
  | Some row =>
      (reIdentifySpeakers env recordingId w).1 =
        (identifySpeakers env recordingId (tr_content row) (tr_rawTranscript row) w).1 ∧
      db (reIdentifySpeakers env recordingId w).2 =
        db (identifySpeakers env recordingId (tr_content row) (tr_rawTranscript row) w).2
  end.
Proof.
  pose proof (reIdentifySpeakers_cases env recordingId w) as H.
  destruct (transcripts (db w) !! recordingId) as [row|]; [done|].
  by rewrite H.
Qed.

(** ** Deleting a transcript *)

Lemma deleteTranscription_cases (recordingId : string) (w : World) :
  deleteTranscription recordingId w =
    match transcripts (db w) !! recordingId with
    | Some _ =>
        (inr true,
         extend w
           {| recordings := recordings (db w);
              transcripts := delete recordingId (transcripts (db w)) |}
           [Log Info ("Transcription deleted for recording " +:+ recordingId)])
    | None => (inr false, w)
    end.
Proof.
  unfold deleteTranscription, prisma_transcript_delete. unfold_M. cbv beta iota.
  by destruct (transcripts (db w) !! recordingId).
Qed.

(** X13. [deleteTranscription] never throws.  It returns [true] exactly
    when the recording had a transcript; afterwards the recording has none,
    the other transcripts and all the recordings are as before, and a second
    call returns [false] and changes nothing. *)
Theorem deleteTranscription_removes (recordingId : string) (w : World) :
  ∃ (deleted : bool) (w' : World),
    deleteTranscription recordingId w = (inr deleted, w') ∧
    (deleted = true ↔ is_Some (transcripts (db w) !! recordingId)) ∧
    transcripts (db w') = delete recordingId (transcripts (db w)) ∧
    recordings (db w') = recordings (db w) ∧
    deleteTranscription recordingId w' = (inr false, w').
Proof.
  rewrite deleteTranscription_cases.
  destruct (transcripts (db w) !! recordingId) as [row|] eqn:Hrow.
  - eexists _, _. split; [done|]. split; [by split; [eauto|]|].
    split; [done|]. split; [done|].
    rewrite deleteTranscription_cases. cbn [db extend transcripts].
    by rewrite lookup_delete_eq.
  - exists false, w. split; [done|]. split; [by split; [|intros [? ?]]|].
    split; [by rewrite delete_id|]. split; [done|].
    by rewrite deleteTranscription_cases, Hrow.
Qed.

(** ** What a run touches *)

Lemma updateRecordingStatus_footprint (recordingId status : string) :
  preserves (runFootprint recordingId) (updateRecordingStatus recordingId status).
Proof. unfold updateRecordingStatus. frame. Qed.

Lemma getAudioDuration_reads (env : Env) (filePath : string) :
  preserves eq (getAudioDuration env filePath).
Proof. unfold getAudioDuration. destruct (env_ffprobe env filePath); frame. Qed.

Lemma transcribeDirectly_reads (env : Env) (filePath : string) :
  preserves eq (transcribeDirectly env filePath).
Proof.
  pose proof (getAudioDuration_reads env filePath).
  unfold transcribeDirectly, parseLog. frame.
  destruct (pt_status a0); frame.
  destruct (pt_utterances a0); frame.
Qed.

Lemma preserves_eq {A : Type} (R : Db → Db → Prop) `{!PreOrder R} (m : M A) :
  preserves eq m → preserves R m.
Proof. apply preserves_weaken. by intros d d' ->. Qed.

Lemma storeTranscription_footprint (recordingId : string)
    (result : TranscriptionResult) :
  preserves (runFootprint recordingId) (storeTranscription recordingId result).
Proof.
  unfold storeTranscription. frame. destruct (negb _); frame.
Qed.

Lemma identificationStep_footprint (env : Env) (recordingId : string)
    (result : TranscriptionResult) :
  preserves (runFootprint recordingId) (identificationStep env recordingId result).
Proof.
  unfold identificationStep. destruct (wantsIdentification env result); frame.
  eapply preserves_weaken; [apply namesOnly_footprint|apply identifySpeakers_names].
Qed.

#[global] Hint Resolve updateRecordingStatus_footprint storeTranscription_footprint
  identificationStep_footprint : frame.

Lemma transcribeAudio_try_footprint (env : Env) (recordingId filePath : string) :
  preserves (runFootprint recordingId)
    (do logger Info ("Starting transcription for recording " +:+ recordingId) then
     do updateRecordingStatus recordingId "TRANSCRIBING" then
     let* fileSize := liftE (env_statSync env filePath) in
     do logger Info fileSizeLine then
     let* transcriptionResult := transcribeDirectly env filePath in
     do storeTranscription recordingId transcriptionResult then
     do identificationStep env recordingId transcriptionResult then
     do updateRecordingStatus recordingId "COMPLETED" then
     do logger Info ("Transcription completed for recording " +:+ recordingId) then
     ret transcriptionResult)%M.
Proof.
  frame. apply preserves_eq; [apply _|]. apply transcribeDirectly_reads.
Qed.

Lemma transcribeAudio_footprint (env : Env) (recordingId filePath : string) :
  preserves (runFootprint recordingId) (transcribeAudio env recordingId filePath).
Proof.
  pose proof (transcribeAudio_try_footprint env recordingId filePath).
  unfold transcribeAudio. frame.
Qed.

(** X14. A run of [transcribeAudio] for a recording, however it ends,
    leaves the rows of every other recording as they were: their recordings
    and their transcripts. *)
Theorem transcribeAudio_touches_one_recording (env : Env)
    (recordingId filePath other : string) (w : World) :
  other ≠ recordingId →
  recordings (db (transcribeAudio env recordingId filePath w).2) !! other =
    recordings (db w) !! other ∧
  transcripts (db (transcribeAudio env recordingId filePath w).2) !! other =
    transcripts (db w) !! other.
Proof.
  intros Hne.
  destruct (transcribeAudio env recordingId filePath w) as [r w'] eqn:H.
  apply transcribeAudio_footprint in H as [Hother _]. by apply Hother.
Qed.

(** A run for ["r1"] beside the transcript of ["r0"]. *)
Lemma transcribeAudio_touches_one_recording_witness :
  transcripts
    (db (transcribeAudio (scenarioEnv twoUtterances false (inr None)) "r0"
           "/uploads/call.mp3" (scenarioWorld twoSpeakers None)).2) !! "r1"%string
  = Some (scenarioTranscript twoSpeakers None).
Proof.
  rewrite (proj2 (transcribeAudio_touches_one_recording
                    (scenarioEnv twoUtterances false (inr None)) "r0"
                    "/uploads/call.mp3" "r1" (scenarioWorld twoSpeakers None)
                    ltac:(discriminate))).
  reflexivity.
Defined.

(** *** The status a run leaves *)

Lemma transcribeAudio_final_status (env : Env) (recordingId filePath : string)
    (w w' : World) (r : Exception + TranscriptionResult) :
  is_Some (recordings (db w) !! recordingId) →
  transcribeAudio env recordingId filePath w = (r, w') →
  rec_status <$> recordings (db w') !! recordingId =
    Some (match r with inr _ => "COMPLETED" | inl _ => "FAILED" end)%string.
Proof.
  intros Hrec H. pose proof H as Hout.
  apply transcribeAudio_outcome in Hout
    as [([e ->] & _)|(result & evs & row & -> & _ & _ & _ & _ & _ & Hstatus & _)];
    [|done].
  unfold transcribeAudio in H.
  apply try_catch_cases in H as [(a & _ & ?)|(e' & w1 & Hbody & Hh)]; [done|].
  apply transcribeAudio_try_footprint in Hbody as [_ Hkeeps].
  destruct (Hkeeps Hrec) as [rec1 Hrec1].
  apply bind_cases in Hh as [(u & w2 & H1 & Hh)|(e2 & H1 & _)];
    [|by apply logger_cases in H1 as [? _]].
  apply logger_cases in H1 as [_ ->].
  unfold bind in Hh. rewrite updateRecordingStatus_cases in Hh.
  cbn [db trace extend] in Hh. rewrite Hrec1 in Hh.
  injection Hh as _ <-. cbn. by rewrite lookup_insert_eq.
Qed.

Lemma transcribeAudio_missing_recording (env : Env) (recordingId filePath : string)
    (w : World) :
  recordings (db w) !! recordingId = None →
  (transcribeAudio env recordingId filePath w).1 = inl prisma.not_found ∧
  db (transcribeAudio env recordingId filePath w).2 = db w.
Proof.
  intros Hrec. unfold transcribeAudio, updateRecordingStatus, prisma.recording_update.
  unfold_M. cbn. rewrite Hrec. cbn. by rewrite Hrec.
Qed.

(** X15. The status a run leaves.  When the recording exists, a run of
    [transcribeAudio] that returns leaves it [COMPLETED] and a run that
    throws leaves it [FAILED]: it is never left [TRANSCRIBING].  When the
    recording does not exist, the run throws the error of the missing row
    and the database is as before. *)
Theorem transcribeAudio_status_completed_or_failed (env : Env)
    (recordingId filePath : string) (w : World) :
  (is_Some (recordings (db w) !! recordingId) →
   rec_status <$>
     recordings (db (transcribeAudio env recordingId filePath w).2) !! recordingId =
   Some (match (transcribeAudio env recordingId filePath w).1 with
         | inr _ => "COMPLETED"
         | inl _ => "FAILED"
         end)%string) ∧
  (recordings (db w) !! recordingId = None →
   (transcribeAudio env recordingId filePath w).1 = inl prisma.not_found ∧
   db (transcribeAudio env recordingId filePath w).2 = db w).
Proof.
  split; [|apply transcribeAudio_missing_recording].
  intros Hrec.
  destruct (transcribeAudio env recordingId filePath w) as [r w'] eqn:H.
  by apply (transcribeAudio_final_status env recordingId filePath w).
Qed.

(** A file that cannot be read. *)
Lemma transcribeAudio_status_completed_or_failed_witness :
  rec_status <$>
    recordings
      (db (transcribeAudio
             {| env_statSync := λ _, inl (Throw "ENOENT: no such file or directory");
                env_transcribe := λ _, inr twoUtterances;
                env_ffprobe := λ _, None;
                env_speakerIdentificationService := false;
                env_chat := λ _ _, inr None |}
             "r1" "/uploads/gone.mp3" freshWorld).2) !! "r1"%string
  = Some "FAILED"%string.
Proof.
  exact (proj1 (transcribeAudio_status_completed_or_failed
                  {| env_statSync := λ _, inl (Throw "ENOENT: no such file or directory");
                     env_transcribe := λ _, inr twoUtterances;
                     env_ffprobe := λ _, None;
                     env_speakerIdentificationService := false;
                     env_chat := λ _ _, inr None |}
                  "r1" "/uploads/gone.mp3" freshWorld)
           (mk_is_Some _ _ eq_refl)).
Defined.

(** X16. A run for a recording that already has a transcript never
    replaces it: the run throws, the transcripts table is as before, and the
    recording is left [FAILED] although its transcript is still there. *)
Theorem transcribeAudio_keeps_existing_transcript (env : Env)
    (recordingId filePath : string) (w : World) :
  is_Some (recordings (db w) !! recordingId) →
  is_Some (transcripts (db w) !! recordingId) →
  (∃ e : Exception, (transcribeAudio env recordingId filePath w).1 = inl e) ∧
  transcripts (db (transcribeAudio env recordingId filePath w).2) = transcripts (db w) ∧
  rec_status <$>
    recordings (db (transcribeAudio env recordingId filePath w).2) !! recordingId =
    Some "FAILED"%string.
Proof.
  intros Hrec [row Hrow].
  destruct (transcribeAudio env recordingId filePath w) as [r w'] eqn:H.
  pose proof (transcribeAudio_final_status _ _ _ _ _ _ Hrec H) as Hstatus.
  apply transcribeAudio_outcome in H
    as [([e ->] & Htr & _)|(result & evs & row' & _ & (_ & Hnone & _) & _)];
    [|congruence].
  cbn [fst snd]. split; [by exists e|]. by split.
Qed.

(** A second run for ["r1"]. *)
Lemma transcribeAudio_keeps_existing_transcript_witness :
  transcripts
    (db (transcribeAudio (scenarioEnv (textOnly "hello") false (inr None)) "r1"
           "/uploads/call.mp3" (scenarioWorld twoSpeakers None)).2)
  = {[ "r1"%string := scenarioTranscript twoSpeakers None ]} ∧
  rec_status <$>
    recordings
      (db (transcribeAudio (scenarioEnv (textOnly "hello") false (inr None)) "r1"
             "/uploads/call.mp3" (scenarioWorld twoSpeakers None)).2) !! "r1"%string
  = Some "FAILED"%string.
Proof.
  destruct (transcribeAudio_keeps_existing_transcript
              (scenarioEnv (textOnly "hello") false (inr None)) "r1"
              "/uploads/call.mp3" (scenarioWorld twoSpeakers None)
              (mk_is_Some _ _ eq_refl) (mk_is_Some _ _ eq_refl))
    as (_ & Htr & Hstatus).
  split; [exact Htr|exact Hstatus].
Defined.

(** ** Serving a transcript *)

Lemma storedSegment_withSpeakerName (engine : Engine) (v : JSON.value)
    (segs : list Segment) :
  storedSegment <$> (withSpeakerName engine v <$> segs) = segs.
Proof.
  rewrite <- list_fmap_compose. rewrite <- (list_fmap_id segs) at 2.
  apply list_fmap_ext. by intros i [? ? ? ?] _.
Qed.

Lemma storedSegment_plainSegment (segs : list Segment) :
  storedSegment <$> (plainSegment <$> segs) = segs.
Proof.
  rewrite <- list_fmap_compose. rewrite <- (list_fmap_id segs) at 2.
  apply list_fmap_ext. by intros i [? ? ? ?] _.
Qed.

Lemma getTranscription_stored (recordingId : string) (w : World)
    (t : Transcript) (rec : Recording) :
  transcripts (db w) !! recordingId = Some t →
  recordings (db w) !! recordingId = Some rec →
  ∃ view : TranscriptionView,
    (getTranscription recordingId w).1 = inr (Some view) ∧
    storedSegment <$> tv_segments view = tr_content t ∧
    tv_text view = tr_rawTranscript t ∧
    tv_speakerCount view = tr_speakerCount t ∧
    tv_speakerNames view = storedMapping w recordingId ∧
    tv_recording view = rec.
Proof.
  intros Ht Hrec. eexists.
  split; [by apply (getTranscription_result _ _ t rec)|]. cbn.
  split; [|done].
  destruct (usable _);
    [apply storedSegment_withSpeakerName|apply storedSegment_plainSegment].
Qed.

(** X17. [getTranscription] serves every stored segment, whatever the
    column of the speaker names holds: when the transcript and its recording
    are there it returns the stored segments with their times, text and
    speaker tag, in order, the stored text and speaker count, and as
    [speakerNames] the value the column parses to, whatever JSON value that
    is, and [null] when the column is null or empty or does not parse; a
    column that does not parse is not an error. *)
Theorem getTranscription_serves_stored_segments (recordingId : string) (w : World)
    (t : Transcript) (rec : Recording) :
  transcripts (db w) !! recordingId = Some t →
  recordings (db w) !! recordingId = Some rec →
  ∃ view : TranscriptionView,
    (getTranscription recordingId w).1 = inr (Some view) ∧
    storedSegment <$> tv_segments view = tr_content t ∧
    tv_text view = tr_rawTranscript t ∧
    tv_speakerCount view = tr_speakerCount t ∧
    tv_speakerNames view =
      match tr_speakerNames t with
      | Some text =>
          if JS.truthy_string text then
            match JSON_parse (engine w) text with
            | inr v => Some v
            | inl _ => None
            end
          else None
      | None => None
      end ∧
    tv_recording view = rec.
Proof.
  intros Ht Hrec.
  destruct (getTranscription_stored recordingId w t rec Ht Hrec)
    as (view & Hview & Hsegs & Htext & Hcount & Hnames & Hr).
  exists view. split; [done|]. split; [done|]. split; [done|]. split; [done|].
  split; [|done].
  rewrite Hnames. unfold storedMapping, parsed. rewrite Ht. cbn.
  by destruct (tr_speakerNames t).
Qed.

(** A column that is not JSON, and a column that holds a name and a
    [null]. *)
Lemma getTranscription_serves_stored_segments_witness :
  (∃ view : TranscriptionView,
     (getTranscription "r1" (scenarioWorld twoSpeakers (Some "Jane, John"%string))).1
       = inr (Some view) ∧
     storedSegment <$> tv_segments view = twoSpeakers ∧
     tv_speakerNames view = None) ∧
  (∃ view : TranscriptionView,
     (getTranscription "r1" (scenarioWorld twoSpeakers (Some janeAndNullText))).1
       = inr (Some view) ∧
     storedSegment <$> tv_segments view = twoSpeakers ∧
     tv_speakerNames view = Some (JSON.Other janeAndNull)).
Proof.
  split.
  - destruct (getTranscription_serves_stored_segments "r1"
                (scenarioWorld twoSpeakers (Some "Jane, John"%string))
                (scenarioTranscript twoSpeakers (Some "Jane, John"%string))
                scenarioRecording eq_refl eq_refl)
      as (view & Hview & Hsegs & _ & _ & Hnames & _).
    exists view. split; [exact Hview|]. split; [exact Hsegs|]. exact Hnames.
  - destruct (getTranscription_serves_stored_segments "r1"
                (scenarioWorld twoSpeakers (Some janeAndNullText))
                (scenarioTranscript twoSpeakers (Some janeAndNullText))
                scenarioRecording eq_refl eq_refl)
      as (view & Hview & Hsegs & _ & _ & Hnames & _).
    exists view. split; [exact Hview|]. split; [exact Hsegs|]. exact Hnames.
Defined.



(** ** The routes *)

Lemma newSpeakerIdentificationService_cases (env : Env) (w : World) :
  newSpeakerIdentificationService env w =
    if env_speakerIdentificationService env then (inr tt, w)
    else (inl (Throw "OPENAI_API_KEY environment variable is required for speaker identification"),
          w).
Proof.
  unfold newSpeakerIdentificationService.
  by destruct (env_speakerIdentificationService env).
Qed.

Lemma newTranscriptionService_cases (assemblyaiKey : bool) (env : Env) (w : World) :
  ∃ evs : list Event,
    newTranscriptionService assemblyaiKey env w =
      if assemblyaiKey then (inr tt, extend w (db w) evs)
      else (inl (Throw "ASSEMBLYAI_API_KEY environment variable is required"), w).
Proof.
  unfold newTranscriptionService, newSpeakerIdentificationService.
  destruct assemblyaiKey; [|by exists []].
  destruct (env_speakerIdentificationService env).
  - exists []. unfold try_catch, ret. by rewrite <- extend_nil.
  - by eexists [_].
Qed.

Lemma getTranscription_without_recording (recordingId : string) (w : World)
    (t : Transcript) :
  transcripts (db w) !! recordingId = Some t →
  recordings (db w) !! recordingId = None →
  (getTranscription recordingId w).1 = inl type_error.
Proof.
  intros Ht Hrec. unfold getTranscription, prisma.transcript_findUnique_include.
  unfold_M. cbn. rewrite Ht, Hrec. cbn.
  destruct (tr_speakerNames t) as [text|]; cbn; [|done].
  destruct (JS.truthy_string text); cbn; [|done].
  destruct (JSON_parse (engine w) text) as [e|v]; cbn; [done|].
  destruct (JSON.truthy v); cbn; [|done].
  by destruct (tr_content t).
Qed.

Lemma truthy_nonempty (s : string) : s ≠ ""%string → JS.truthy_string s = true.
Proof. by destruct s. Qed.

(** X19. The route that serves a transcript always answers, and never
    writes to the database.  Without the key of the transcription provider
    it answers 500, although nothing is transcribed.  With the key it
    answers 404 when the recording has no transcript, and 200 with the
    stored segments when the transcript and its recording are there. *)
Theorem getTranscriptionRoute_answers (assemblyaiKey : bool) (env : Env)
    (recordingId : string) (w : World) :
  recordingId ≠ ""%string →
  ∃ (resp : Response) (w' : World),
    getTranscriptionRoute assemblyaiKey env recordingId w = (inr resp, w') ∧
    db w' = db w ∧
    if assemblyaiKey then
      match transcripts (db w) !! recordingId, recordings (db w) !! recordingId with
      | None, _ => resp = mkResponse 404 (ErrorBody "Transcription not found" None)
      | Some t, Some rec =>
          ∃ view : TranscriptionView,
            resp = mkResponse 200 (TranscriptionBody view) ∧
            storedSegment <$> tv_segments view = tr_content t ∧
            tv_speakerNames view = storedMapping w recordingId ∧
            tv_recording view = rec
      | Some _, None => status resp = 500
      end
    else
      resp = mkResponse 500
               (ErrorBody "Failed to retrieve transcription"
                  (Some "ASSEMBLYAI_API_KEY environment variable is required"%string)).
Proof.
  intros Hid. unfold getTranscriptionRoute. rewrite (truthy_nonempty _ Hid).
  destruct (newTranscriptionService_cases assemblyaiKey env w) as [evs Hnew].
  unfold try_catch at 1. unfold bind at 1. rewrite Hnew.
  destruct assemblyaiKey; [|by eexists _, _].
  set (w1 := extend w (db w) evs).
  unfold bind at 1.
  destruct (getTranscription recordingId w1) as [r w2] eqn:Hget.
  pose proof (getTranscription_reads _ _ _ _ Hget) as Hdb.
  change (db w1) with (db w) in Hdb.
  destruct (transcripts (db w) !! recordingId) as [t|] eqn:Ht.
  2: { rewrite (getTranscription_not_found recordingId w1 Ht) in Hget.
       injection Hget as <- <-. by eexists _, _. }
  destruct (recordings (db w) !! recordingId) as [rec|] eqn:Hrec.
  - destruct (getTranscription_stored recordingId w1 t rec Ht Hrec)
      as (view & Hview & Hsegs & _ & _ & Hnames & Hr).
    rewrite Hget in Hview. cbn [fst] in Hview. subst r.
    eexists _, _. split; [done|]. split; [done|]. by exists view.
  - pose proof (getTranscription_without_recording recordingId w1 t Ht Hrec) as Hr.
    rewrite Hget in Hr. cbn [fst] in Hr. subst r.
    eexists _, _. split; [done|]. by split.
Qed.

(** The transcript of ["r1"], asked for without the key of the provider. *)
Lemma getTranscriptionRoute_answers_witness :
  (getTranscriptionRoute false (scenarioEnv twoUtterances true (inr None)) "r1"
     (scenarioWorld twoSpeakers None)).1 =
  inr (mkResponse 500
         (ErrorBody "Failed to retrieve transcription"
            (Some "ASSEMBLYAI_API_KEY environment variable is required"%string))).
Proof.
  destruct (getTranscriptionRoute_answers false
              (scenarioEnv twoUtterances true (inr None)) "r1"
              (scenarioWorld twoSpeakers None) ltac:(discriminate))
    as (resp & w' & Hrun & _ & Hresp).
  rewrite Hrun. cbn [fst]. by rewrite Hresp.
Defined.

Lemma getTranscriptionRoute_not_found (env : Env) (recordingId : string) (w : World) :
  recordingId ≠ ""%string → transcripts (db w) !! recordingId = None →
  (getTranscriptionRoute true env recordingId w).1 =
    inr (mkResponse 404 (ErrorBody "Transcription not found" None)).
Proof.
  intros Hid Hnone. unfold getTranscriptionRoute. rewrite (truthy_nonempty _ Hid).
  destruct (newTranscriptionService_cases true env w) as [evs Hnew].
  unfold try_catch at 1. unfold bind at 1. rewrite Hnew.
  unfold bind at 1.
  by rewrite (getTranscription_not_found recordingId (extend w (db w) evs) Hnone).
Qed.


(** X20. The route that deletes a transcript always answers and leaves
    the recordings alone.  With the key of the provider it answers 200 when
    the recording had a transcript and 404 when it had none, and afterwards
    the transcript is gone: asking again for its deletion, or for the
    transcript, is answered 404.  Without the key it answers 500 and deletes
    nothing. *)
Theorem deleteTranscriptionRoute_answers (assemblyaiKey : bool) (env : Env)
    (recordingId : string) (w : World) :
  recordingId ≠ ""%string →
  ∃ (resp : Response) (w' : World),
    deleteTranscriptionRoute assemblyaiKey env recordingId w = (inr resp, w') ∧
    recordings (db w') = recordings (db w) ∧
    if assemblyaiKey then
      resp = match transcripts (db w) !! recordingId with
             | Some _ =>
                 mkResponse 200
                   (DeletedBody "Transcription deleted successfully" recordingId)
             | None => mkResponse 404 (ErrorBody "Transcription not found" None)
             end ∧
      transcripts (db w') = delete recordingId (transcripts (db w)) ∧
      (deleteTranscriptionRoute assemblyaiKey env recordingId w').1 =
        inr (mkResponse 404 (ErrorBody "Transcription not found" None)) ∧
      (getTranscriptionRoute assemblyaiKey env recordingId w').1 =
        inr (mkResponse 404 (ErrorBody "Transcription not found" None))
    else
      resp = mkResponse 500
               (ErrorBody "Failed to delete transcription"
                  (Some "ASSEMBLYAI_API_KEY environment variable is required"%string)) ∧
      db w' = db w.
Proof.
  intros Hid.
  assert (Hdel : ∀ w0 : World,
            deleteTranscriptionRoute true env recordingId w0 =
              (let w1 := (newTranscriptionService true env w0).2 in
               match transcripts (db w0) !! recordingId with
               | Some _ =>
                   (inr (mkResponse 200
                           (DeletedBody "Transcription deleted successfully" recordingId)),
                    (deleteTranscription recordingId w1).2)
               | None =>
                   (inr (mkResponse 404 (ErrorBody "Transcription not found" None)), w1)
               end) ∧
            db (newTranscriptionService true env w0).2 = db w0).
  { intros w0. unfold deleteTranscriptionRoute. rewrite (truthy_nonempty _ Hid).
    destruct (newTranscriptionService_cases true env w0) as [evs Hnew].
    unfold try_catch at 1. unfold bind at 1. rewrite Hnew. cbn [snd].
    unfold bind at 1. rewrite (deleteTranscription_cases recordingId (extend w0 (db w0) evs)).
    cbn [db extend]. by destruct (transcripts (db w0) !! recordingId). }
  destruct assemblyaiKey.
  2: { unfold deleteTranscriptionRoute. rewrite (truthy_nonempty _ Hid).
       eexists _, _. by split; [reflexivity|]. }
  destruct (Hdel w) as [Hrun Hdb]. cbv zeta in Hrun.
  set (w1 := (newTranscriptionService true env w).2) in *.
  assert (Hgone : ∀ w' : World,
            transcripts (db w') !! recordingId = None →
            (deleteTranscriptionRoute true env recordingId w').1 =
              inr (mkResponse 404 (ErrorBody "Transcription not found" None)) ∧
            (getTranscriptionRoute true env recordingId w').1 =
              inr (mkResponse 404 (ErrorBody "Transcription not found" None))).
  { intros w' Hnone. split.
    - destruct (Hdel w') as [-> _]. cbv zeta. by rewrite Hnone.
    - by apply getTranscriptionRoute_not_found. }
  rewrite Hrun, (deleteTranscription_cases recordingId w1), Hdb.
  destruct (transcripts (db w) !! recordingId) as [row|] eqn:Hrow.
  - eexists _, _. split; [reflexivity|]. cbn [snd db extend recordings transcripts].
    split; [by rewrite ?Hdb|]. split; [done|]. split; [by rewrite ?Hdb|].
    apply Hgone. cbn. by rewrite lookup_delete_eq.
  - eexists _, _. split; [reflexivity|]. split; [by rewrite ?Hdb|]. split; [done|].
    split; [by rewrite ?Hdb, delete_id|]. apply Hgone. by rewrite ?Hdb.
Qed.

(** The transcript of ["r1"] deleted twice. *)
Lemma deleteTranscriptionRoute_answers_witness :
  ∃ (resp : Response) (w' : World),
    deleteTranscriptionRoute true (scenarioEnv twoUtterances true (inr None)) "r1"
      (scenarioWorld twoSpeakers None) = (inr resp, w') ∧
    status resp = 200 ∧
    (deleteTranscriptionRoute true (scenarioEnv twoUtterances true (inr None)) "r1" w').1 =
      inr (mkResponse 404 (ErrorBody "Transcription not found" None)).
Proof.
  destruct (deleteTranscriptionRoute_answers true
              (scenarioEnv twoUtterances true (inr None)) "r1"
              (scenarioWorld twoSpeakers None) ltac:(discriminate))
    as (resp & w' & Hrun & _ & Hresp & _ & Hagain & _).
  exists resp, w'. split; [exact Hrun|]. split; [by rewrite Hresp|exact Hagain].
Defined.

(** *** The routes of the speakers *)

(** X21. The route that reads the speaker mapping always answers and
    never writes to the database.  Without the key of the language model it
    answers 500, although the model is not needed to read; with the key it
    answers 200 with the value the stored column parses to, whatever JSON
    value that is, as long as it is truthy; and 404 when the column is
    null or empty, does not parse, or parses to a falsy value such as
    [null]. *)
Theorem speakerMappingRoute_answers (env : Env) (recordingId : string) (w : World) :
  recordingId ≠ ""%string →
  ∃ w' : World,
    speakerMappingRoute env recordingId w =
      (inr (if env_speakerIdentificationService env then
              match storedMapping w recordingId with
              | Some v =>
                  if JSON.truthy v then mkResponse 200 (MappingBody recordingId v)
                  else mkResponse 404 (ErrorBody "Speaker mapping not found" None)
              | None => mkResponse 404 (ErrorBody "Speaker mapping not found" None)
              end
            else
              mkResponse 500
                (ErrorBody "Failed to retrieve speaker mapping"
                   (Some "OPENAI_API_KEY environment variable is required for speaker identification"%string))),
       w') ∧
    db w' = db w.
Proof.
  intros Hid. unfold speakerMappingRoute. rewrite (truthy_nonempty _ Hid).
  unfold try_catch at 1. unfold bind at 1.
  rewrite newSpeakerIdentificationService_cases.
  destruct (env_speakerIdentificationService env); [|by eexists].
  unfold bind at 1.
  destruct (getSpeakerMapping_cases recordingId w) as (w' & -> & Hdb & _).
  exists w'. unfold usable.
  destruct (storedMapping w recordingId) as [v|]; [|done].
  by destruct (JSON.truthy v).
Qed.

(** The stored mapping of ["r1"], asked for without the key; and a column
    that holds a name and a [null], asked for with the key. *)
Lemma speakerMappingRoute_answers_witness :
  (speakerMappingRoute (scenarioEnv twoUtterances false (inr None)) "r1"
     (scenarioWorld twoSpeakers (Some (JSON.stringify janeDoe)))).1 =
  inr (mkResponse 500
         (ErrorBody "Failed to retrieve speaker mapping"
            (Some "OPENAI_API_KEY environment variable is required for speaker identification"%string))) ∧
  (speakerMappingRoute (scenarioEnv twoUtterances true (inr None)) "r1"
     (scenarioWorld twoSpeakers (Some janeAndNullText))).1 =
  inr (mkResponse 200 (MappingBody "r1" (JSON.Other janeAndNull))).
Proof.
  split.
  - destruct (speakerMappingRoute_answers (scenarioEnv twoUtterances false (inr None)) "r1"
                (scenarioWorld twoSpeakers (Some (JSON.stringify janeDoe)))
                ltac:(discriminate)) as (w' & Hrun & _).
    rewrite Hrun. reflexivity.
  - destruct (speakerMappingRoute_answers (scenarioEnv twoUtterances true (inr None)) "r1"
                (scenarioWorld twoSpeakers (Some janeAndNullText))
                ltac:(discriminate)) as (w' & Hrun & _).
    rewrite Hrun. reflexivity.
Defined.

Lemma speakerMappingRoute_stored (env : Env) (recordingId : string) (w : World)
    (v : JSON.value) :
  recordingId ≠ ""%string → env_speakerIdentificationService env = true →
  storedMapping w recordingId = Some v → JSON.truthy v = true →
  (speakerMappingRoute env recordingId w).1 =
    inr (mkResponse 200 (MappingBody recordingId v)).
Proof.
  intros Hid Hkey Hv Htruthy. unfold speakerMappingRoute.
  rewrite (truthy_nonempty _ Hid).
  unfold try_catch at 1. unfold bind at 1.
  rewrite newSpeakerIdentificationService_cases, Hkey.
  unfold bind at 1.
  destruct (getSpeakerMapping_cases recordingId w) as (w' & -> & _).
  unfold usable. by rewrite Hv, Htruthy.
Qed.


(** X22. The route that identifies the speakers always answers, and
    touches nothing but the speaker names of the transcript.  It answers
    200, with the value the reply parses to, exactly when the key of the
    language model is there, the recording has a transcript and the reply
    of the model for the stored segments and raw transcript is a non-empty
    text that parses as JSON, whatever JSON value that is; the column of the
    speaker names then holds the text of that value, and when the value is a
    mapping of strings the route that reads the mapping answers 200 with the
    same mapping.  In every other case it answers 500 and the database is
    as before: for a recording without a transcript the detail is
    [Transcript not found]. *)
Theorem identifySpeakersRoute_answers (env : Env) (recordingId : string) (w : World) :
  recordingId ≠ ""%string →
  ∃ (resp : Response) (w' : World),
    identifySpeakersRoute env recordingId w = (inr resp, w') ∧
    namesOnly recordingId (db w) (db w') ∧
    match
      (if env_speakerIdentificationService env
       then transcripts (db w) !! recordingId else None)
      ≫= λ row, replyValue (engine w) env (tr_content row) (tr_rawTranscript row)
    with
    | Some v =>
        resp = mkResponse 200
                 (IdentifiedBody "Speaker identification completed" recordingId v) ∧
        (transcripts (db w') !! recordingId ≫= tr_speakerNames)
          = Some (JSON_stringify v) ∧
        (∀ m : gmap string string, v = JSON.Mapping m →
           (speakerMappingRoute env recordingId w').1 =
             inr (mkResponse 200 (MappingBody recordingId (JSON.Mapping m))))
    | None =>
        status resp = 500 ∧ db w' = db w ∧
        (env_speakerIdentificationService env = true →
         transcripts (db w) !! recordingId = None →
         body resp = ErrorBody "Failed to identify speakers"
                       (Some "Transcript not found"%string))
    end.
Proof.
  intros Hid. unfold identifySpeakersRoute. rewrite (truthy_nonempty _ Hid).
  unfold try_catch at 1. unfold bind at 1. unfold logger at 1, emit at 1.
  unfold bind at 1. rewrite newSpeakerIdentificationService_cases.
  destruct (env_speakerIdentificationService env) eqn:Hkey.
  2: { eexists _, _. split; [reflexivity|]. split; [reflexivity|]. by cbn. }
  unfold bind at 1.
  set (w1 := {| db := db w; trace := _; engine := _ |}).
  pose proof (reIdentifySpeakers_cases env recordingId w1) as Hre.
  change (db w1) with (db w) in Hre.
  destruct (transcripts (db w) !! recordingId) as [row|] eqn:Hrow.
  2: { rewrite Hre. eexists _, _. split; [reflexivity|]. split; [reflexivity|]. by cbn. }
  cbn [mbind option_bind].
  destruct Hre as [Hre1 Hre2].
  destruct (reIdentifySpeakers env recordingId w1) as [r w2] eqn:Hrun.
  cbn [fst snd] in Hre1, Hre2.
  destruct (identifySpeakers_cases env recordingId (tr_content row)
              (tr_rawTranscript row) w1) as (evs & _ & Hid').
  change (db w1) with (db w) in Hid'. change (engine w1) with (engine w) in Hid'.
  rewrite Hrow in Hid'.
  destruct (replyValue (engine w) env (tr_content row) (tr_rawTranscript row))
    as [v|] eqn:Hreply.
  - destruct Hid' as [Hid' _].
    rewrite Hid' in Hre1, Hre2. cbn [fst snd db extend] in Hre1, Hre2. subst r.
    eexists _, _. split; [reflexivity|].
    assert (Hrow2 : transcripts (db w2) !! recordingId = Some (setSpeakerNames v row)).
    { rewrite Hre2. cbn. by rewrite lookup_insert_eq. }
    split.
    { rewrite Hre2. split; [done|]. split.
      - cbn. rewrite fmap_insert. apply insert_id. by rewrite lookup_fmap, Hrow.
      - intros other Hne. cbn. by rewrite lookup_insert_ne. }
    split; [done|]. split; [by rewrite Hrow2|].
    intros m ->.
    apply speakerMappingRoute_stored; [done|done| |done].
    by eapply stored_names_read_back.
  - destruct Hid' as [Hid' _]. rewrite Hid' in Hre1, Hre2.
    cbn [fst snd db extend] in Hre1, Hre2. subst r.
    eexists _, _. split; [reflexivity|]. cbn [db].
    split; [by rewrite Hre2|]. split; [done|]. split; [done|]. by intros _ ?.
Qed.

(** The speakers of ["r1"] identified, then read. *)
Lemma identifySpeakersRoute_answers_witness :
  ∃ (resp : Response) (w' : World),
    identifySpeakersRoute
      (scenarioEnv twoUtterances true (inr (Some (JSON.stringify janeDoe)))) "r1"
      (scenarioWorld twoSpeakers None) = (inr resp, w') ∧
    resp = mkResponse 200
             (IdentifiedBody "Speaker identification completed" "r1"
                (JSON.Mapping janeDoe)) ∧
    (speakerMappingRoute
       (scenarioEnv twoUtterances true (inr (Some (JSON.stringify janeDoe)))) "r1" w').1 =
      inr (mkResponse 200 (MappingBody "r1" (JSON.Mapping janeDoe))).
Proof.
  destruct (identifySpeakersRoute_answers
              (scenarioEnv twoUtterances true (inr (Some (JSON.stringify janeDoe)))) "r1"
              (scenarioWorld twoSpeakers None) ltac:(discriminate))
    as (resp & w' & Hrun & _ & Hresp).
  exists resp, w'. split; [exact Hrun|].
  change ((if env_speakerIdentificationService
                (scenarioEnv twoUtterances true (inr (Some (JSON.stringify janeDoe))))
           then transcripts (db (scenarioWorld twoSpeakers None)) !! "r1"%string
           else None)
          ≫= λ row, replyValue (engine (scenarioWorld twoSpeakers None))
                      (scenarioEnv twoUtterances true
                         (inr (Some (JSON.stringify janeDoe))))
                      (tr_content row) (tr_rawTranscript row))
    with (replyValue scenarioEngine
            (scenarioEnv twoUtterances true (inr (Some (JSON.stringify janeDoe))))
            twoSpeakers "hi hello") in Hresp.
  rewrite scenario_reply in Hresp.
  destruct Hresp as (Hresp & _ & Hread).
  split; [exact Hresp|]. by apply (Hread janeDoe).
Defined.

(** *** The recording a run leaves *)

Lemma transcribeDirectly_returns (env : Env) (filePath : string) (w w' : World)
    (result : TranscriptionResult) :
  transcribeDirectly env filePath w = (inr result, w') →
  db w' = db w ∧
  ∃ t : ProviderTranscript,
    env_transcribe env filePath = inr t ∧ pt_status t = StatusCompleted ∧
    res_segments result = parseAssemblyAISegmentsWithSpeakers t ∧
    res_duration result = JS.or_opt_num (pt_audio_duration t) (probedDuration env filePath).
Proof.
  intros H. split; [symmetry; by apply transcribeDirectly_reads in H|].
  revert H. unfold transcribeDirectly, getAudioDuration, parseLog, probedDuration.
  unfold_M.
  destruct (env_transcribe env filePath) as [e|t]; cbn; [done|].
  destruct (pt_status t) eqn:Hst; cbn; [|done].
  exists t. revert H.
  destruct (env_ffprobe env filePath) as [d|]; cbn;
    destruct (pt_utterances t) as [us|]; cbn; by intros [= <- _].
Qed.

Lemma storeTranscription_returns (recordingId : string) (result : TranscriptionResult)
    (w w' : World) (rec : Recording) :
  recordings (db w) !! recordingId = Some rec →
  storeTranscription recordingId result w = (inr tt, w') →
  recordings (db w') !! recordingId =
    Some (if Qle_bool (res_duration result) 0 then rec
          else setDuration (res_duration result) rec).
Proof.
  intros Hrec. unfold storeTranscription, prisma.transcript_create,
    prisma.recording_update.
  unfold_M. cbn.
  destruct (transcripts (db w) !! recordingId) as [row|]; cbn; [done|].
  rewrite Hrec. cbn.
  destruct (Qle_bool (res_duration result) 0); cbn.
  - by intros [= <-].
  - rewrite Hrec. cbn. intros [= <-]. cbn. by rewrite lookup_insert_eq.
Qed.

Lemma identificationStep_recordings (env : Env) (recordingId : string)
    (result : TranscriptionResult) (w w' : World) (r : Exception + unit) :
  identificationStep env recordingId result w = (r, w') →
  r = inr tt ∧ recordings (db w') = recordings (db w).
Proof.
  intros H.
  destruct (identificationStep_cases env recordingId result w)
    as (evs & d' & Hstep & Hrecs & _).
  rewrite Hstep in H. by injection H as <- <-.
Qed.

(** X23. The recording a run that returns leaves behind: its file names
    are those it had, its status is [COMPLETED], and its duration is that of
    the result when that is positive and the one it had otherwise.  The
    duration of the result is the one the provider reports when it reports
    one that is not zero, and otherwise the one the probe of the file
    reports, 0 when the probe fails. *)
Theorem transcribeAudio_completed_recording (env : Env)
    (recordingId filePath : string) (w w' : World) (result : TranscriptionResult)
    (rec : Recording) :
  recordings (db w) !! recordingId = Some rec →
  transcribeAudio env recordingId filePath w = (inr result, w') →
  recordings (db w') !! recordingId =
    Some (completedRecording (res_duration result) rec) ∧
  ∃ t : ProviderTranscript,
    env_transcribe env filePath = inr t ∧
    res_duration result =
      JS.or_opt_num (pt_audio_duration t) (probedDuration env filePath).
Proof.
  intros Hrec H. unfold transcribeAudio in H.
  apply try_catch_cases in H as [(a & H & [= <-])|(e & w1 & _ & Hh)];
    [|by apply failure_handler in Hh as [[e' ?] _]].
  apply bind_cases in H as [(u & w1 & H1 & H)|(e & _ & ?)]; [|done].
  apply logger_cases in H1 as [_ ->].
  apply bind_cases in H as [(u1 & w2 & H2 & H)|(e & _ & ?)]; [|done].
  rewrite updateRecordingStatus_cases in H2. cbn [db trace extend] in H2.
  rewrite Hrec in H2. injection H2 as _ <-.
  apply bind_cases in H as [(size & w3 & H3 & H)|(e & _ & ?)]; [|done].
  assert (Hw3 : db w3 = {| recordings :=
                             <[recordingId := setStatus "TRANSCRIBING" rec]>
                               (recordings (db w));
                           transcripts := transcripts (db w) |}).
  { revert H3. unfold liftE, ret, throw.
    destruct (env_statSync env filePath); [done|]. by intros [= _ <-]. }
  clear H3.
  apply bind_cases in H as [(u4 & w4 & H4 & H)|(e & _ & ?)]; [|done].
  apply logger_cases in H4 as [_ ->].
  apply bind_cases in H as [(result' & w5 & H5 & H)|(e & _ & ?)]; [|done].
  apply transcribeDirectly_returns in H5 as (Hw5 & t & Ht & _ & _ & Hduration).
  cbn [db extend] in Hw5. rewrite Hw3 in Hw5.
  apply bind_cases in H as [(u6 & w6 & H6 & H)|(e & _ & ?)]; [|done].
  destruct u6.
  apply (storeTranscription_returns _ _ _ _ (setStatus "TRANSCRIBING" rec)) in H6;
    [|by rewrite Hw5; cbn; rewrite lookup_insert_eq].
  apply bind_cases in H as [(u7 & w7 & H7 & H)|(e & _ & ?)]; [|done].
  apply identificationStep_recordings in H7 as [_ Hw7].
  apply bind_cases in H as [(u8 & w8 & H8 & H)|(e & _ & ?)]; [|done].
  rewrite updateRecordingStatus_cases, Hw7, H6 in H8. injection H8 as _ <-.
  apply bind_cases in H as [(u9 & w9 & H9 & H)|(e & _ & ?)]; [|done].
  apply logger_cases in H9 as [_ ->].
  injection H as <- <-. split; [|by exists t].
  cbn. rewrite lookup_insert_eq. unfold completedRecording.
  by destruct (Qle_bool (res_duration result') 0).
Qed.

(** Two utterances whose duration only the probe reports: 4 seconds. *)
Lemma transcribeAudio_completed_recording_witness :
  rec_duration <$>
    recordings
      (db (transcribeAudio (scenarioEnv twoUtterances false (inr None)) "r1"
             "/uploads/call.mp3" freshWorld).2) !! "r1"%string
  = Some (Some 4%Q).
Proof.
  destruct (transcribeAudio_runs (scenarioEnv twoUtterances false (inr None)) "r1"
              "/uploads/call.mp3" freshWorld
              (freshWorld_runnable twoUtterances false _ eq_refl))
    as (result & w' & H).
  destruct (transcribeAudio_completed_recording
              (scenarioEnv twoUtterances false (inr None)) "r1" "/uploads/call.mp3"
              freshWorld w' result scenarioRecording eq_refl H)
    as (Hrow & t & Ht & Hduration).
  rewrite H. cbn [snd]. rewrite Hrow. cbn [fmap option_fmap option_map].
  injection Ht as <-. unfold completedRecording. cbn [rec_duration].
  rewrite Hduration. reflexivity.
Defined.

(** X24. A run of [transcribeAudio] creates the transcript exactly when it
    returns: when it throws, the transcripts table is as before; when it
    returns, the recording had no transcript and now has one that holds the
    segments of the result. *)
Theorem transcribeAudio_creates_transcript_iff_returns (env : Env)
    (recordingId filePath : string) (w w' : World)
    (r : Exception + TranscriptionResult) :
  transcribeAudio env recordingId filePath w = (r, w') →
  match r with
  | inl _ => transcripts (db w') = transcripts (db w)
  | inr result =>
      transcripts (db w) !! recordingId = None ∧
      ∃ row : Transcript,
        transcripts (db w') !! recordingId = Some row ∧
        tr_content row = res_segments result
  end.
Proof.
  intros H.
  apply transcribeAudio_outcome in H as [([e ->] & Htr & _)|H]; [done|].
  destruct H as (result & evs & row & -> & (_ & Hnone & _) & _ & _ & _ & _ & _
                 & Hrow & Hcontent & _).
  split; [done|]. by exists row.
Qed.

(** A provider that fails. *)
Lemma transcribeAudio_creates_transcript_iff_returns_witness :
  transcripts
    (db (transcribeAudio (scenarioEnv failedTranscript true (inr None)) "r1"
           "/uploads/call.mp3" freshWorld).2) = ∅.
Proof.
  exact (transcribeAudio_creates_transcript_iff_returns
           (scenarioEnv failedTranscript true (inr None)) "r1" "/uploads/call.mp3"
           freshWorld _ (inl _) eq_refl).
Defined.
